(** * Face time-lapse alignment: eye-aligned rendering and auto-fit zoom

    A shallow embedding of the geometric core of [script.js]
    ([getCentroid], [renderFrame], [autoFitZoom] and the loading-overlay
    helpers they call), together with the properties of that code.

    Number model.  A JavaScript Number is embedded as [num]: a real number,
    or one of the three special values [+Infinity], [-Infinity], [NaN].
    Arithmetic on finite values is exact real arithmetic (rounding and
    overflow of binary64 are not represented, nor is the sign of zero; the
    one computation in which a rounding of the last bit is turned into a
    visible step, [Math.floor(minSafeZoom * 0.95 * 100) / 100], is embedded
    a second time over binary64 numbers, see [clampedZoom64]);
    the special values follow IEEE 754 / ECMAScript: [x / 0] is an infinity
    or [NaN], [Infinity * 0] is [NaN], every comparison with [NaN] is false,
    and [Math.min] / [Math.max] return [NaN] as soon as an argument is
    [NaN].  Every zero divisor this program can meet is a [+0] (a length, a
    canvas or image dimension, a square root), so reading [0] as [+0] in
    [ndiv] is what the program does. *)

From Stdlib Require Import Reals Lra Lia List ZArith String Bool.
From Stdlib Require Import Permutation.
From Stdlib Require Import Floats.SpecFloat.
Import ListNotations.
Open Scope R_scope.

(** ** JavaScript numbers *)

Module JS.

Inductive num : Type :=
| Fin (r : R)
| PInf
| NInf
| NaN.

Definition Rltb (a b : R) : bool := if Rlt_dec a b then true else false.
Definition Reqb (a b : R) : bool := if Req_dec_T a b then true else false.

Definition is_finite (a : num) : bool :=
  match a with Fin _ => true | _ => false end.

(** Unary minus. *)
Definition nneg (a : num) : num :=
  match a with
  | Fin r => Fin (- r)
  | PInf => NInf
  | NInf => PInf
  | NaN => NaN
  end.

(** [a + b]. *)
Definition nadd (a b : num) : num :=
  match a, b with
  | NaN, _ | _, NaN => NaN
  | Fin x, Fin y => Fin (x + y)
  | PInf, NInf | NInf, PInf => NaN
  | PInf, _ | _, PInf => PInf
  | NInf, _ | _, NInf => NInf
  end.

(** [a - b]. *)
Definition nsub (a b : num) : num := nadd a (nneg b).

(** An infinity of the sign of [r], [NaN] when [r] is zero. *)
Definition inf_signed (positive : bool) (r : R) : num :=
  if Rltb 0 r then (if positive then PInf else NInf)
  else if Rltb r 0 then (if positive then NInf else PInf)
  else NaN.

(** [a * b]. *)
Definition nmul (a b : num) : num :=
  match a, b with
  | NaN, _ | _, NaN => NaN
  | Fin x, Fin y => Fin (x * y)
  | PInf, Fin y => inf_signed true y
  | NInf, Fin y => inf_signed false y
  | Fin x, PInf => inf_signed true x
  | Fin x, NInf => inf_signed false x
  | PInf, PInf | NInf, NInf => PInf
  | PInf, NInf | NInf, PInf => NInf
  end.

(** [a / b]; a zero divisor is [+0]. *)
Definition ndiv (a b : num) : num :=
  match a, b with
  | NaN, _ | _, NaN => NaN
  | Fin x, Fin y => if Reqb y 0 then inf_signed true x else Fin (x / y)
  | Fin _, PInf | Fin _, NInf => Fin 0
  | PInf, Fin y => if Rltb y 0 then NInf else PInf
  | NInf, Fin y => if Rltb y 0 then PInf else NInf
  | PInf, _ | NInf, _ => NaN
  end.

(** [a < b]; false as soon as one side is [NaN]. *)
Definition nlt (a b : num) : bool :=
  match a, b with
  | NaN, _ | _, NaN => false
  | Fin x, Fin y => Rltb x y
  | NInf, NInf => false
  | NInf, _ => true
  | _, NInf => false
  | PInf, _ => false
  | Fin _, PInf => true
  end.

(** [a > b]. *)
Definition ngt (a b : num) : bool := nlt b a.

(** [Math.min(a, b)]. *)
Definition nmin (a b : num) : num :=
  match a, b with
  | NaN, _ | _, NaN => NaN
  | _, _ => if nlt b a then b else a
  end.

(** [Math.max(a, b)]. *)
Definition nmax (a b : num) : num :=
  match a, b with
  | NaN, _ | _, NaN => NaN
  | _, _ => if nlt a b then b else a
  end.

(** [Math.sqrt(a)]. *)
Definition nsqrt (a : num) : num :=
  match a with
  | Fin r => if Rltb r 0 then NaN else Fin (sqrt r)
  | PInf => PInf
  | NInf | NaN => NaN
  end.

(** [Math.floor(a)]. *)
Definition nfloor (a : num) : num :=
  match a with
  | Fin r => Fin (IZR (Zfloor r))
  | other => other
  end.

(** [Math.round(a)]: the integer nearest to [a], ties towards [+Infinity]. *)
Definition nround (a : num) : num :=
  match a with
  | Fin r => Fin (IZR (Zfloor (r + / 2)))
  | other => other
  end.

(** [Math.cos(a)] and [Math.sin(a)]. *)
Definition ncos (a : num) : num :=
  match a with Fin r => Fin (cos r) | _ => NaN end.

Definition nsin (a : num) : num :=
  match a with Fin r => Fin (sin r) | _ => NaN end.

(** [Math.atan2] on finite arguments. *)
Definition Ratan2 (y x : R) : R :=
  if Rltb 0 x then atan (y / x)
  else if Rltb x 0 then (if Rltb y 0 then atan (y / x) - PI else atan (y / x) + PI)
  else if Rltb 0 y then PI / 2
  else if Rltb y 0 then - (PI / 2)
  else 0.

(** [Math.atan2(y, x)]. *)
Definition natan2 (y x : num) : num :=
  match y, x with
  | NaN, _ | _, NaN => NaN
  | Fin b, Fin a => Fin (Ratan2 b a)
  | Fin _, PInf => Fin 0
  | Fin b, NInf => if Rltb b 0 then Fin (- PI) else Fin PI
  | PInf, Fin _ => Fin (PI / 2)
  | NInf, Fin _ => Fin (- (PI / 2))
  | PInf, PInf => Fin (PI / 4)
  | PInf, NInf => Fin (3 * PI / 4)
  | NInf, PInf => Fin (- (PI / 4))
  | NInf, NInf => Fin (- (3 * PI / 4))
  end.

(** A non-negative integer as a Number. *)
Definition ofN (n : N) : num := Fin (IZR (Z.of_N n)).
Definition ofnat (n : nat) : num := Fin (INR n).

End JS.
Import JS.

(** ** Data model *)

(** A landmark point reported by the face detector: finite pixel
    coordinates in source-image space. *)
Record Point : Type := mkPoint { px : R; py : R }.

(** A point computed by the program ([{ x, y }] with Number fields). *)
Record NPoint : Type := mkNPoint { x : num; y : num }.

(** A decoded image ([item.original]): only its pixel dimensions matter. *)
Record Image : Type := mkImage { width : N; height : N }.

(** [detections.landmarks], through its two accessors. *)
Record Landmarks : Type := mkLandmarks {
  getLeftEye : list Point;
  getRightEye : list Point
}.

Record Detections : Type := mkDetections { landmarks : Landmarks }.

(** One entry of [state.images]; [detections] is [undefined] when the
    detector found no face. *)
Record Item : Type := mkItem {
  original : Image;
  detections : option Detections
}.

(** ** The 2D canvas (host API)

    The rendering context belongs to the browser.  It is embedded after the
    HTML Standard: a current transformation matrix, a stack of saved drawing
    states, and (standing for the pixels) the log of what was painted, each
    entry with the matrix in force when it was painted.  [translate],
    [scale], [rotate] and [drawImage] return without effect when an argument
    is infinite or [NaN]. *)

(** The affine map [(u, v) |-> (a u + c v + e, b u + d v + f)]. *)
Record Matrix : Type := mkMatrix {
  ma : R; mb : R; mc : R; md : R; me : R; mf : R
}.

Definition identityM : Matrix := mkMatrix 1 0 0 1 0 0.

(** [mmul m n]: first [n], then [m]. *)
Definition mmul (m n : Matrix) : Matrix :=
  mkMatrix (ma m * ma n + mc m * mb n)
           (mb m * ma n + md m * mb n)
           (ma m * mc n + mc m * md n)
           (mb m * mc n + md m * md n)
           (ma m * me n + mc m * mf n + me m)
           (mb m * me n + md m * mf n + mf m).

Definition applyM (m : Matrix) (p : R * R) : R * R :=
  (ma m * fst p + mc m * snd p + me m, mb m * fst p + md m * snd p + mf m).

Inductive Paint : Type :=
| PFill (style : string) (m : Matrix) (rx ry rw rh : R)
| PImage (img : Image) (m : Matrix) (dx dy dw dh : R).

Record Ctx : Type := mkCtx {
  fillStyle : string;
  ctm : Matrix;
  saved : list (Matrix * string);
  painted : list Paint
}.

Definition setFillStyle (s : string) (c : Ctx) : Ctx :=
  mkCtx s (ctm c) (saved c) (painted c).

Definition setCtm (m : Matrix) (c : Ctx) : Ctx :=
  mkCtx (fillStyle c) m (saved c) (painted c).

Definition paint (p : Paint) (c : Ctx) : Ctx :=
  mkCtx (fillStyle c) (ctm c) (saved c) (p :: painted c).

Definition fillRect (rx ry rw rh : num) (c : Ctx) : Ctx :=
  match rx, ry, rw, rh with
  | Fin a, Fin b, Fin w, Fin h => paint (PFill (fillStyle c) (ctm c) a b w h) c
  | _, _, _, _ => c
  end.

Definition save (c : Ctx) : Ctx :=
  mkCtx (fillStyle c) (ctm c) ((ctm c, fillStyle c) :: saved c) (painted c).

Definition restore (c : Ctx) : Ctx :=
  match saved c with
  | [] => c
  | (m, s) :: rest => mkCtx s m rest (painted c)
  end.

Definition translate (tx ty : num) (c : Ctx) : Ctx :=
  match tx, ty with
  | Fin a, Fin b => setCtm (mmul (ctm c) (mkMatrix 1 0 0 1 a b)) c
  | _, _ => c
  end.

Definition scale (sx sy : num) (c : Ctx) : Ctx :=
  match sx, sy with
  | Fin a, Fin b => setCtm (mmul (ctm c) (mkMatrix a 0 0 b 0 0)) c
  | _, _ => c
  end.

Definition rotate (angle : num) (c : Ctx) : Ctx :=
  match angle with
  | Fin t => setCtm (mmul (ctm c) (mkMatrix (cos t) (sin t) (- sin t) (cos t) 0 0)) c
  | _ => c
  end.

(** [drawImage(image, dx, dy)]. *)
Definition drawImage3 (img : Image) (dx dy : num) (c : Ctx) : Ctx :=
  match dx, dy with
  | Fin a, Fin b =>
      paint (PImage img (ctm c) a b (IZR (Z.of_N (width img))) (IZR (Z.of_N (height img)))) c
  | _, _ => c
  end.

(** [drawImage(image, dx, dy, dw, dh)]. *)
Definition drawImage5 (img : Image) (dx dy dw dh : num) (c : Ctx) : Ctx :=
  match dx, dy, dw, dh with
  | Fin a, Fin b, Fin w, Fin h => paint (PImage img (ctm c) a b w h) c
  | _, _, _, _ => c
  end.

(** ** Session state *)

Record Canvas : Type := mkCanvas { cwidth : N; cheight : N }.

(** The global [state] object. *)
Record State : Type := mkState {
  images : list Item;
  isModelLoaded : bool;
  isPlaying : bool;
  currentFrame : nat;
  fps : Z;
  zoom : num;
  alignEyes : bool;
  canvas : Canvas;
  ctx : Ctx;
  animationId : option nat
}.

(** The part of the [elements] object the modelled functions touch. *)
Record Elements : Type := mkElements {
  loadingText : string;
  loadingOverlayHidden : bool;
  progressBarContainerHidden : bool;
  progressBarWidth : Z;
  zoomRangeValue : num
}.

Record World : Type := mkWorld { state : State; elements : Elements }.

Definition setCtx (c : Ctx) (s : State) : State :=
  mkState (images s) (isModelLoaded s) (isPlaying s) (currentFrame s) (fps s)
          (zoom s) (alignEyes s) (canvas s) c (animationId s).

Definition setZoom (z : num) (s : State) : State :=
  mkState (images s) (isModelLoaded s) (isPlaying s) (currentFrame s) (fps s)
          z (alignEyes s) (canvas s) (ctx s) (animationId s).

(** ** The program *)

(** [getCentroid(points)]: a [reduce] from [{ x: 0, y: 0 }], then a division
    by [points.length]. *)
Definition getCentroid (points : list Point) : NPoint :=
  let sum := fold_left (fun acc p => mkPoint (px acc + px p) (py acc + py p))
                       points (mkPoint 0 0) in
  mkNPoint (ndiv (Fin (px sum)) (ofnat (List.length points)))
           (ndiv (Fin (py sum)) (ofnat (List.length points))).

(** The eye geometry [renderFrame] and [autoFitZoom] both derive, with the
    same statements, from the landmarks of an item. *)
Record FaceGeometry : Type := mkFaceGeometry {
  eyesCenter : NPoint;
  angle : num;
  currentEyesDist : num
}.

Definition faceGeometry (lm : Landmarks) : FaceGeometry :=
  let leftEyeCenter := getCentroid (getLeftEye lm) in
  let rightEyeCenter := getCentroid (getRightEye lm) in
  let dx := nsub (x rightEyeCenter) (x leftEyeCenter) in
  let dy := nsub (y rightEyeCenter) (y leftEyeCenter) in
  mkFaceGeometry
    (mkNPoint (ndiv (nadd (x leftEyeCenter) (x rightEyeCenter)) (Fin 2))
              (ndiv (nadd (y leftEyeCenter) (y rightEyeCenter)) (Fin 2)))
    (natan2 dy dx)
    (nsqrt (nadd (nmul dx dx) (nmul dy dy))).

(** The aligned branch of [renderFrame]. *)
Definition drawAligned (cv : Canvas) (zm : num) (item : Item) (lm : Landmarks)
    (c : Ctx) : Ctx :=
  let g := faceGeometry lm in
  let desiredEyesDist := nmul (ofN (cwidth cv)) zm in
  let scale_ := ndiv desiredEyesDist (currentEyesDist g) in
  let targetX := nmul (ofN (cwidth cv)) (Fin (5 / 10)) in
  let targetY := nmul (ofN (cheight cv)) (Fin (4 / 10)) in
  let c := save c in
  let c := translate targetX targetY c in
  let c := scale scale_ scale_ c in
  let c := rotate (nneg (angle g)) c in
  let c := translate (nneg (x (eyesCenter g))) (nneg (y (eyesCenter g))) c in
  let c := drawImage3 (original item) (Fin 0) (Fin 0) c in
  restore c.

(** The other branch of [renderFrame]: the image centred in the canvas. *)
Definition drawCentered (cv : Canvas) (item : Item) (c : Ctx) : Ctx :=
  let iw := ofN (width (original item)) in
  let ih := ofN (height (original item)) in
  let scale_ := nmin (ndiv (ofN (cwidth cv)) iw) (ndiv (ofN (cheight cv)) ih) in
  let x_ := ndiv (nsub (ofN (cwidth cv)) (nmul iw scale_)) (Fin 2) in
  let y_ := ndiv (nsub (ofN (cheight cv)) (nmul ih scale_)) (Fin 2) in
  drawImage5 (original item) x_ y_ (nmul iw scale_) (nmul ih scale_) c.

(** [renderFrame(index)]. *)
Definition renderFrame (index : nat) (s : State) : State :=
  match nth_error (images s) index with
  | None => s
  | Some item =>
      let c := setFillStyle "#000" (ctx s) in
      let c := fillRect (Fin 0) (Fin 0) (ofN (cwidth (canvas s)))
                        (ofN (cheight (canvas s))) c in
      match alignEyes s, detections item with
      | true, Some det =>
          setCtx (drawAligned (canvas s) (zoom s) item (landmarks det) c) s
      | _, _ => setCtx (drawCentered (canvas s) item c) s
      end
  end.

(** [showLoading(text, progress = -1)] and [hideLoading()]. *)
Definition showLoading (text : string) (progress : Z) (e : Elements) : Elements :=
  if (0 <=? progress)%Z
  then mkElements text false false progress (zoomRangeValue e)
  else mkElements text false true (progressBarWidth e) (zoomRangeValue e).

Definition hideLoading (e : Elements) : Elements :=
  mkElements (loadingText e) true (progressBarContainerHidden e)
             (progressBarWidth e) (zoomRangeValue e).

Definition setZoomRangeValue (v : num) (e : Elements) : Elements :=
  mkElements (loadingText e) (loadingOverlayHidden e)
             (progressBarContainerHidden e) (progressBarWidth e) v.

(** The four corners of an image, in the order of the source. *)
Definition corners (img : Image) : list NPoint :=
  [ mkNPoint (Fin 0) (Fin 0);
    mkNPoint (ofN (width img)) (Fin 0);
    mkNPoint (ofN (width img)) (ofN (height img));
    mkNPoint (Fin 0) (ofN (height img)) ].

(** The body of [corners.forEach]: one corner's update of
    [maxScaleForThisImage]. *)
Definition cornerStep (canvasWidth canvasHeight targetX targetY : num)
    (ec : NPoint) (cos_ sin_ : num) (maxScaleForThisImage : num) (p : NPoint)
    : num :=
  let relX := nsub (x p) (x ec) in
  let relY := nsub (y p) (y ec) in
  let rotX := nsub (nmul relX cos_) (nmul relY sin_) in
  let rotY := nadd (nmul relX sin_) (nmul relY cos_) in
  let m :=
    if ngt rotX (Fin 0)
    then nmin maxScaleForThisImage (ndiv (nsub canvasWidth targetX) rotX)
    else if nlt rotX (Fin 0)
    then nmin maxScaleForThisImage (ndiv (nneg targetX) rotX)
    else maxScaleForThisImage in
  if ngt rotY (Fin 0)
  then nmin m (ndiv (nsub canvasHeight targetY) rotY)
  else if nlt rotY (Fin 0)
  then nmin m (ndiv (nneg targetY) rotY)
  else m.

(** [maxScaleForThisImage] once [corners.forEach] is over. *)
Definition maxScaleFor (cv : Canvas) (img : Image) (g : FaceGeometry) : num :=
  let canvasWidth := ofN (cwidth cv) in
  let canvasHeight := ofN (cheight cv) in
  let targetX := nmul canvasWidth (Fin (5 / 10)) in
  let targetY := nmul canvasHeight (Fin (4 / 10)) in
  let cos_ := ncos (nneg (angle g)) in
  let sin_ := nsin (nneg (angle g)) in
  fold_left (cornerStep canvasWidth canvasHeight targetX targetY
                        (eyesCenter g) cos_ sin_)
            (corners img) PInf.

(** [safeZoom] of an item that has detections. *)
Definition safeZoomFor (cv : Canvas) (img : Image) (g : FaceGeometry) : num :=
  ndiv (nmul (maxScaleFor cv img g) (currentEyesDist g)) (ofN (cwidth cv)).

(** The body of [state.images.forEach]: one item's update of [minSafeZoom]. *)
Definition itemStep (cv : Canvas) (minSafeZoom : num) (item : Item) : num :=
  match detections item with
  | None => minSafeZoom
  | Some det =>
      nmin minSafeZoom (safeZoomFor cv (original item) (faceGeometry (landmarks det)))
  end.

(** [minSafeZoom] once [state.images.forEach] is over. *)
Definition minSafeZoomOf (s : State) : num :=
  fold_left (itemStep (canvas s)) (images s) (Fin 1).

(** [finalZoom] and [clampedZoom] from [minSafeZoom]. *)
Definition finalZoomOf (minSafeZoom : num) : num :=
  ndiv (nfloor (nmul (nmul minSafeZoom (Fin (95 / 100))) (Fin 100))) (Fin 100).

Definition clampedZoomOf (minSafeZoom : num) : num :=
  nmax (Fin (1 / 10)) (nmin (Fin 1) (finalZoomOf minSafeZoom)).

(** [autoFitZoom()]. *)
Definition autoFitZoom (w : World) : World :=
  match images (state w) with
  | [] => w
  | _ :: _ =>
      let e := showLoading "Calculating optimal zoom..." (-1) (elements w) in
      let clampedZoom := clampedZoomOf (minSafeZoomOf (state w)) in
      let s := setZoom clampedZoom (state w) in
      let e := setZoomRangeValue (nround (nmul clampedZoom (Fin 100))) e in
      let e := hideLoading e in
      if isPlaying s then mkWorld s e
      else mkWorld (renderFrame (currentFrame s) s) e
  end.

(** ** The specification's vocabulary

    Definitions that follow the wording of the specification, to be
    compared with the program above. *)

(** "Multiply the computed global safe zoom by a fixed margin factor (0.95)". *)
Definition spec_margin (z : num) : num := nmul z (Fin (95 / 100)).

(** "Truncate (floor) to two decimal-place granularity". *)
Definition spec_truncate2 (v : num) : num :=
  ndiv (nfloor (nmul v (Fin 100))) (Fin 100).

(** "Clamp to the allowed range [zoomMin, zoomMax]". *)
Definition spec_clamp (lo hi v : num) : num :=
  if nlt v lo then lo else if ngt v hi then hi else v.

(** Margin, then truncation, then clamping to [0.1, 1.0]. *)
Definition spec_returnedZoom (z : num) : num :=
  spec_clamp (Fin (1 / 10)) (Fin 1) (spec_truncate2 (spec_margin z)).

(** "if rot > 0: bound = (extent - target) / rot; if rot < 0: bound =
    -target / rot; if rot == 0: no bound from this axis/corner". *)
Definition spec_axisBound (extent target rot : R) : option R :=
  if Rltb 0 rot then Some ((extent - target) / rot)
  else if Rltb rot 0 then Some (- target / rot)
  else None.

(** A corner rotated by [-angle] about the eyes-center. *)
Definition spec_rotated (cx cy ang : R) (corner : R * R) : R * R :=
  let relX := fst corner - cx in
  let relY := snd corner - cy in
  (relX * cos (- ang) - relY * sin (- ang),
   relX * sin (- ang) + relY * cos (- ang)).

Definition spec_corners (w h : R) : list (R * R) :=
  [ (0, 0); (w, 0); (w, h); (0, h) ].

(** The bounds of one image: for each corner, the one of the x axis and
    the one of the y axis, where there is one. *)
Definition spec_bounds (canvasWidth canvasHeight w h cx cy ang : R) : list R :=
  flat_map
    (fun corner =>
       let rot := spec_rotated cx cy ang corner in
       let bx := spec_axisBound canvasWidth (canvasWidth * (5 / 10)) (fst rot) in
       let by_ := spec_axisBound canvasHeight (canvasHeight * (4 / 10)) (snd rot) in
       (match bx with Some b => [b] | None => [] end)
         ++ (match by_ with Some b => [b] | None => [] end))%list
    (spec_corners w h).

(** The minimum of a list of bounds; no bound at all leaves the scale
    unbounded. *)
Fixpoint spec_minimum (bounds : list R) : num :=
  match bounds with
  | [] => PInf
  | b :: rest =>
      match spec_minimum rest with
      | Fin m => Fin (Rmin b m)
      | _ => Fin b
      end
  end.

(** The arithmetic mean of a list of reals. *)
Definition spec_mean (xs : list R) : R :=
  fold_right Rplus 0 xs / INR (List.length xs).

(** [a <= b] on Numbers (false when a [NaN] is involved). *)
Definition nle (a b : num) : bool :=
  match a, b with
  | NaN, _ | _, NaN => false
  | _, _ => negb (nlt b a)
  end.

(** ** Auxiliary definitions *)

(** The callback of the [reduce] of [getCentroid]. *)
Definition sumStep (acc p : Point) : Point :=
  mkPoint (px acc + px p) (py acc + py p).

(** The geometry derived from two finite eye centres. *)
Definition geometryOf (lx ly rx ry : R) : FaceGeometry :=
  mkFaceGeometry
    (mkNPoint (Fin ((lx + rx) / 2)) (Fin ((ly + ry) / 2)))
    (Fin (Ratan2 (ry + - ly) (rx + - lx)))
    (Fin (sqrt ((rx + - lx) * (rx + - lx) + (ry + - ly) * (ry + - ly)))).

(** The matrix under which the most recent image was painted. *)
Definition builtTransform (c : Ctx) : option Matrix :=
  match painted c with
  | PImage _ m _ _ _ _ :: _ => Some m
  | _ => None
  end.

(** [T(target) . Scale(s) . Rotate(-angle) . T(-eyesCenter)]. *)
Definition alignMatrix (tx ty s ang cx cy : R) : Matrix :=
  mmul (mmul (mmul (mkMatrix 1 0 0 1 tx ty) (mkMatrix s 0 0 s 0 0))
             (mkMatrix (cos (- ang)) (sin (- ang)) (- sin (- ang)) (cos (- ang)) 0 0))
       (mkMatrix 1 0 0 1 (- cx) (- cy)).

(** One more bound taken into a running minimum. *)
Definition boundsStep (acc : num) (b : R) : num := nmin acc (Fin b).

(** The bound of one axis of one corner, as a list of at most one bound. *)
Definition optList (o : option R) : list R :=
  match o with Some b => [b] | None => [] end.

(** The bounds one corner contributes, for a rotation given by its cosine
    and sine. *)
Definition cornerBounds (cw ch tx ty cx cy C S : R) (p : R * R) : list R :=
  (optList (spec_axisBound cw tx ((fst p - cx) * C - (snd p - cy) * S))
   ++ optList (spec_axisBound ch ty ((fst p - cx) * S + (snd p - cy) * C)))%list.

(** The safe zooms of the items that have detections, in order. *)
Definition safeZooms (cv : Canvas) (items : list Item) : list num :=
  flat_map
    (fun item =>
       match detections item with
       | Some det => [safeZoomFor cv (original item) (faceGeometry (landmarks det))]
       | None => []
       end)
    items.

(** The minimum of a list of Numbers ([+Infinity] for the empty list). *)
Definition spec_minimumN (l : list num) : num := fold_right nmin PInf l.

(** "A frame with geometry": detections whose eye distance is positive. *)
Definition hasGeometry (item : Item) : bool :=
  match detections item with
  | Some det => ngt (currentEyesDist (faceGeometry (landmarks det))) (Fin 0)
  | None => false
  end.

(** "The minimum safe zoom over all frames with geometry". *)
Definition spec_globalSafeZoom (cv : Canvas) (items : list Item) : num :=
  spec_minimumN (safeZooms cv (filter hasGeometry items)).

(** Sample frames: a 1000 x 1000 image on a 1000 x 1000 canvas. *)
Definition img1000 : Image := mkImage 1000 1000.
Definition cv1000 : Canvas := mkCanvas 1000 1000.

(** Eyes centred on (400, 500) and (600, 500). *)
Definition lmWide : Landmarks :=
  mkLandmarks [mkPoint 390 495; mkPoint 410 505] [mkPoint 590 495; mkPoint 610 505].

(** Eyes centred on (450, 500) and (550, 500). *)
Definition lmNarrow : Landmarks :=
  mkLandmarks [mkPoint 440 495; mkPoint 460 505] [mkPoint 540 495; mkPoint 560 505].

(** Both eyes detected around the same point (500, 500). *)
Definition lmCoincident : Landmarks :=
  mkLandmarks [mkPoint 490 495; mkPoint 510 505] [mkPoint 490 495; mkPoint 510 505].

(** An empty left-eye cluster. *)
Definition lmEmptyLeft : Landmarks :=
  mkLandmarks [] [mkPoint 590 495; mkPoint 610 505].

(** Eyes centred on (-50, 40) and (150, 40), outside a 100 x 100 image. *)
Definition lmOutside : Landmarks :=
  mkLandmarks [mkPoint (-60) 35; mkPoint (-40) 45] [mkPoint 140 35; mkPoint 160 45].

Definition itemWide : Item := mkItem img1000 (Some (mkDetections lmWide)).
Definition itemNarrow : Item := mkItem img1000 (Some (mkDetections lmNarrow)).
Definition itemCoincident : Item := mkItem img1000 (Some (mkDetections lmCoincident)).
Definition itemEmptyLeft : Item := mkItem img1000 (Some (mkDetections lmEmptyLeft)).
Definition itemNoFace : Item := mkItem img1000 None.

(** A rendering context between two frames: nothing saved, nothing painted. *)
Definition ctx0 : Ctx := mkCtx "#000" identityM [] [].

(** A paused session on a 1000 x 1000 canvas, zoom at its default 0.25. *)
Definition stateOf (items : list Item) : State :=
  mkState items true false 0 10 (Fin (25 / 100)) true cv1000 ctx0 None.

(** The controls at rest: overlay hidden, slider on 25. *)
Definition elements0 : Elements := mkElements "" true true 0 (Fin 25).

Definition worldOf (items : list Item) : World := mkWorld (stateOf items) elements0.

(** A finite, non-negative Number. *)
Definition finNonneg (v : num) : Prop := exists r, v = Fin r /\ 0 <= r.

(** The Euclidean distance between two points. *)
Definition distance (p q : R * R) : R :=
  sqrt ((fst q - fst p) * (fst q - fst p) + (snd q - snd p) * (snd q - snd p)).

(** ** Vocabulary of the further properties *)

(** The four corners of an image, as points of the plane. *)
Definition imageCorners (img : Image) : list (R * R) :=
  spec_corners (IZR (Z.of_N (width img))) (IZR (Z.of_N (height img))).

(** A point of the plane that lies on the canvas, borders included. *)
Definition onCanvas (cv : Canvas) (p : R * R) : Prop :=
  0 <= fst p <= IZR (Z.of_N (cwidth cv)) /\ 0 <= snd p <= IZR (Z.of_N (cheight cv)).

(** The destination rectangle of the most recent image painted. *)
Definition paintedRect (c : Ctx) : option (R * R * R * R) :=
  match painted c with
  | PImage _ _ a b w h :: _ => Some (a, b, w, h)
  | _ => None
  end.

(** ** Playback, controls and reset

    The page around the session: the two sections and the file input that
    [resetApp] touches, the two align buttons, and the animation-frame
    callbacks the browser holds (host API, after the HTML Standard: a
    counter of handles and the list of pending callbacks, run in order at
    the next frame).  Every pending callback is the [loop] of some
    [startPlayback]; it is kept with the [lastTime] of its closure. *)

Record Page : Type := mkPage {
  world : World;
  editorSectionHidden : bool;
  uploadSectionHidden : bool;
  fileInputValue : string;
  alignEyesBtnActive : bool;
  noAlignBtnActive : bool;
  pendingFrames : list (nat * R);
  frameCounter : nat
}.

Definition setIsPlaying (b : bool) (s : State) : State :=
  mkState (images s) (isModelLoaded s) b (currentFrame s) (fps s)
          (zoom s) (alignEyes s) (canvas s) (ctx s) (animationId s).

Definition setCurrentFrame (n : nat) (s : State) : State :=
  mkState (images s) (isModelLoaded s) (isPlaying s) n (fps s)
          (zoom s) (alignEyes s) (canvas s) (ctx s) (animationId s).

Definition setAnimationId (h : option nat) (s : State) : State :=
  mkState (images s) (isModelLoaded s) (isPlaying s) (currentFrame s) (fps s)
          (zoom s) (alignEyes s) (canvas s) (ctx s) h.

Definition setImages (l : list Item) (s : State) : State :=
  mkState l (isModelLoaded s) (isPlaying s) (currentFrame s) (fps s)
          (zoom s) (alignEyes s) (canvas s) (ctx s) (animationId s).

Definition setState (s : State) (p : Page) : Page :=
  mkPage (mkWorld s (elements (world p))) (editorSectionHidden p)
         (uploadSectionHidden p) (fileInputValue p) (alignEyesBtnActive p)
         (noAlignBtnActive p) (pendingFrames p) (frameCounter p).

Definition setPending (l : list (nat * R)) (p : Page) : Page :=
  mkPage (world p) (editorSectionHidden p) (uploadSectionHidden p)
         (fileInputValue p) (alignEyesBtnActive p) (noAlignBtnActive p)
         l (frameCounter p).

(** [requestAnimationFrame(loop)], for a [loop] whose closure holds
    [lastTime]: the handle, and the page with the callback pending. *)
Definition requestAnimationFrame (lastTime : R) (p : Page) : nat * Page :=
  let handle := Datatypes.S (frameCounter p) in
  (handle,
   mkPage (world p) (editorSectionHidden p) (uploadSectionHidden p)
          (fileInputValue p) (alignEyesBtnActive p) (noAlignBtnActive p)
          (pendingFrames p ++ [(handle, lastTime)])%list handle).

(** [cancelAnimationFrame(handle)]. *)
Definition cancelAnimationFrame (handle : nat) (p : Page) : Page :=
  setPending (filter (fun e => negb (Nat.eqb (fst e) handle)) (pendingFrames p)) p.

(** [if (state.animationId) cancelAnimationFrame(state.animationId)]. *)
Definition cancelStored (p : Page) : Page :=
  match animationId (state (world p)) with
  | Some handle => cancelAnimationFrame handle p
  | None => p
  end.

(** [loop(timestamp)], the callback of [startPlayback], in a closure whose
    [lastTime] is given.  With no image the remainder by
    [state.images.length] is [NaN], which [currentFrame] cannot hold: the
    embedding stops there with [None]. *)
Definition loop (timestamp lastTime : R) (p : Page) : option Page :=
  let s := state (world p) in
  if negb (isPlaying s) then Some p
  else
    let interval := ndiv (Fin 1000) (Fin (IZR (fps s))) in
    let after :=
      if ngt (nsub (Fin timestamp) (Fin lastTime)) interval
      then match images s with
           | [] => None
           | _ :: _ =>
               Some (setCurrentFrame
                       ((currentFrame s + 1) mod List.length (images s))
                       (renderFrame (currentFrame s) s),
                     timestamp)
           end
      else Some (s, lastTime) in
    match after with
    | None => None
    | Some (s', lastTime') =>
        let (handle, p') := requestAnimationFrame lastTime' (setState s' p) in
        Some (setState (setAnimationId (Some handle) (state (world p'))) p')
    end.

(** [startPlayback()]. *)
Definition startPlayback (p : Page) : Page :=
  let p := cancelStored p in
  let p := setState (setCurrentFrame 0 (setIsPlaying true (state (world p)))) p in
  snd (requestAnimationFrame 0 p).

(** [resetApp()]. *)
Definition resetApp (p : Page) : Page :=
  let p := setState (setIsPlaying false (state (world p))) p in
  let p := cancelStored p in
  let p := setState (setImages [] (state (world p))) p in
  mkPage (world p) true false "" (alignEyesBtnActive p) (noAlignBtnActive p)
         (pendingFrames p) (frameCounter p).

(** The [input] listener of the zoom slider; [value] is the integer that
    [parseInt] reads off the slider. *)
Definition onZoomRangeInput (value : Z) (p : Page) : Page :=
  let s := setZoom (ndiv (Fin (IZR value)) (Fin 100)) (state (world p)) in
  match isPlaying s, images s with
  | false, _ :: _ => setState (renderFrame (currentFrame s) s) p
  | _, _ => setState s p
  end.

(** One animation frame of the browser at time [t]: the callbacks pending
    when the frame starts are run in order, each one unless it has been
    cancelled in the meantime. *)
Fixpoint runCallbacks (t : R) (callbacks : list (nat * R)) (p : Page) : option Page :=
  match callbacks with
  | [] => Some p
  | (handle, lastTime) :: rest =>
      if existsb (fun e => Nat.eqb (fst e) handle) (pendingFrames p)
      then match loop t lastTime (cancelAnimationFrame handle p) with
           | Some p' => runCallbacks t rest p'
           | None => None
           end
      else runCallbacks t rest p
  end.

Definition animationFrame (t : R) (p : Page) : option Page :=
  runCallbacks t (pendingFrames p) p.

(** A run of animation frames, at the given times. *)
Fixpoint animationFrames (ts : list R) (p : Page) : option Page :=
  match ts with
  | [] => Some p
  | t :: rest =>
      match animationFrame t p with
      | Some p' => animationFrames rest p'
      | None => None
      end
  end.

(** How many of the frames at times [ts] come more than [interval] after
    the last frame that did. *)
Fixpoint renderCount (interval : num) (ts : list R) (lastTime : R) : nat :=
  match ts with
  | [] => 0
  | t :: rest =>
      if ngt (nsub (Fin t) (Fin lastTime)) interval
      then Datatypes.S (renderCount interval rest t)
      else renderCount interval rest lastTime
  end.

(** ** GIF export

    The encoder is a library (gif.js).  It is embedded as the list of the
    frames it was given, each one the copy of the canvas taken by
    [addFrame] (what is painted at that moment) with its delay; its calls
    are taken not to throw, so the [catch] branch of [exportGif] is not
    embedded, nor is the download started by the [finished] listener. *)

Record GifFrame : Type := mkGifFrame { snapshot : list Paint; delay : num }.

Definition setElements (e : Elements) (p : Page) : Page :=
  mkPage (mkWorld (state (world p)) e) (editorSectionHidden p)
         (uploadSectionHidden p) (fileInputValue p) (alignEyesBtnActive p)
         (noAlignBtnActive p) (pendingFrames p) (frameCounter p).

(** The body of the [for] loop of [exportGif], at index [i].  The progress
    is a whole number there, since [i] is below the length; [NaN >= 0] is
    false, and [+Infinity] cannot arise inside the loop. *)
Definition addGifFrame (acc : Page * list GifFrame) (i : nat) : Page * list GifFrame :=
  let p := fst acc in
  let s := renderFrame i (state (world p)) in
  let p := setState s p in
  let gif := (snd acc
              ++ [mkGifFrame (painted (ctx s)) (ndiv (Fin 1000) (Fin (IZR (fps s))))])%list in
  let progress := nround (nmul (ndiv (ofnat i) (ofnat (List.length (images s)))) (Fin 50)) in
  let p := match progress with
           | Fin r => setElements (showLoading "Adding frames..." (Zfloor r)
                                               (elements (world p))) p
           | _ => setElements (showLoading "Adding frames..." (-1)
                                           (elements (world p))) p
           end in
  (p, gif).

(** [exportGif()], up to [gif.render()]: the page, and, unless the function
    returned at once, the frames handed to the encoder and [wasPlaying]. *)
Definition exportGif (p : Page) : Page * option (list GifFrame * bool) :=
  match images (state (world p)) with
  | [] => (p, None)
  | _ :: _ =>
      let p := setElements (showLoading "Generating GIF..." 0 (elements (world p))) p in
      let wasPlaying := isPlaying (state (world p)) in
      let p := setState (setIsPlaying false (state (world p))) p in
      let p := cancelStored p in
      let result :=
        fold_left addGifFrame (seq 0 (List.length (images (state (world p))))) (p, []) in
      (fst result, Some (snd result, wasPlaying))
  end.

(** The [finished] listener of the encoder, as far as the session goes. *)
Definition onGifFinished (wasPlaying : bool) (p : Page) : Page :=
  let p := setElements (hideLoading (elements (world p))) p in
  if wasPlaying then startPlayback p else p.

(** The frames drawn one after the other, at the given indices. *)
Definition renderFrames (indices : list nat) (s : State) : State :=
  fold_left (fun st i => renderFrame i st) indices s.

(** A page at rest around a session. *)
Definition pageOf (w : World) : Page := mkPage w false true "" true false [] 0.

(** ** The final zoom in binary64

    [Math.floor] turns a rounding error of the last bit into a whole
    hundredth, so lines 421-424 are also embedded over binary64 numbers:
    the [spec_float] of the Standard Library with 53 bits of precision,
    every operation rounded to nearest, ties to even. *)

Module B64.

Definition prec : Z := 53.
Definition emax : Z := 1024.

(** An integer as a Number. *)
Definition ofZ (n : Z) : spec_float := binary_normalize prec emax n 0 false.

(** [a * b] and [a / b]. *)
Definition mul : spec_float -> spec_float -> spec_float := SFmul prec emax.
Definition div : spec_float -> spec_float -> spec_float := SFdiv prec emax.

(** The decimal literal of the fraction [n / d]: the binary64 number nearest
    to it. *)
Definition lit (n d : Z) : spec_float := div (ofZ n) (ofZ d).

(** [Math.floor(a)]. *)
Definition floor (a : spec_float) : spec_float :=
  match a with
  | S754_finite s m e =>
      if (0 <=? e)%Z then a
      else binary_normalize prec emax (Z.shiftr (cond_Zopp s (Zpos m)) (- e)) 0 s
  | other => other
  end.

(** [Math.min(a, b)] and [Math.max(a, b)]. *)
Definition min (a b : spec_float) : spec_float :=
  match a, b with
  | S754_nan, _ | _, S754_nan => S754_nan
  | S754_zero sa, S754_zero sb => S754_zero (sa || sb)
  | _, _ => if SFltb b a then b else a
  end.

Definition max (a b : spec_float) : spec_float :=
  match a, b with
  | S754_nan, _ | _, S754_nan => S754_nan
  | S754_zero sa, S754_zero sb => S754_zero (sa && sb)
  | _, _ => if SFltb a b then b else a
  end.

(** The real number [m * 2 ^ e]. *)
Definition F2R (m e : Z) : R := IZR m * powerRZ 2 e.

(** The Number a binary64 number stands for. *)
Definition value (a : spec_float) : num :=
  match a with
  | S754_zero _ => Fin 0
  | S754_finite s m e => Fin (F2R (cond_Zopp s (Zpos m)) e)
  | S754_infinity false => PInf
  | S754_infinity true => NInf
  | S754_nan => NaN
  end.

(** Equality of representations. *)
Definition eqb (a b : spec_float) : bool :=
  match a, b with
  | S754_zero s, S754_zero t => Bool.eqb s t
  | S754_infinity s, S754_infinity t => Bool.eqb s t
  | S754_nan, S754_nan => true
  | S754_finite s m e, S754_finite t n f => Bool.eqb s t && Pos.eqb m n && Z.eqb e f
  | _, _ => false
  end.

(** The last step of a rounding: a zero, a finite number or an overflow. *)
Definition packed (s : bool) (m e : Z) : spec_float :=
  match m with
  | Z0 => S754_zero s
  | Zpos p => if (e <=? emax - prec)%Z then S754_finite s p e else S754_infinity s
  | Zneg _ => S754_nan
  end.

End B64.

(** [finalZoom] and [clampedZoom] from [minSafeZoom], in binary64. *)
Definition finalZoom64 (minSafeZoom : spec_float) : spec_float :=
  B64.div (B64.floor (B64.mul (B64.mul minSafeZoom (B64.lit 95 100)) (B64.ofZ 100)))
          (B64.ofZ 100).

Definition clampedZoom64 (minSafeZoom : spec_float) : spec_float :=
  B64.max (B64.lit 1 10) (B64.min (B64.ofZ 1) (finalZoom64 minSafeZoom)).

(** [k] hundredths: the binary64 number nearest to [k / 100]. *)
Definition hundredth64 (k : Z) : spec_float := B64.lit k 100.

(** An integer clamped into [10, 100]. *)
Definition clampZ (n : Z) : Z := Z.max 10 (Z.min 100 n).

(** The division by 100 and the clamp, after [Math.floor]. *)
Definition clampTail (a : spec_float) : spec_float :=
  B64.max (B64.lit 1 10) (B64.min (B64.ofZ 1) (B64.div a (B64.ofZ 100))).

(** The clamp applied to the whole numbers up to 95, as [Math.floor] returns
    them: normalized, or with a non-negative exponent. *)
Definition tailTable : bool :=
  forallb (fun i => B64.eqb (clampTail (binary_normalize B64.prec B64.emax (Z.of_nat i) 0 false))
                            (hundredth64 (clampZ (Z.of_nat i))))
          (seq 0 96).

Definition tailTableInt : bool :=
  forallb (fun i =>
     forallb (fun j => B64.eqb (clampTail (S754_finite false (Pos.of_nat i) (Z.of_nat j)))
                               (hundredth64 (clampZ (Z.of_nat i * 2 ^ Z.of_nat j))))
             (seq 0 7))
          (seq 1 95).

(** A 950 x 1000 image on a 950 x 1000 canvas, the eyes centred on
    (420, 400) and (530, 400): level, 110 apart, and every corner bound
    equal to 1. *)
Definition img950 : Image := mkImage 950 1000.
Definition cv950 : Canvas := mkCanvas 950 1000.

Definition lmLevel110 : Landmarks :=
  mkLandmarks [mkPoint 410 395; mkPoint 430 405] [mkPoint 520 395; mkPoint 540 405].

(** The safe zoom of that frame as line 418 computes it:
    [(1 * 110) / 950] in binary64, 0.11578947368421053. *)
Definition safeZoom64_level110 : spec_float :=
  B64.div (B64.mul (B64.ofZ 1) (B64.ofZ 110)) (B64.ofZ 950).

(** On the 1000 x 1000 canvas, eyes centred on (200, 400) and (800, 400):
    level, 600 apart, every corner bound equal to 1; and the safe zoom of
    that frame as line 418 computes it, [(1 * 600) / 1000] in binary64. *)
Definition lmLevel600 : Landmarks :=
  mkLandmarks [mkPoint 190 395; mkPoint 210 405] [mkPoint 790 395; mkPoint 810 405].

Definition safeZoom64_level600 : spec_float :=
  B64.div (B64.mul (B64.ofZ 1) (B64.ofZ 600)) (B64.ofZ 1000).

(** A first image of height 0 and one of width 0, without detections; the
    canvas takes the size of the first image.  A paused session on a given
    canvas. *)
Definition itemFlat : Item := mkItem (mkImage 1000 0) None.
Definition itemThin : Item := mkItem (mkImage 0 1000) None.
Definition cvFlat : Canvas := mkCanvas 1000 0.
Definition cvThin : Canvas := mkCanvas 0 1000.

Definition worldOn (cv : Canvas) (items : list Item) : World :=
  mkWorld (mkState items true false 0 10 (Fin (25 / 100)) true cv ctx0 None) elements0.

(** ** Numbers: basic facts *)

Lemma Rltb_true (a b : R) : a < b -> Rltb a b = true.
Proof. intros H. unfold Rltb. destruct (Rlt_dec a b); [reflexivity | contradiction]. Qed.

Lemma Rltb_false (a b : R) : b <= a -> Rltb a b = false.
Proof. intros H. unfold Rltb. destruct (Rlt_dec a b); [lra | reflexivity]. Qed.

Lemma Rltb_spec (a b : R) : Rltb a b = true <-> a < b.
Proof. unfold Rltb. destruct (Rlt_dec a b); split; intros; auto; discriminate. Qed.

Lemma Reqb_true (a b : R) : a = b -> Reqb a b = true.
Proof. intros H. unfold Reqb. destruct (Req_dec_T a b); [reflexivity | contradiction]. Qed.

Lemma Reqb_false (a b : R) : a <> b -> Reqb a b = false.
Proof. intros H. unfold Reqb. destruct (Req_dec_T a b); [contradiction | reflexivity]. Qed.

(** Settle every comparison of the goal that linear arithmetic decides. *)
Ltac decide_R :=
  repeat match goal with
  | |- context [Rltb ?a ?b] =>
      first [ rewrite (Rltb_true a b) by lra | rewrite (Rltb_false a b) by lra ]
  | |- context [Reqb ?a ?b] =>
      first [ rewrite (Reqb_true a b) by lra
            | rewrite (Reqb_false a b) by (intro; lra) ]
  end.

(** Unfold the Number operations without touching the real numbers. *)
Ltac num_unfold :=
  cbv beta iota zeta delta
    [nadd nsub nneg nmul ndiv nlt ngt nmin nmax nsqrt nfloor nround ncos nsin
     natan2 nle inf_signed ofN ofnat is_finite negb Z.of_N].

Ltac num_eval := repeat (progress (num_unfold; decide_R)).

Lemma Zfloor_IZR (z : Z) : Zfloor (IZR z) = z.
Proof. apply Zfloor_eq. lra. Qed.

Lemma IZR_of_N_nonneg (n : N) : 0 <= IZR (Z.of_N n).
Proof. apply IZR_le. lia. Qed.

Lemma IZR_of_N_pos (n : N) : (0 < n)%N -> 0 < IZR (Z.of_N n).
Proof. intros H. apply IZR_lt. lia. Qed.

(** Split on every comparison of the goal and close the cases by linear
    arithmetic. *)
Ltac case_R :=
  unfold Rltb, Reqb;
  repeat match goal with
  | |- context [Rlt_dec ?a ?b] => destruct (Rlt_dec a b)
  | |- context [Req_dec_T ?a ?b] => destruct (Req_dec_T a b)
  end;
  try reflexivity; try (exfalso; lra); try (f_equal; lra).

(** The clamp of the program is the clamp of the specification. *)
Lemma clamp_max_min (v : num) :
  nmax (Fin (1 / 10)) (nmin (Fin 1) v) = spec_clamp (Fin (1 / 10)) (Fin 1) v.
Proof.
  unfold spec_clamp. destruct v as [r | | |]; num_unfold; try reflexivity.
  - unfold Rltb.
    destruct (Rlt_dec r 1); destruct (Rlt_dec r (1 / 10)); destruct (Rlt_dec 1 r);
      num_unfold; case_R.
  - case_R.
Qed.

(** A value clamped by the program lies in [0.1, 1.0] unless it is [NaN]. *)
Lemma clampedZoomOf_range (z : num) (r : R) :
  clampedZoomOf z = Fin r -> 1 / 10 <= r <= 1.
Proof.
  unfold clampedZoomOf. destruct (finalZoomOf z) as [v | | |]; num_unfold.
  - unfold Rltb. destruct (Rlt_dec v 1); num_unfold; unfold Rltb;
      repeat match goal with
      | |- context [Rlt_dec ?a ?b] => destruct (Rlt_dec a b)
      end; intros E; injection E as <-; lra.
  - unfold Rltb. destruct (Rlt_dec (1 / 10) 1); intros E; injection E as <-; lra.
  - intros E; injection E as <-; lra.
  - discriminate.
Qed.

(** ** Frames of [renderFrame] and [autoFitZoom] *)

Lemma renderFrame_zoom (i : nat) (s : State) : zoom (renderFrame i s) = zoom s.
Proof.
  unfold renderFrame. destruct (nth_error (images s) i); [| reflexivity].
  destruct (alignEyes s), (detections i0); reflexivity.
Qed.

Lemma renderFrame_images (i : nat) (s : State) : images (renderFrame i s) = images s.
Proof.
  unfold renderFrame. destruct (nth_error (images s) i); [| reflexivity].
  destruct (alignEyes s), (detections i0); reflexivity.
Qed.

(** The zoom [autoFitZoom] stores when there is at least one image. *)
Lemma autoFitZoom_zoom (w : World) :
  images (state w) <> [] ->
  zoom (state (autoFitZoom w)) = clampedZoomOf (minSafeZoomOf (state w)).
Proof.
  intros Hne. unfold autoFitZoom.
  destruct (images (state w)) as [| it rest] eqn:E; [contradiction |].
  cbn [isPlaying setZoom].
  destruct (isPlaying (state w)); cbn [state].
  - reflexivity.
  - rewrite renderFrame_zoom. reflexivity.
Qed.

(** ** Centroids and eye geometry *)

Lemma fold_sumStep (pts : list Point) (acc : Point) :
  fold_left sumStep pts acc
  = mkPoint (px acc + fold_right Rplus 0 (map px pts))
            (py acc + fold_right Rplus 0 (map py pts)).
Proof.
  revert acc. induction pts as [| p pts IH]; intros acc.
  - destruct acc as [ax ay]. cbn. f_equal; ring.
  - cbn [fold_left map fold_right]. rewrite IH. unfold sumStep. cbn [px py].
    f_equal; ring.
Qed.

Lemma getCentroid_empty : getCentroid [] = mkNPoint NaN NaN.
Proof.
  unfold getCentroid, ofnat, ndiv, inf_signed.
  cbn [fold_left List.length px py INR]. decide_R. reflexivity.
Qed.

Lemma getCentroid_nonempty (pts : list Point) :
  pts <> [] ->
  getCentroid pts
  = mkNPoint (Fin (spec_mean (map px pts))) (Fin (spec_mean (map py pts))).
Proof.
  intros Hne. unfold getCentroid.
  change (fun acc p => mkPoint (px acc + px p) (py acc + py p)) with sumStep.
  rewrite fold_sumStep. cbn [px py]. unfold ofnat, ndiv, spec_mean.
  assert (Hlen : INR (List.length pts) <> 0).
  { apply not_0_INR. destruct pts; [contradiction | discriminate]. }
  rewrite (Reqb_false _ _ Hlen). rewrite !length_map, !Rplus_0_l.
  reflexivity.
Qed.

(** A centroid is finite in both coordinates, or [NaN] in both. *)
Lemma getCentroid_cases (pts : list Point) :
  (exists cx cy, getCentroid pts = mkNPoint (Fin cx) (Fin cy) /\ pts <> [])
  \/ (getCentroid pts = mkNPoint NaN NaN /\ pts = []).
Proof.
  destruct pts as [| p pts].
  - right. split; [apply getCentroid_empty | reflexivity].
  - left. eexists. eexists. split.
    + apply getCentroid_nonempty. discriminate.
    + discriminate.
Qed.

Lemma sumsq_nonneg (a b : R) : 0 <= a * a + b * b.
Proof. pose proof (Rle_0_sqr a). pose proof (Rle_0_sqr b). unfold Rsqr in *. lra. Qed.

Lemma faceGeometry_finite (lm : Landmarks) (lx ly rx ry : R) :
  getCentroid (getLeftEye lm) = mkNPoint (Fin lx) (Fin ly) ->
  getCentroid (getRightEye lm) = mkNPoint (Fin rx) (Fin ry) ->
  faceGeometry lm = geometryOf lx ly rx ry.
Proof.
  intros HL HR. unfold faceGeometry, geometryOf. rewrite HL, HR. cbn [x y].
  num_unfold. rewrite (Reqb_false 2 0) by lra.
  rewrite Rltb_false by apply sumsq_nonneg. reflexivity.
Qed.

(** A finite eye distance means that both eye clusters are non-empty. *)
Lemma finite_dist_centroids (lm : Landmarks) (d : R) :
  currentEyesDist (faceGeometry lm) = Fin d ->
  exists lx ly rx ry,
    getCentroid (getLeftEye lm) = mkNPoint (Fin lx) (Fin ly)
    /\ getCentroid (getRightEye lm) = mkNPoint (Fin rx) (Fin ry)
    /\ getLeftEye lm <> [] /\ getRightEye lm <> [].
Proof.
  intros Hd.
  destruct (getCentroid_cases (getLeftEye lm)) as [(lx & ly & HL & HLne) | [HL _]];
  destruct (getCentroid_cases (getRightEye lm)) as [(rx & ry & HR & HRne) | [HR _]].
  - exists lx, ly, rx, ry. auto.
  - exfalso. unfold faceGeometry in Hd. rewrite HL, HR in Hd. cbn in Hd. discriminate.
  - exfalso. unfold faceGeometry in Hd. rewrite HL, HR in Hd. cbn in Hd. discriminate.
  - exfalso. unfold faceGeometry in Hd. rewrite HL, HR in Hd. cbn in Hd. discriminate.
Qed.

(** ** The transform built by [renderFrame] *)

Ltac ctx_unfold :=
  unfold drawAligned, drawCentered, save, restore, translate, scale, rotate,
    drawImage3, drawImage5, fillRect, paint, setCtm, setFillStyle, setCtx,
    builtTransform, geometryOf;
  cbn [fillStyle ctm saved painted x y eyesCenter angle currentEyesDist].

Lemma mmul_identity_l (m : Matrix) : mmul identityM m = m.
Proof.
  destruct m. unfold mmul, identityM. cbn [ma mb mc md me mf]. f_equal; ring.
Qed.

Lemma mmul_assoc (m n k : Matrix) : mmul (mmul m n) k = mmul m (mmul n k).
Proof.
  destruct m, n, k. unfold mmul. cbn [ma mb mc md me mf]. f_equal; ring.
Qed.

(** What the aligned branch paints when the eye distance is finite and not
    zero and the zoom is finite. *)
Lemma drawAligned_finite (cv : Canvas) (z : R) (item : Item) (lm : Landmarks)
    (c : Ctx) (lx ly rx ry : R) :
  getCentroid (getLeftEye lm) = mkNPoint (Fin lx) (Fin ly) ->
  getCentroid (getRightEye lm) = mkNPoint (Fin rx) (Fin ry) ->
  sqrt ((rx + - lx) * (rx + - lx) + (ry + - ly) * (ry + - ly)) <> 0 ->
  drawAligned cv (Fin z) item lm c
  = mkCtx (fillStyle c) (ctm c) (saved c)
      (PImage (original item)
         (mmul (ctm c)
            (alignMatrix (IZR (Z.of_N (cwidth cv)) * (5 / 10))
                         (IZR (Z.of_N (cheight cv)) * (4 / 10))
                         (IZR (Z.of_N (cwidth cv)) * z
                          / sqrt ((rx + - lx) * (rx + - lx) + (ry + - ly) * (ry + - ly)))
                         (Ratan2 (ry + - ly) (rx + - lx))
                         ((lx + rx) / 2) ((ly + ry) / 2)))
         0 0 (IZR (Z.of_N (width (original item))))
         (IZR (Z.of_N (height (original item))))
       :: painted c).
Proof.
  intros HL HR Hd. unfold drawAligned.
  rewrite (faceGeometry_finite lm lx ly rx ry HL HR).
  unfold ofN, geometryOf. cbn [x y eyesCenter angle currentEyesDist].
  cbv beta iota zeta delta [nmul ndiv nneg].
  rewrite (Reqb_false _ _ Hd). cbv beta iota. ctx_unfold.
  unfold alignMatrix. rewrite !mmul_assoc. reflexivity.
Qed.

(** [renderFrame] on an item with detections, in align mode, with a finite
    zoom and a finite, non-zero eye distance. *)
Lemma renderFrame_aligned (s : State) (index : nat) (item : Item)
    (det : Detections) (z lx ly rx ry : R) :
  nth_error (images s) index = Some item ->
  alignEyes s = true ->
  detections item = Some det ->
  zoom s = Fin z ->
  getCentroid (getLeftEye (landmarks det)) = mkNPoint (Fin lx) (Fin ly) ->
  getCentroid (getRightEye (landmarks det)) = mkNPoint (Fin rx) (Fin ry) ->
  sqrt ((rx + - lx) * (rx + - lx) + (ry + - ly) * (ry + - ly)) <> 0 ->
  builtTransform (ctx (renderFrame index s))
  = Some (mmul (ctm (ctx s))
            (alignMatrix (IZR (Z.of_N (cwidth (canvas s))) * (5 / 10))
                         (IZR (Z.of_N (cheight (canvas s))) * (4 / 10))
                         (IZR (Z.of_N (cwidth (canvas s))) * z
                          / sqrt ((rx + - lx) * (rx + - lx) + (ry + - ly) * (ry + - ly)))
                         (Ratan2 (ry + - ly) (rx + - lx))
                         ((lx + rx) / 2) ((ly + ry) / 2))).
Proof.
  intros Hnth Hal Hdet Hz HL HR Hd. unfold renderFrame.
  rewrite Hnth, Hal, Hdet, Hz.
  rewrite (drawAligned_finite _ z item _ _ lx ly rx ry HL HR Hd).
  reflexivity.
Qed.

(** The aligning matrix sends the eyes-center to the target. *)
Lemma alignMatrix_center (tx ty s ang cx cy : R) :
  applyM (alignMatrix tx ty s ang cx cy) (cx, cy) = (tx, ty).
Proof.
  unfold applyM, alignMatrix, mmul. cbn [ma mb mc md me mf fst snd].
  f_equal; ring.
Qed.

(** The aligning matrix scales every distance by [s]. *)
Lemma alignMatrix_distance (tx ty s ang cx cy : R) (p q : R * R) :
  0 <= s ->
  let p' := applyM (alignMatrix tx ty s ang cx cy) p in
  let q' := applyM (alignMatrix tx ty s ang cx cy) q in
  sqrt ((fst q' - fst p') * (fst q' - fst p') + (snd q' - snd p') * (snd q' - snd p'))
  = s * sqrt ((fst q - fst p) * (fst q - fst p) + (snd q - snd p) * (snd q - snd p)).
Proof.
  intros Hs. destruct p as [p1 p2], q as [q1 q2].
  unfold applyM, alignMatrix, mmul. cbn [ma mb mc md me mf fst snd].
  pose proof (sin2_cos2 (- ang)) as Hsc. unfold Rsqr in Hsc.
  set (C := cos (- ang)) in *. set (S := sin (- ang)) in *.
  set (D := (q1 - p1) * (q1 - p1) + (q2 - p2) * (q2 - p2)).
  assert (HD : 0 <= D) by (unfold D; apply sumsq_nonneg).
  match goal with
  | |- sqrt ?e = _ => replace e with ((s * s) * D)
  end.
  - rewrite sqrt_mult by (try apply Rle_0_sqr; nra).
    rewrite sqrt_square by assumption. reflexivity.
  - unfold D.
    transitivity ((s * s) * ((S * S + C * C)
                  * ((q1 - p1) * (q1 - p1) + (q2 - p2) * (q2 - p2)))).
    + rewrite Hsc. ring.
    + ring.
Qed.

(** ** The scale bound of one image *)

Lemma nmin_PInf_r (a : num) : nmin a PInf = a.
Proof. destruct a; reflexivity. Qed.

Lemma nmin_PInf_l (a : num) : nmin PInf a = a.
Proof. destruct a; reflexivity. Qed.

Lemma nmin_assoc (a b c : num) : nmin (nmin a b) c = nmin a (nmin b c).
Proof.
  destruct a as [u | | |], b as [v | | |], c as [w | | |];
    try reflexivity; num_unfold; unfold Rltb;
    repeat match goal with
    | |- context [Rlt_dec ?p ?q] => destruct (Rlt_dec p q); num_unfold; unfold Rltb
    end; try reflexivity; try (exfalso; lra); try (f_equal; lra).
Qed.

(** The minimum of a list of bounds is never [NaN] nor [-Infinity]. *)
Lemma spec_minimum_shape (l : list R) :
  (l = [] /\ spec_minimum l = PInf)
  \/ (exists m, spec_minimum l = Fin m /\ In m l /\ forall b, In b l -> m <= b).
Proof.
  induction l as [| b rest IH].
  - left. split; reflexivity.
  - right. cbn [spec_minimum].
    destruct IH as [[-> ->] | (m & -> & Hin & Hmin)].
    + exists b. split; [reflexivity |]. split; [left; reflexivity |].
      intros c [<- | []]. lra.
    + exists (Rmin b m). split; [reflexivity |]. split.
      * unfold Rmin. destruct (Rle_dec b m); [left; reflexivity | right; assumption].
      * intros c [<- | Hc].
        -- apply Rmin_l.
        -- specialize (Hmin c Hc). pose proof (Rmin_r b m). lra.
Qed.

Lemma spec_minimum_cons (b : R) (rest : list R) :
  spec_minimum (b :: rest) = nmin (Fin b) (spec_minimum rest).
Proof.
  cbn [spec_minimum].
  destruct (spec_minimum_shape rest) as [[_ ->] | (m & -> & _)]; [reflexivity |].
  num_unfold. unfold Rmin, Rltb.
  destruct (Rle_dec b m), (Rlt_dec m b); try reflexivity; exfalso; lra.
Qed.

(** The running minimum of the program is the minimum of the list. *)
Lemma fold_boundsStep (l : list R) (acc : num) :
  fold_left boundsStep l acc = nmin acc (spec_minimum l).
Proof.
  revert acc. induction l as [| b rest IH]; intros acc.
  - cbn [fold_left spec_minimum]. rewrite nmin_PInf_r. reflexivity.
  - cbn [fold_left]. rewrite IH. unfold boundsStep.
    rewrite nmin_assoc, <- spec_minimum_cons. reflexivity.
Qed.

(** One axis of one corner, as the program writes it. *)
Lemma axis_update (acc : num) (extent target rot : R) :
  (if ngt (Fin rot) (Fin 0)
   then nmin acc (ndiv (nsub (Fin extent) (Fin target)) (Fin rot))
   else if nlt (Fin rot) (Fin 0)
   then nmin acc (ndiv (nneg (Fin target)) (Fin rot))
   else acc)
  = fold_left boundsStep (optList (spec_axisBound extent target rot)) acc.
Proof.
  unfold spec_axisBound, ngt, nlt, nsub, nadd, nneg, ndiv, Rltb, Reqb.
  destruct (Rlt_dec 0 rot) as [Hp | Hp].
  - destruct (Req_dec_T rot 0); [exfalso; lra |]. reflexivity.
  - destruct (Rlt_dec rot 0) as [Hn | Hn].
    + destruct (Req_dec_T rot 0); [exfalso; lra |]. reflexivity.
    + reflexivity.
Qed.

(** One corner, as the program writes it, when everything is finite. *)
Lemma cornerStep_finite (cw ch tx ty cx cy C S : R) (acc : num) (p1 p2 : R) :
  cornerStep (Fin cw) (Fin ch) (Fin tx) (Fin ty) (mkNPoint (Fin cx) (Fin cy))
             (Fin C) (Fin S) acc (mkNPoint (Fin p1) (Fin p2))
  = fold_left boundsStep (cornerBounds cw ch tx ty cx cy C S (p1, p2)) acc.
Proof.
  unfold cornerStep, cornerBounds. cbn [x y fst snd].
  rewrite fold_left_app.
  change (nsub (nmul (nsub (Fin p1) (Fin cx)) (Fin C))
               (nmul (nsub (Fin p2) (Fin cy)) (Fin S)))
    with (Fin ((p1 - cx) * C - (p2 - cy) * S)).
  change (nadd (nmul (nsub (Fin p1) (Fin cx)) (Fin S))
               (nmul (nsub (Fin p2) (Fin cy)) (Fin C)))
    with (Fin ((p1 - cx) * S + (p2 - cy) * C)).
  cbv zeta. rewrite axis_update. rewrite axis_update. reflexivity.
Qed.

(** The maximum safe scale of an image whose geometry is finite is the
    minimum of the bounds of its corners. *)
Lemma maxScaleFor_finite (cv : Canvas) (img : Image) (cx cy a : R) (d : num) :
  maxScaleFor cv img (mkFaceGeometry (mkNPoint (Fin cx) (Fin cy)) (Fin a) d)
  = spec_minimum
      (spec_bounds (IZR (Z.of_N (cwidth cv))) (IZR (Z.of_N (cheight cv)))
                   (IZR (Z.of_N (width img))) (IZR (Z.of_N (height img)))
                   cx cy a).
Proof.
  unfold maxScaleFor, corners, ofN. cbn [eyesCenter angle fold_left].
  change (nmul (Fin (IZR (Z.of_N (cwidth cv)))) (Fin (5 / 10)))
    with (Fin (IZR (Z.of_N (cwidth cv)) * (5 / 10))).
  change (nmul (Fin (IZR (Z.of_N (cheight cv)))) (Fin (4 / 10)))
    with (Fin (IZR (Z.of_N (cheight cv)) * (4 / 10))).
  change (ncos (nneg (Fin a))) with (Fin (cos (- a))).
  change (nsin (nneg (Fin a))) with (Fin (sin (- a))).
  rewrite !cornerStep_finite.
  rewrite <- !fold_left_app. rewrite fold_boundsStep, nmin_PInf_l.
  unfold spec_bounds, spec_corners, spec_rotated, cornerBounds.
  cbn [flat_map fst snd]. rewrite app_nil_r, <- !app_assoc. reflexivity.
Qed.

(** ** The global safe zoom *)

Lemma fold_itemStep (cv : Canvas) (items : list Item) (acc : num) :
  fold_left (itemStep cv) items acc = nmin acc (spec_minimumN (safeZooms cv items)).
Proof.
  revert acc. induction items as [| item items IH]; intros acc.
  - cbn. rewrite nmin_PInf_r. reflexivity.
  - cbn [fold_left safeZooms flat_map]. rewrite IH. unfold itemStep.
    destruct (detections item) as [det |].
    + cbn [app spec_minimumN fold_right]. rewrite nmin_assoc. reflexivity.
    + reflexivity.
Qed.

Lemma minSafeZoomOf_minimum (s : State) :
  minSafeZoomOf s = spec_minimumN (Fin 1 :: safeZooms (canvas s) (images s)).
Proof. unfold minSafeZoomOf. rewrite fold_itemStep. reflexivity. Qed.

(** ** Sample frames *)

Lemma getCentroid_pair (a b c d : R) :
  getCentroid [mkPoint a b; mkPoint c d]
  = mkNPoint (Fin ((a + c) / 2)) (Fin ((b + d) / 2)).
Proof.
  rewrite getCentroid_nonempty by discriminate. unfold spec_mean.
  cbn [map px py fold_right List.length]. f_equal; f_equal.
  - change (INR 2) with (1 + 1). lra.
  - change (INR 2) with (1 + 1). lra.
Qed.

(** Level eyes, the left one not to the right of the right one. *)
Lemma geometryOf_level (lx rx v : R) :
  lx <= rx ->
  geometryOf lx v rx v
  = mkFaceGeometry (mkNPoint (Fin ((lx + rx) / 2)) (Fin v)) (Fin 0) (Fin (rx - lx)).
Proof.
  intros Hle. unfold geometryOf. f_equal.
  - f_equal. f_equal. lra.
  - f_equal. unfold Ratan2. replace (v + - v) with 0 by lra.
    unfold Rltb. destruct (Rlt_dec 0 (rx + - lx)).
    + unfold Rdiv. rewrite Rmult_0_l. apply atan_0.
    + destruct (Rlt_dec (rx + - lx) 0); [exfalso; lra |].
      destruct (Rlt_dec 0 0); [exfalso; lra | reflexivity].
  - f_equal. replace ((rx + - lx) * (rx + - lx) + (v + - v) * (v + - v))
      with ((rx - lx) * (rx - lx)) by ring.
    apply sqrt_square. lra.
Qed.

Lemma faceGeometry_lmWide :
  faceGeometry lmWide
  = mkFaceGeometry (mkNPoint (Fin 500) (Fin 500)) (Fin 0) (Fin 200).
Proof.
  rewrite (faceGeometry_finite lmWide _ _ _ _ (getCentroid_pair _ _ _ _)
                               (getCentroid_pair _ _ _ _)).
  rewrite geometryOf_level by lra.
  f_equal; [f_equal |]; f_equal; lra.
Qed.

Lemma faceGeometry_lmNarrow :
  faceGeometry lmNarrow
  = mkFaceGeometry (mkNPoint (Fin 500) (Fin 500)) (Fin 0) (Fin 100).
Proof.
  rewrite (faceGeometry_finite lmNarrow _ _ _ _ (getCentroid_pair _ _ _ _)
                               (getCentroid_pair _ _ _ _)).
  rewrite geometryOf_level by lra.
  f_equal; [f_equal |]; f_equal; lra.
Qed.

Lemma faceGeometry_lmCoincident :
  faceGeometry lmCoincident
  = mkFaceGeometry (mkNPoint (Fin 500) (Fin 500)) (Fin 0) (Fin 0).
Proof.
  rewrite (faceGeometry_finite lmCoincident _ _ _ _ (getCentroid_pair _ _ _ _)
                               (getCentroid_pair _ _ _ _)).
  rewrite geometryOf_level by lra.
  f_equal; [f_equal |]; f_equal; lra.
Qed.

Lemma faceGeometry_lmEmptyLeft :
  faceGeometry lmEmptyLeft = mkFaceGeometry (mkNPoint NaN NaN) NaN NaN.
Proof.
  unfold faceGeometry, lmEmptyLeft. cbn [getLeftEye getRightEye].
  rewrite getCentroid_empty, getCentroid_pair. reflexivity.
Qed.

Lemma spec_minimum_is (l : list R) (m : R) :
  In m l -> (forall b, In b l -> m <= b) -> spec_minimum l = Fin m.
Proof.
  intros Hin Hmin.
  destruct (spec_minimum_shape l) as [[-> _] | (m' & -> & Hin' & Hmin')].
  - destruct Hin.
  - f_equal. specialize (Hmin m' Hin'). specialize (Hmin' m Hin). lra.
Qed.

Lemma cons_eq (A : Type) (a b : A) (l k : list A) : a = b -> l = k -> a :: l = b :: k.
Proof. intros -> ->. reflexivity. Qed.

(** Replace a list of closed arithmetic expressions by their values. *)
Ltac numerals vals :=
  match goal with
  | |- context [spec_minimum ?l] =>
      replace l with vals
        by (repeat (apply cons_eq; [field; lra |]); reflexivity)
  end.

(** Settle the minimum of a list of numerals. *)
Ltac min_of_numerals :=
  apply spec_minimum_is;
  [ cbn [In]; repeat (first [ left; reflexivity | right ])
  | let b := fresh "b" in
    let Hb := fresh "Hb" in
    intros b Hb; cbn [In] in Hb;
    repeat (destruct Hb as [<- | Hb]; [lra |]); contradiction ].

(** With a level eye line through (500, 500), a 1000 x 1000 image on a
    1000 x 1000 canvas can be scaled by at most 0.8. *)
Lemma maxScaleFor_centre_1000 (d : num) :
  maxScaleFor cv1000 img1000 (mkFaceGeometry (mkNPoint (Fin 500) (Fin 500)) (Fin 0) d)
  = Fin (4 / 5).
Proof.
  rewrite maxScaleFor_finite.
  unfold spec_bounds, spec_corners, spec_rotated, spec_axisBound.
  cbn [flat_map fst snd cv1000 img1000 cwidth cheight width height Z.of_N app optList].
  rewrite Ropp_0, cos_0, sin_0. decide_R. cbn [app].
  numerals [1; 4 / 5; 1; 4 / 5; 1; 6 / 5; 1; 6 / 5].
  min_of_numerals.
Qed.

(** ** Shape of the bounds *)

Lemma spec_axisBound_nonneg (extent target rot b : R) :
  0 <= target <= extent ->
  spec_axisBound extent target rot = Some b -> 0 <= b.
Proof.
  intros [Ht He]. unfold spec_axisBound, Rltb.
  destruct (Rlt_dec 0 rot) as [Hp | Hp].
  - intros E. injection E as <-. unfold Rdiv.
    apply Rmult_le_pos; [lra |]. left. apply Rinv_0_lt_compat. assumption.
  - destruct (Rlt_dec rot 0) as [Hn | Hn]; [| discriminate].
    intros E. injection E as <-. unfold Rdiv.
    pose proof (Rinv_lt_0_compat rot Hn) as Hinv.
    replace (- target * / rot) with (target * - / rot) by ring.
    apply Rmult_le_pos; lra.
Qed.

Lemma spec_axisBound_none (extent target rot : R) :
  spec_axisBound extent target rot = None -> rot = 0.
Proof.
  unfold spec_axisBound, Rltb.
  destruct (Rlt_dec 0 rot); [discriminate |].
  destruct (Rlt_dec rot 0); [discriminate |]. intros _. lra.
Qed.

Lemma optList_in (o : option R) (b : R) : In b (optList o) -> o = Some b.
Proof.
  destruct o as [c |]; cbn [optList In].
  - intros [-> | []]. reflexivity.
  - intros [].
Qed.

Lemma optList_nil (o : option R) : optList o = [] -> o = None.
Proof. destruct o; [discriminate | reflexivity]. Qed.

(** Every bound of an image is non-negative. *)
Lemma spec_bounds_nonneg (cw ch w h cx cy a b : R) :
  0 <= cw -> 0 <= ch -> In b (spec_bounds cw ch w h cx cy a) -> 0 <= b.
Proof.
  intros Hcw Hch Hin. unfold spec_bounds in Hin.
  apply in_flat_map in Hin. destruct Hin as (corner & _ & Hin).
  apply in_app_or in Hin. destruct Hin as [Hin | Hin]; apply optList_in in Hin.
  - eapply spec_axisBound_nonneg; [| exact Hin]. lra.
  - eapply spec_axisBound_nonneg; [| exact Hin]. lra.
Qed.

(** An image that is not of zero width has a bound. *)
Lemma spec_bounds_nonempty (cw ch w h cx cy a : R) :
  0 < w -> spec_bounds cw ch w h cx cy a <> [].
Proof.
  intros Hw Hnil. unfold spec_bounds, spec_corners in Hnil.
  cbn [flat_map] in Hnil.
  apply app_eq_nil in Hnil. destruct Hnil as [H1 Hnil].
  apply app_eq_nil in Hnil. destruct Hnil as [H2 _].
  apply app_eq_nil in H1. destruct H1 as [H1x H1y].
  apply app_eq_nil in H2. destruct H2 as [H2x H2y].
  apply optList_nil, spec_axisBound_none in H1x, H1y, H2x, H2y.
  unfold spec_rotated in *. cbn [fst snd] in *.
  pose proof (sin2_cos2 (- a)) as Hsc. unfold Rsqr in Hsc.
  set (C := cos (- a)) in *. set (S := sin (- a)) in *.
  assert (HC : w * C = 0) by lra.
  assert (HS : w * S = 0) by lra.
  assert (C = 0) by (apply Rmult_integral in HC; destruct HC; lra).
  assert (S = 0) by (apply Rmult_integral in HS; destruct HS; lra).
  subst S C. nra.
Qed.

(** [maxScaleForThisImage] depends on the eyes-center and the angle only. *)
Lemma maxScaleFor_ext (cv : Canvas) (img : Image) (g1 g2 : FaceGeometry) :
  eyesCenter g1 = eyesCenter g2 -> angle g1 = angle g2 ->
  maxScaleFor cv img g1 = maxScaleFor cv img g2.
Proof. intros Hc Ha. unfold maxScaleFor. rewrite Hc, Ha. reflexivity. Qed.

(** With a finite geometry the maximum safe scale is [+Infinity] or a
    non-negative real. *)
Lemma maxScaleFor_shape (cv : Canvas) (img : Image) (cx cy a : R) (d : num) :
  let g := mkFaceGeometry (mkNPoint (Fin cx) (Fin cy)) (Fin a) d in
  maxScaleFor cv img g = PInf
  \/ exists m, maxScaleFor cv img g = Fin m /\ 0 <= m.
Proof.
  intros g. unfold g. rewrite maxScaleFor_finite.
  match goal with
  | |- spec_minimum ?l = _ \/ _ =>
      destruct (spec_minimum_shape l) as [[_ ->] | (m & -> & Hin & _)]
  end.
  - left. reflexivity.
  - right. exists m. split; [reflexivity |].
    apply (spec_bounds_nonneg _ _ _ _ _ _ _ _
             (IZR_of_N_nonneg _) (IZR_of_N_nonneg _) Hin).
Qed.

(** An image that is not of zero width has a finite maximum safe scale. *)
Lemma maxScaleFor_bounded (cv : Canvas) (img : Image) (cx cy a : R) (d : num) :
  (0 < width img)%N ->
  exists m,
    maxScaleFor cv img (mkFaceGeometry (mkNPoint (Fin cx) (Fin cy)) (Fin a) d) = Fin m
    /\ 0 <= m.
Proof.
  intros Hw.
  destruct (maxScaleFor_shape cv img cx cy a d) as [HInf | Hfin]; [| exact Hfin].
  exfalso. rewrite maxScaleFor_finite in HInf.
  match type of HInf with
  | spec_minimum ?l = _ =>
      destruct (spec_minimum_shape l) as [[Hnil _] | (m & Hm & _)]
  end.
  - apply (spec_bounds_nonempty _ _ _ _ _ _ _ (IZR_of_N_pos _ Hw) Hnil).
  - rewrite Hm in HInf. discriminate.
Qed.

(** The safe zoom of a well-formed item: non-empty eye clusters, an image
    and a canvas that are not of zero width. *)
Lemma safeZoomFor_bounded (cv : Canvas) (img : Image) (lm : Landmarks) :
  getLeftEye lm <> [] -> getRightEye lm <> [] ->
  (0 < width img)%N -> (0 < cwidth cv)%N ->
  exists v, safeZoomFor cv img (faceGeometry lm) = Fin v /\ 0 <= v.
Proof.
  intros HL HR Hw Hcw.
  rewrite (faceGeometry_finite lm _ _ _ _ (getCentroid_nonempty _ HL)
                               (getCentroid_nonempty _ HR)).
  unfold safeZoomFor, geometryOf.
  match goal with
  | |- context [maxScaleFor cv img (mkFaceGeometry (mkNPoint (Fin ?cx) (Fin ?cy)) (Fin ?a) ?d)] =>
      destruct (maxScaleFor_bounded cv img cx cy a d Hw) as (m & -> & Hm)
  end.
  cbn [currentEyesDist]. unfold ofN, nmul, ndiv.
  pose proof (IZR_of_N_pos _ Hcw) as Hpos.
  rewrite Reqb_false by lra.
  eexists. split; [reflexivity |].
  unfold Rdiv. apply Rmult_le_pos.
  - apply Rmult_le_pos; [assumption | apply sqrt_pos].
  - left. apply Rinv_0_lt_compat. assumption.
Qed.

(** ** Rendering an item whose eye distance is zero or undefined *)

Lemma mmul_scale_one (m : Matrix) : mmul m (mkMatrix 1 0 0 1 0 0) = m.
Proof.
  destruct m. unfold mmul. cbn [ma mb mc md me mf]. f_equal; ring.
Qed.

(** Both eye centres on the same point: the scale is [+Infinity], the call
    to [scale] has no effect, and the image is painted as with scale 1 and
    angle 0. *)
Lemma drawAligned_coincident (cv : Canvas) (z : R) (item : Item) (lm : Landmarks)
    (c : Ctx) (ex ey : R) :
  getCentroid (getLeftEye lm) = mkNPoint (Fin ex) (Fin ey) ->
  getCentroid (getRightEye lm) = mkNPoint (Fin ex) (Fin ey) ->
  0 < IZR (Z.of_N (cwidth cv)) * z ->
  builtTransform (drawAligned cv (Fin z) item lm c)
  = Some (mmul (ctm c)
            (alignMatrix (IZR (Z.of_N (cwidth cv)) * (5 / 10))
                         (IZR (Z.of_N (cheight cv)) * (4 / 10)) 1 0 ex ey)).
Proof.
  intros HL HR Hpos. unfold drawAligned.
  rewrite (faceGeometry_finite lm ex ey ex ey HL HR).
  rewrite geometryOf_level by lra.
  unfold ofN. cbn [x y eyesCenter angle currentEyesDist].
  cbv beta iota zeta delta [nmul ndiv nneg inf_signed].
  rewrite (Reqb_true (ex - ex) 0) by lra.
  rewrite (Rltb_true 0 _ Hpos). cbv beta iota. ctx_unfold.
  unfold alignMatrix. rewrite (mmul_scale_one (mkMatrix 1 0 0 1 _ _)).
  rewrite !mmul_assoc. replace ((ex + ex) / 2) with ex by lra. reflexivity.
Qed.

(** An empty eye cluster: every Number derived from the landmarks is [NaN],
    and of the four transform calls only the first has an effect. *)
Lemma drawAligned_emptyCluster (cv : Canvas) (zm : num) (item : Item)
    (lm : Landmarks) (c : Ctx) :
  getLeftEye lm = [] \/ getRightEye lm = [] ->
  faceGeometry lm = mkFaceGeometry (mkNPoint NaN NaN) NaN NaN
  /\ builtTransform (drawAligned cv zm item lm c)
     = Some (mmul (ctm c)
               (mkMatrix 1 0 0 1 (IZR (Z.of_N (cwidth cv)) * (5 / 10))
                                 (IZR (Z.of_N (cheight cv)) * (4 / 10)))).
Proof.
  intros Hempty.
  assert (Hg : faceGeometry lm = mkFaceGeometry (mkNPoint NaN NaN) NaN NaN).
  { unfold faceGeometry. destruct Hempty as [-> | ->]; rewrite getCentroid_empty.
    - destruct (getCentroid (getRightEye lm)) as [[| | |] [| | |]]; reflexivity.
    - destruct (getCentroid (getLeftEye lm)) as [[| | |] [| | |]]; reflexivity. }
  split; [exact Hg |].
  unfold drawAligned. rewrite Hg. cbn [currentEyesDist angle eyesCenter x y].
  replace (ndiv (nmul (ofN (cwidth cv)) zm) NaN) with NaN
    by (destruct (nmul (ofN (cwidth cv)) zm); reflexivity).
  reflexivity.
Qed.

(** The centred placement of a 1000 x 1000 image on the 1000 x 1000 canvas:
    the image is painted under the matrix in force, over the whole canvas. *)
Lemma drawCentered_1000 (c : Ctx) :
  painted (drawCentered cv1000 itemNoFace c)
  = PImage img1000 (ctm c) 0 0 1000 1000 :: painted c.
Proof.
  unfold drawCentered, itemNoFace, cv1000, img1000.
  cbn [original width height cwidth cheight]. num_eval.
  replace (1000 / 1000) with 1 by lra. num_eval.
  unfold drawImage5, paint. cbn [painted].
  f_equal. f_equal; lra.
Qed.

(** ** Minimum of non-negative safe zooms *)

Lemma spec_minimumN_shape (l : list num) :
  (forall v, In v l -> finNonneg v) -> l <> [] ->
  exists m, spec_minimumN l = Fin m /\ 0 <= m /\ forall r, In (Fin r) l -> m <= r.
Proof.
  induction l as [| v rest IH]; intros Hall Hne; [contradiction |].
  destruct (Hall v (or_introl eq_refl)) as (r & -> & Hr).
  destruct rest as [| v' rest'].
  - exists r. cbn. split; [reflexivity |]. split; [assumption |].
    intros r' [E | []]. injection E as <-. lra.
  - destruct IH as (m & Hm & Hm0 & Hmin).
    + intros u Hu. apply Hall. right. exact Hu.
    + discriminate.
    + change (spec_minimumN (Fin r :: v' :: rest'))
        with (nmin (Fin r) (spec_minimumN (v' :: rest'))).
      rewrite Hm. num_unfold. unfold Rltb. destruct (Rlt_dec m r) as [Hlt | Hge].
      * exists m. split; [reflexivity |]. split; [assumption |].
        intros r' [E | Hin]; [injection E as <-; lra | apply Hmin; exact Hin].
      * exists r. split; [reflexivity |]. split; [assumption |].
        intros r' [E | Hin]; [injection E as <-; lra |].
        specialize (Hmin r' Hin). lra.
Qed.

Lemma in_safeZooms (cv : Canvas) (items : list Item) (v : num) :
  In v (safeZooms cv items) <->
  exists item det,
    In item items /\ detections item = Some det
    /\ v = safeZoomFor cv (original item) (faceGeometry (landmarks det)).
Proof.
  unfold safeZooms. rewrite in_flat_map. split.
  - intros (item & Hin & Hv). destruct (detections item) as [det |] eqn:E.
    + destruct Hv as [<- | []]. exists item, det. auto.
    + destruct Hv.
  - intros (item & det & Hin & Hdet & ->). exists item. split; [assumption |].
    rewrite Hdet. left. reflexivity.
Qed.

(** ** From [minSafeZoom] to the stored zoom *)

Lemma clampedZoomOf_nonpositive (z : R) :
  z <= 0 -> clampedZoomOf (Fin z) = Fin (1 / 10).
Proof.
  intros Hz. unfold clampedZoomOf, finalZoomOf. num_unfold.
  pose proof (Zfloor_bound (z * (95 / 100) * 100)) as [Hfl _].
  rewrite (Reqb_false 100 0) by lra.
  rewrite (Rltb_true (IZR (Zfloor (z * (95 / 100) * 100)) / 100) 1) by lra.
  rewrite Rltb_false by lra. reflexivity.
Qed.

Lemma clampedZoomOf_one : clampedZoomOf (Fin 1) = Fin (95 / 100).
Proof.
  unfold clampedZoomOf, finalZoomOf. num_unfold.
  rewrite (Zfloor_eq 95) by lra. num_eval. reflexivity.
Qed.

Lemma clampedZoomOf_spec (z : num) : clampedZoomOf z = spec_returnedZoom z.
Proof.
  unfold clampedZoomOf, spec_returnedZoom. rewrite clamp_max_min. reflexivity.
Qed.

(** ** Auto-fit on the sample frames *)

Lemma safeZoomFor_wide :
  safeZoomFor cv1000 img1000 (faceGeometry lmWide) = Fin (4 / 25).
Proof.
  rewrite faceGeometry_lmWide. unfold safeZoomFor.
  rewrite maxScaleFor_centre_1000. cbn [currentEyesDist cv1000 cwidth].
  num_eval. f_equal. lra.
Qed.

Lemma safeZoomFor_narrow :
  safeZoomFor cv1000 img1000 (faceGeometry lmNarrow) = Fin (2 / 25).
Proof.
  rewrite faceGeometry_lmNarrow. unfold safeZoomFor.
  rewrite maxScaleFor_centre_1000. cbn [currentEyesDist cv1000 cwidth].
  num_eval. f_equal. lra.
Qed.

Lemma safeZoomFor_coincident :
  safeZoomFor cv1000 img1000 (faceGeometry lmCoincident) = Fin 0.
Proof.
  rewrite faceGeometry_lmCoincident. unfold safeZoomFor.
  rewrite maxScaleFor_centre_1000. cbn [currentEyesDist cv1000 cwidth].
  num_eval. f_equal. lra.
Qed.

Lemma minSafeZoomOf_wide : minSafeZoomOf (stateOf [itemWide]) = Fin (4 / 25).
Proof.
  unfold minSafeZoomOf, stateOf, itemStep.
  cbn [images canvas fold_left itemWide detections original landmarks].
  rewrite safeZoomFor_wide. num_eval. reflexivity.
Qed.

Lemma minSafeZoomOf_coincident : minSafeZoomOf (stateOf [itemCoincident]) = Fin 0.
Proof.
  unfold minSafeZoomOf, stateOf, itemStep.
  cbn [images canvas fold_left itemCoincident detections original landmarks].
  rewrite safeZoomFor_coincident. num_eval. reflexivity.
Qed.

Lemma minSafeZoomOf_wide_coincident :
  minSafeZoomOf (stateOf [itemWide; itemCoincident]) = Fin 0.
Proof.
  unfold minSafeZoomOf, stateOf, itemStep.
  cbn [images canvas fold_left itemWide itemCoincident detections original landmarks].
  rewrite safeZoomFor_wide, safeZoomFor_coincident. num_eval. reflexivity.
Qed.

Lemma minSafeZoomOf_noFace : minSafeZoomOf (stateOf [itemNoFace]) = Fin 1.
Proof. reflexivity. Qed.

Lemma clampedZoomOf_wide : clampedZoomOf (Fin (4 / 25)) = Fin (15 / 100).
Proof.
  unfold clampedZoomOf, finalZoomOf. num_unfold.
  rewrite (Zfloor_eq 15) by lra. num_eval. reflexivity.
Qed.

(** ** The transformation matrix between two frames *)

Lemma saved_translate (a b : num) (c : Ctx) : saved (translate a b c) = saved c.
Proof. destruct a, b; reflexivity. Qed.

Lemma saved_scale (a b : num) (c : Ctx) : saved (scale a b c) = saved c.
Proof. destruct a, b; reflexivity. Qed.

Lemma saved_rotate (a : num) (c : Ctx) : saved (rotate a c) = saved c.
Proof. destruct a; reflexivity. Qed.

Lemma saved_drawImage3 (img : Image) (a b : num) (c : Ctx) :
  saved (drawImage3 img a b c) = saved c.
Proof. destruct a, b; reflexivity. Qed.

Lemma ctm_drawImage5 (img : Image) (a b w h : num) (c : Ctx) :
  ctm (drawImage5 img a b w h c) = ctm c.
Proof. destruct a, b, w, h; reflexivity. Qed.

Lemma ctm_fillRect (a b w h : num) (c : Ctx) : ctm (fillRect a b w h c) = ctm c.
Proof. destruct a, b, w, h; reflexivity. Qed.

Lemma ctm_restore (c : Ctx) (m : Matrix) (s : string) (rest : list (Matrix * string)) :
  saved c = (m, s) :: rest -> ctm (restore c) = m.
Proof. intros H. unfold restore. rewrite H. reflexivity. Qed.

(** [save] ... [restore] brackets the aligned branch: the matrix in force
    afterwards is the one in force before. *)
Lemma ctm_drawAligned (cv : Canvas) (zm : num) (item : Item) (lm : Landmarks)
    (c : Ctx) :
  ctm (drawAligned cv zm item lm c) = ctm c.
Proof.
  unfold drawAligned. cbv zeta.
  apply (ctm_restore _ (ctm c) (fillStyle c) (saved c)).
  rewrite saved_drawImage3, saved_translate, saved_rotate, saved_scale,
    saved_translate.
  reflexivity.
Qed.

Lemma renderFrame_ctm (i : nat) (s : State) :
  ctm (ctx (renderFrame i s)) = ctm (ctx s).
Proof.
  unfold renderFrame. destruct (nth_error (images s) i) as [item |]; [| reflexivity].
  destruct (alignEyes s), (detections item); cbn [ctx setCtx];
    unfold drawCentered;
    rewrite ?ctm_drawAligned, ?ctm_drawImage5, ?ctm_fillRect; reflexivity.
Qed.

Lemma autoFitZoom_ctm (w : World) :
  ctm (ctx (state (autoFitZoom w))) = ctm (ctx (state w)).
Proof.
  unfold autoFitZoom. destruct (images (state w)); [reflexivity |].
  cbn [isPlaying setZoom]. destruct (isPlaying (state w)); cbn [state].
  - reflexivity.
  - rewrite renderFrame_ctm. reflexivity.
Qed.

(** ** Order on Numbers *)

Ltac num_cases :=
  num_unfold; unfold Rltb;
  repeat match goal with
  | |- context [Rlt_dec ?p ?q] => destruct (Rlt_dec p q); num_unfold; unfold Rltb
  | H : context [Rlt_dec ?p ?q] |- _ => destruct (Rlt_dec p q); num_unfold; unfold Rltb
  end;
  try reflexivity; try discriminate; try congruence; try (exfalso; lra);
  try (f_equal; lra).

Lemma nmin_comm (a b : num) : nmin a b = nmin b a.
Proof. destruct a as [u | | |], b as [v | | |]; try reflexivity; num_cases. Qed.

Lemma nmin_lower_l (a b : num) : nmin a b <> NaN -> nle (nmin a b) a = true.
Proof.
  destruct a as [u | | |], b as [v | | |]; intros H; try reflexivity;
    try (exfalso; apply H; reflexivity); revert H; num_cases.
Qed.

Lemma nmin_lower_r (a b : num) : nmin a b <> NaN -> nle (nmin a b) b = true.
Proof. rewrite nmin_comm. apply nmin_lower_l. Qed.

Lemma nmin_not_NaN (a b : num) : nmin a b <> NaN -> a <> NaN /\ b <> NaN.
Proof.
  destruct a, b; intros H; split; try discriminate; exfalso; apply H; reflexivity.
Qed.

Lemma nle_trans (a b c : num) : nle a b = true -> nle b c = true -> nle a c = true.
Proof.
  destruct a as [u | | |], b as [v | | |], c as [w | | |];
    try reflexivity; try discriminate; num_unfold; unfold Rltb;
    repeat match goal with
    | |- context [Rlt_dec ?p ?q] => destruct (Rlt_dec p q)
    end; cbn [negb]; intros; try reflexivity; try discriminate; exfalso; lra.
Qed.

(** Unless it is [NaN], the minimum of a list of Numbers is below each of
    them. *)
Lemma spec_minimumN_lower (l : list num) :
  spec_minimumN l <> NaN -> forall v, In v l -> nle (spec_minimumN l) v = true.
Proof.
  induction l as [| v0 rest IH]; intros Hn v Hv; [destruct Hv |].
  change (spec_minimumN (v0 :: rest)) with (nmin v0 (spec_minimumN rest)) in *.
  destruct (nmin_not_NaN _ _ Hn) as [_ Hrest].
  destruct Hv as [<- | Hv].
  - apply nmin_lower_l. exact Hn.
  - apply (nle_trans _ (spec_minimumN rest)).
    + apply nmin_lower_r. exact Hn.
    + apply IH; assumption.
Qed.

(** ** Bounds that are zero *)

(** The bound of an axis whose target lies strictly inside the extent is
    positive. *)
Lemma spec_axisBound_pos (extent target rot b : R) :
  0 < target < extent ->
  spec_axisBound extent target rot = Some b -> 0 < b.
Proof.
  intros [Ht He]. unfold spec_axisBound, Rltb.
  destruct (Rlt_dec 0 rot) as [Hp | Hp].
  - intros E. injection E as <-. unfold Rdiv.
    apply Rmult_lt_0_compat; [lra |]. apply Rinv_0_lt_compat. assumption.
  - destruct (Rlt_dec rot 0) as [Hn | Hn]; [| discriminate].
    intros E. injection E as <-. unfold Rdiv.
    pose proof (Rinv_lt_0_compat rot Hn) as Hinv.
    replace (- target * / rot) with (target * - / rot) by ring.
    apply Rmult_lt_0_compat; lra.
Qed.

(** On a canvas of positive width and height every bound is positive. *)
Lemma spec_bounds_pos (cw ch w h cx cy a b : R) :
  0 < cw -> 0 < ch -> In b (spec_bounds cw ch w h cx cy a) -> 0 < b.
Proof.
  intros Hcw Hch Hin. unfold spec_bounds in Hin.
  apply in_flat_map in Hin. destruct Hin as (corner & _ & Hin).
  apply in_app_or in Hin. destruct Hin as [Hin | Hin]; apply optList_in in Hin.
  - eapply spec_axisBound_pos; [| exact Hin]. lra.
  - eapply spec_axisBound_pos; [| exact Hin]. lra.
Qed.

(** Without an eyes-center no corner yields a bound. *)
Lemma maxScaleFor_no_centre (cv : Canvas) (img : Image) (a d : num) :
  maxScaleFor cv img (mkFaceGeometry (mkNPoint NaN NaN) a d) = PInf.
Proof.
  unfold maxScaleFor, corners, cornerStep, ofN.
  cbn [eyesCenter angle fold_left x y].
  destruct (ncos (nneg a)), (nsin (nneg a)); reflexivity.
Qed.

(** A finite maximum safe scale comes from two non-empty eye clusters. *)
Lemma maxScaleFor_Fin_centroids (cv : Canvas) (img : Image) (lm : Landmarks) (b : R) :
  maxScaleFor cv img (faceGeometry lm) = Fin b ->
  getLeftEye lm <> [] /\ getRightEye lm <> [].
Proof.
  intros Hb.
  destruct (getCentroid_cases (getLeftEye lm)) as [(lx & ly & HL & HLne) | [HL _]];
  destruct (getCentroid_cases (getRightEye lm)) as [(rx & ry & HR & HRne) | [HR _]].
  - split; assumption.
  - exfalso. unfold faceGeometry in Hb. rewrite HL, HR in Hb. cbn [x y] in Hb.
    change (ndiv (nadd (Fin lx) NaN) (Fin 2)) with NaN in Hb.
    change (ndiv (nadd (Fin ly) NaN) (Fin 2)) with NaN in Hb.
    rewrite maxScaleFor_no_centre in Hb. discriminate.
  - exfalso. unfold faceGeometry in Hb. rewrite HL, HR in Hb. cbn [x y] in Hb.
    change (ndiv (nadd NaN (Fin rx)) (Fin 2)) with NaN in Hb.
    change (ndiv (nadd NaN (Fin ry)) (Fin 2)) with NaN in Hb.
    rewrite maxScaleFor_no_centre in Hb. discriminate.
  - exfalso. unfold faceGeometry in Hb. rewrite HL, HR in Hb. cbn [x y] in Hb.
    change (ndiv (nadd NaN NaN) (Fin 2)) with NaN in Hb.
    rewrite maxScaleFor_no_centre in Hb. discriminate.
Qed.

(** A maximum safe scale is never negative; it is zero only on a canvas of
    zero width or zero height. *)
Lemma maxScaleFor_nonpositive (cv : Canvas) (img : Image) (lm : Landmarks) (b : R) :
  maxScaleFor cv img (faceGeometry lm) = Fin b -> b <= 0 ->
  b = 0 /\ (cwidth cv = 0%N \/ cheight cv = 0%N).
Proof.
  intros Hb Hle.
  destruct (maxScaleFor_Fin_centroids _ _ _ _ Hb) as [HL HR].
  rewrite (faceGeometry_finite lm _ _ _ _ (getCentroid_nonempty _ HL)
                               (getCentroid_nonempty _ HR)) in Hb.
  unfold geometryOf in Hb. rewrite maxScaleFor_finite in Hb.
  match type of Hb with
  | spec_minimum ?l = _ =>
      destruct (spec_minimum_shape l) as [[_ E] | (m & E & Hin & _)];
        rewrite E in Hb; [discriminate |]
  end.
  injection Hb as ->.
  pose proof (spec_bounds_nonneg _ _ _ _ _ _ _ _
                (IZR_of_N_nonneg _) (IZR_of_N_nonneg _) Hin) as H0.
  split; [lra |].
  destruct (N.eq_dec (cwidth cv) 0) as [| Hcw]; [left; assumption |].
  destruct (N.eq_dec (cheight cv) 0) as [| Hch]; [right; assumption |].
  exfalso.
  pose proof (spec_bounds_pos _ _ _ _ _ _ _ _
                (IZR_of_N_pos (cwidth cv) ltac:(lia))
                (IZR_of_N_pos (cheight cv) ltac:(lia)) Hin).
  lra.
Qed.

(** The safe zoom of an item whose maximum safe scale is zero. *)
Lemma safeZoomFor_zero_bound (cv : Canvas) (img : Image) (lm : Landmarks) :
  maxScaleFor cv img (faceGeometry lm) = Fin 0 ->
  safeZoomFor cv img (faceGeometry lm)
  = if N.eqb (cwidth cv) 0 then NaN else Fin 0.
Proof.
  intros Hb. unfold safeZoomFor. rewrite Hb.
  destruct (maxScaleFor_Fin_centroids _ _ _ _ Hb) as [HL HR].
  rewrite (faceGeometry_finite lm _ _ _ _ (getCentroid_nonempty _ HL)
                               (getCentroid_nonempty _ HR)).
  unfold geometryOf. cbn [currentEyesDist]. unfold nmul, ofN, ndiv.
  rewrite Rmult_0_l.
  destruct (N.eqb_spec (cwidth cv) 0) as [E | E].
  - rewrite E. cbn [Z.of_N]. rewrite Reqb_true by reflexivity.
    unfold inf_signed. rewrite !Rltb_false by lra. reflexivity.
  - rewrite Reqb_false by (pose proof (IZR_of_N_pos (cwidth cv) ltac:(lia)); lra).
    f_equal. unfold Rdiv. ring.
Qed.

Lemma spec_minimumN_NaN (l : list num) : In NaN l -> spec_minimumN l = NaN.
Proof.
  induction l as [| v rest IH]; intros Hin; [destruct Hin |].
  change (spec_minimumN (v :: rest)) with (nmin v (spec_minimumN rest)).
  destruct Hin as [-> | Hin]; [reflexivity |].
  rewrite (IH Hin). destruct v; reflexivity.
Qed.

Lemma clampedZoomOf_NaN : clampedZoomOf NaN = NaN.
Proof. reflexivity. Qed.

Lemma clampedZoomOf_NInf : clampedZoomOf NInf = Fin (1 / 10).
Proof. unfold clampedZoomOf, finalZoomOf. num_eval. reflexivity. Qed.

(** What [autoFitZoom] stores when an item has a zero maximum safe scale. *)
Lemma zero_bound_stored_zoom (w : World) (item : Item) (det : Detections) :
  In item (images (state w)) ->
  detections item = Some det ->
  maxScaleFor (canvas (state w)) (original item) (faceGeometry (landmarks det)) = Fin 0 ->
  let z := zoom (state (autoFitZoom w)) in
  (z = Fin (1 / 10) \/ z = NaN)
  /\ (cwidth (canvas (state w)) = 0%N -> z = NaN)
  /\ (minSafeZoomOf (state w) <> NaN -> z = Fin (1 / 10)).
Proof.
  intros Hin Hdet Hb z.
  assert (Hne : images (state w) <> []) by (intros E; rewrite E in Hin; destruct Hin).
  assert (Hz : z = clampedZoomOf (minSafeZoomOf (state w)))
    by (apply autoFitZoom_zoom; exact Hne).
  pose proof (safeZoomFor_zero_bound _ _ _ Hb) as Hsz.
  assert (Hmem : In (safeZoomFor (canvas (state w)) (original item)
                                 (faceGeometry (landmarks det)))
                    (Fin 1 :: safeZooms (canvas (state w)) (images (state w)))).
  { right. apply in_safeZooms. exists item, det. auto. }
  rewrite Hsz in Hmem.
  assert (Hfin : minSafeZoomOf (state w) <> NaN -> z = Fin (1 / 10)).
  { intros Hn. rewrite Hz. rewrite minSafeZoomOf_minimum in *.
    pose proof (spec_minimumN_lower _ Hn _ Hmem) as Hle.
    destruct (N.eqb (cwidth (canvas (state w))) 0).
    - destruct (spec_minimumN _); discriminate.
    - destruct (spec_minimumN _) as [m | | |].
      + apply clampedZoomOf_nonpositive. revert Hle. num_cases.
      + discriminate.
      + apply clampedZoomOf_NInf.
      + contradiction. }
  split; [| split].
  - destruct (minSafeZoomOf (state w)) as [m | | |] eqn:E.
    + left. apply Hfin. discriminate.
    + left. apply Hfin. discriminate.
    + left. apply Hfin. discriminate.
    + right. rewrite Hz. reflexivity.
  - intros Hcw. rewrite Hcw in Hmem. cbn [N.eqb] in Hmem.
    rewrite Hz, minSafeZoomOf_minimum, (spec_minimumN_NaN _ Hmem). reflexivity.
  - exact Hfin.
Qed.

(** ** A canvas of zero height or zero width *)

Lemma maxScaleFor_flat : maxScaleFor cvFlat img1000 (faceGeometry lmWide) = Fin 0.
Proof.
  rewrite faceGeometry_lmWide, maxScaleFor_finite.
  unfold spec_bounds, spec_corners, spec_rotated, spec_axisBound.
  cbn [flat_map fst snd cvFlat img1000 cwidth cheight width height Z.of_N app optList].
  rewrite Ropp_0, cos_0, sin_0. decide_R. cbn [app].
  numerals [1; 0; 1; 0; 1; 0; 1; 0].
  min_of_numerals.
Qed.

Lemma maxScaleFor_thin : maxScaleFor cvThin img1000 (faceGeometry lmWide) = Fin 0.
Proof.
  rewrite faceGeometry_lmWide, maxScaleFor_finite.
  unfold spec_bounds, spec_corners, spec_rotated, spec_axisBound.
  cbn [flat_map fst snd cvThin img1000 cwidth cheight width height Z.of_N app optList].
  rewrite Ropp_0, cos_0, sin_0. decide_R. cbn [app].
  numerals [0; 4 / 5; 0; 4 / 5; 0; 6 / 5; 0; 6 / 5].
  min_of_numerals.
Qed.

(** ** Rounding to binary64 *)

Section Rounding.

Local Open Scope Z_scope.

Lemma shr_1_m mrs : 0 <= shr_m mrs -> shr_m (shr_1 mrs) = shr_m mrs / 2.
Proof.
  destruct mrs as [m r s]; cbn [shr_m]. intros H.
  rewrite <- Z.div2_div.
  destruct m as [|[p|p|]|p]; try reflexivity. lia.
Qed.

Lemma iter_shr_m p : forall mrs, 0 <= shr_m mrs ->
  shr_m (iter_pos shr_1 p mrs) = shr_m mrs / 2 ^ Zpos p.
Proof.
  assert (P2 : forall q, 0 < 2 ^ Zpos q) by (intros; apply Z.pow_pos_nonneg; lia).
  induction p as [p IH|p IH|]; intros mrs H; cbn [iter_pos].
  - assert (H1 : 0 <= shr_m (shr_1 mrs)).
    { rewrite shr_1_m by exact H. apply Z.div_pos; lia. }
    assert (H2 : 0 <= shr_m (iter_pos shr_1 p (shr_1 mrs))).
    { rewrite IH by exact H1. apply Z.div_pos; [lia | apply P2]. }
    rewrite IH by exact H2. rewrite IH by exact H1. rewrite shr_1_m by exact H.
    rewrite !Z.div_div by (try lia; try apply P2; apply Z.mul_pos_pos; try lia; apply P2).
    f_equal. rewrite <- !Z.pow_add_r, <- (Z.pow_succ_r 2) by lia. f_equal. lia.
  - assert (H2 : 0 <= shr_m (iter_pos shr_1 p mrs)).
    { rewrite IH by exact H. apply Z.div_pos; [lia | apply P2]. }
    rewrite IH by exact H2. rewrite IH by exact H.
    rewrite !Z.div_div by (try lia; try apply P2).
    f_equal. rewrite <- Z.pow_add_r by lia. f_equal. lia.
  - rewrite shr_1_m by exact H. reflexivity.
Qed.

Lemma shr_m_shr mrs e n : 0 <= shr_m mrs ->
  shr_m (fst (shr mrs e n)) = shr_m mrs / 2 ^ Z.max 0 n
  /\ snd (shr mrs e n) = e + Z.max 0 n.
Proof.
  intros H. destruct n as [|p|p]; cbn [shr fst snd].
  - rewrite Z.max_l, Z.pow_0_r, Z.div_1_r by lia. split; [reflexivity | lia].
  - rewrite Z.max_r by lia. split; [apply iter_shr_m; exact H | reflexivity].
  - rewrite Z.max_l, Z.pow_0_r, Z.div_1_r by lia. split; [reflexivity | lia].
Qed.

Lemma digits2_pos_bounds p :
  2 ^ (Zpos (digits2_pos p) - 1) <= Zpos p < 2 ^ Zpos (digits2_pos p).
Proof.
  induction p as [p IH|p IH|]; cbn [digits2_pos].
  - rewrite Pos2Z.inj_succ. replace (Z.succ (Zpos (digits2_pos p)) - 1) with (Zpos (digits2_pos p)) by lia.
    rewrite Z.pow_succ_r by lia.
    replace (Zpos (digits2_pos p)) with (Z.succ (Zpos (digits2_pos p) - 1)) at 1 by lia.
    rewrite Z.pow_succ_r by lia. lia.
  - rewrite Pos2Z.inj_succ. replace (Z.succ (Zpos (digits2_pos p)) - 1) with (Zpos (digits2_pos p)) by lia.
    rewrite Z.pow_succ_r by lia.
    replace (Zpos (digits2_pos p)) with (Z.succ (Zpos (digits2_pos p) - 1)) at 1 by lia.
    rewrite Z.pow_succ_r by lia. lia.
  - cbn. lia.
Qed.

Lemma Zdigits2_bounds m : 0 < m ->
  2 ^ (Zdigits2 m - 1) <= m < 2 ^ Zdigits2 m.
Proof. destruct m; try lia. intros _. apply digits2_pos_bounds. Qed.

Lemma Zdigits2_upper m d : 0 <= d -> 0 <= m < 2 ^ d -> Zdigits2 m <= d.
Proof.
  intros Hd [H0 H]. destruct (Z.eq_dec m 0) as [->|Hm]; [cbn; lia|].
  destruct (Zdigits2_bounds m ltac:(lia)) as [Hl _].
  destruct (Z_le_gt_dec (Zdigits2 m) d) as [|Hgt]; [assumption|].
  assert (2 ^ d <= 2 ^ (Zdigits2 m - 1)) by (apply Z.pow_le_mono_r; lia). lia.
Qed.

Lemma round_nearest_even_cases m l :
  round_nearest_even m l = m \/ round_nearest_even m l = m + 1.
Proof.
  destruct l as [|[]]; cbn; auto. destruct (Z.even m); auto.
Qed.

(** Rounding a positive integer mantissa. *)
Lemma fexp_eq e : fexp B64.prec B64.emax e = Z.max (e - 53) (-1074).
Proof. reflexivity. Qed.

Lemma binary_round_aux_packed s m e l :
  binary_round_aux B64.prec B64.emax s m e l
  = let '(mrs', e') := shr_fexp B64.prec B64.emax m e l in
    let '(mrs'', e'') :=
      shr_fexp B64.prec B64.emax (round_nearest_even (shr_m mrs') (loc_of_shr_record mrs'))
               e' loc_Exact in
    B64.packed s (shr_m mrs'') e''.
Proof. reflexivity. Qed.

Lemma binary_round_aux_exact s (mx : positive) (ex : Z) :
  let k := Z.max 0 (fexp B64.prec B64.emax (Zpos (digits2_pos mx) + ex) - ex) in
  exists m1 m2 e2,
    binary_round_aux B64.prec B64.emax s (Zpos mx) ex loc_Exact = B64.packed s m2 e2
    /\ (m1 = Zpos mx / 2 ^ k \/ m1 = Zpos mx / 2 ^ k + 1)
    /\ (k = 0 -> m1 = Zpos mx)
    /\ ((m2 = m1 /\ e2 = ex + k) \/ (m1 = 2 * m2 /\ e2 = ex + k + 1)).
Proof.
  intros k. rewrite binary_round_aux_packed.
  set (d := Zpos (digits2_pos mx)) in *.
  assert (Hd : 2 ^ (d - 1) <= Zpos mx < 2 ^ d) by apply digits2_pos_bounds.
  unfold shr_fexp at 1. cbn [Zdigits2 shr_record_of_loc]. fold d.
  set (n := fexp B64.prec B64.emax (d + ex) - ex) in *.
  destruct (Z_le_gt_dec n 0) as [Hn | Hn].
  - (* no shift: the product is exact *)
    assert (Hk : k = 0) by (unfold k; lia).
    assert (E : shr (Build_shr_record (Zpos mx) false false) ex n
                = (Build_shr_record (Zpos mx) false false, ex)).
    { destruct n; try lia; reflexivity. }
    rewrite E. cbn [shr_m loc_of_shr_record round_nearest_even].
    unfold shr_fexp. cbn [Zdigits2 shr_record_of_loc]. fold d. fold n. rewrite E.
    exists (Zpos mx), (Zpos mx), ex. cbn [shr_m].
    split; [reflexivity |]. rewrite Hk, Z.pow_0_r, Z.div_1_r.
    split; [left; reflexivity |]. split; [reflexivity |]. left. split; [reflexivity | lia].
  - assert (Hk : k = n) by (unfold k; lia).
    destruct (shr_m_shr (Build_shr_record (Zpos mx) false false) ex n) as [Hm He];
      [cbn; lia |].
    rewrite Z.max_r in Hm, He by lia. cbn [shr_m] in Hm.
    destruct (shr _ ex n) as [mrs' e'] eqn:E1. cbn [fst snd] in Hm, He.
    set (m1 := round_nearest_even (shr_m mrs') (loc_of_shr_record mrs')).
    assert (Hm1 : m1 = Zpos mx / 2 ^ n \/ m1 = Zpos mx / 2 ^ n + 1).
    { unfold m1. rewrite <- Hm. apply round_nearest_even_cases. }
    assert (Hp : 0 < 2 ^ n) by (apply Z.pow_pos_nonneg; lia).
    assert (Hq0 : 0 <= Zpos mx / 2 ^ n) by (apply Z.div_pos; lia).
    assert (Hq : Zpos mx / 2 ^ n < 2 ^ 53).
    { apply Z.div_lt_upper_bound; [exact Hp |].
      rewrite <- Z.pow_add_r by lia.
      apply Z.lt_le_trans with (2 ^ d); [apply Hd |].
      apply Z.pow_le_mono_r; [lia |]. unfold n. rewrite fexp_eq. lia. }
    assert (He' : -1074 <= e').
    { rewrite He. unfold n. rewrite fexp_eq. lia. }
    unfold shr_fexp. cbn [shr_record_of_loc].
    set (n2 := fexp B64.prec B64.emax (Zdigits2 m1 + e') - e').
    destruct (Z.eq_dec m1 (2 ^ 53)) as [Htop | Htop].
    + (* the mantissa carried into a 54th bit: one more exact shift *)
      assert (En2 : n2 = 1).
      { unfold n2. rewrite Htop, fexp_eq. cbn [Zdigits2 digits2_pos Z.pow Z.pow_pos Pos.iter Z.mul Pos.mul Pos.succ]. lia. }
      rewrite En2. exists m1, (2 ^ 52), (ex + k + 1).
      cbn [shr iter_pos]. rewrite Hk.
      split; [rewrite Htop, He; reflexivity |].
      split; [exact Hm1 |]. split; [lia |].
      right. split; [rewrite Htop; reflexivity | reflexivity].
    + assert (Hlt : 0 <= m1 < 2 ^ 53) by lia.
      assert (Hn2 : n2 <= 0).
      { unfold n2. rewrite fexp_eq.
        pose proof (Zdigits2_upper m1 53 ltac:(lia) Hlt). lia. }
      assert (E : shr (Build_shr_record m1 false false) e' n2
                  = (Build_shr_record m1 false false, e')).
      { destruct n2; try lia; reflexivity. }
      rewrite E. cbn [shr_m]. exists m1, m1, e'. rewrite Hk.
      split; [reflexivity |]. split; [exact Hm1 |]. split; [lia |].
      left. split; [reflexivity | exact He].
Qed.


End Rounding.

Lemma pow2_pos (e : Z) : 0 < powerRZ 2 e.
Proof. apply powerRZ_lt. lra. Qed.

Lemma pow2_add (a b : Z) : powerRZ 2 (a + b) = powerRZ 2 a * powerRZ 2 b.
Proof. apply powerRZ_add. lra. Qed.

Lemma pow2_IZR (k : Z) : (0 <= k)%Z -> IZR (2 ^ k) = powerRZ 2 k.
Proof.
  intros Hk. rewrite <- (Z2Nat.id k Hk) at 1.
  rewrite <- pow_IZR. rewrite pow_powerRZ. rewrite Z2Nat.id by exact Hk. reflexivity.
Qed.

Lemma pow2_le (a b : Z) : (a <= b)%Z -> powerRZ 2 a <= powerRZ 2 b.
Proof.
  intros H. replace b with (a + (b - a))%Z by lia. rewrite pow2_add.
  rewrite <- (Rmult_1_r (powerRZ 2 a)) at 1.
  apply Rmult_le_compat_l; [left; apply pow2_pos |].
  rewrite <- pow2_IZR by lia. apply IZR_le.
  pose proof (Z.pow_pos_nonneg 2 (b - a)). lia.
Qed.

Lemma Rabs_bound (a b : R) : Rabs a <= b -> - b <= a <= b.
Proof.
  intros H. pose proof (Rle_abs a). pose proof (Rle_abs (- a)) as H'.
  rewrite Rabs_Ropp in H'. lra.
Qed.

Lemma F2R_mul (ma ea mb eb : Z) :
  B64.F2R (ma * mb) (ea + eb) = B64.F2R ma ea * B64.F2R mb eb.
Proof. unfold B64.F2R. rewrite mult_IZR, pow2_add. ring. Qed.

(** The value of a rounded product of two positive numbers, and how far it
    is from the exact product. *)
Lemma mul_value (ma mb : positive) (ea eb : Z) :
  let x := B64.F2R (Zpos ma) ea * B64.F2R (Zpos mb) eb in
  exists m e,
    SFmul B64.prec B64.emax (S754_finite false ma ea) (S754_finite false mb eb)
    = B64.packed false m e
    /\ (0 <= m)%Z
    /\ - (x * powerRZ 2 (-52) + powerRZ 2 (-1074)) <= B64.F2R m e - x
       <= x * powerRZ 2 (-52) + powerRZ 2 (-1074).
Proof.
  intros x. cbn [SFmul xorb].
  destruct (binary_round_aux_exact false (ma * mb) (ea + eb))
    as (m1 & m2 & e2 & Hr & Hm1 & Hk0 & Hm2).
  set (mx := (ma * mb)%positive) in *. set (ex := (ea + eb)%Z) in *.
  set (d := Zpos (digits2_pos mx)) in *.
  set (k := Z.max 0 (fexp B64.prec B64.emax (d + ex) - ex)) in *.
  assert (Hx : x = B64.F2R (Zpos mx) ex).
  { unfold x, mx, ex. rewrite Pos2Z.inj_mul. symmetry. apply F2R_mul. }
  assert (Hxpos : 0 < x).
  { rewrite Hx. unfold B64.F2R. apply Rmult_lt_0_compat; [apply IZR_lt; lia | apply pow2_pos]. }
  assert (Hkn : (0 <= k)%Z) by (unfold k; lia).
  assert (Hp : (0 < 2 ^ k)%Z) by (apply Z.pow_pos_nonneg; lia).
  assert (Hq0 : (0 <= Zpos mx / 2 ^ k)%Z) by (apply Z.div_pos; lia).
  assert (Hv : B64.F2R m2 e2 = B64.F2R m1 (ex + k)).
  { destruct Hm2 as [[-> ->] | [-> ->]]; [reflexivity |].
    unfold B64.F2R. rewrite mult_IZR, !pow2_add. simpl (powerRZ 2 1). ring. }
  exists m2, e2. split; [exact Hr |]. split; [lia |].
  rewrite Hv, Hx.
  pose proof (pow2_pos (-52)) as H52. pose proof (pow2_pos (-1074)) as H1074.
  destruct (Z.eq_dec k 0) as [E | E].
  - rewrite (Hk0 E), E, Z.add_0_r. unfold Rminus. rewrite Rplus_opp_r.
    rewrite <- Hx. nra.
  - assert (Hdiff : (Z.abs (m1 * 2 ^ k - Zpos mx) <= 2 ^ k)%Z).
    { pose proof (Z.mul_div_le (Zpos mx) (2 ^ k) Hp).
      pose proof (Z.mul_succ_div_gt (Zpos mx) (2 ^ k) Hp). nia. }
    assert (Herr : Rabs (B64.F2R m1 (ex + k) - B64.F2R (Zpos mx) ex) <= powerRZ 2 (ex + k)).
    { unfold B64.F2R. rewrite pow2_add.
      replace (IZR m1 * (powerRZ 2 ex * powerRZ 2 k) - IZR (Zpos mx) * powerRZ 2 ex)
        with ((IZR m1 * powerRZ 2 k - IZR (Zpos mx)) * powerRZ 2 ex) by ring.
      rewrite Rabs_mult, (Rabs_pos_eq (powerRZ 2 ex)) by (left; apply pow2_pos).
      rewrite (Rmult_comm (powerRZ 2 ex)).
      apply Rmult_le_compat_r; [left; apply pow2_pos |].
      rewrite <- pow2_IZR by exact Hkn. rewrite <- mult_IZR, <- minus_IZR, <- abs_IZR.
      apply IZR_le. exact Hdiff. }
    apply Rabs_bound in Herr.
    assert (powerRZ 2 (ex + k) <= B64.F2R (Zpos mx) ex * powerRZ 2 (-52) + powerRZ 2 (-1074));
      [| lra].
    assert (Hcase : (ex + k = d + ex - 53 \/ ex + k = -1074)%Z).
    { unfold k in *. rewrite fexp_eq in *. lia. }
    rewrite <- Hx.
    destruct Hcase as [-> | ->]; [| nra].
    assert (powerRZ 2 (d + ex - 53) <= x * powerRZ 2 (-52)); [| lra].
    rewrite Hx.
    replace (d + ex - 53)%Z with ((d - 1) + ex + (-52))%Z by lia.
    rewrite !pow2_add. apply Rmult_le_compat_r; [lra |].
    unfold B64.F2R. apply Rmult_le_compat_r; [left; apply pow2_pos |].
    destruct (digits2_pos_bounds mx) as [Hlow _]. fold d in Hlow.
    rewrite <- pow2_IZR by (unfold d; lia). apply IZR_le. exact Hlow.
Qed.

Lemma pow2_neg_inv (k : Z) : (0 <= k)%Z -> powerRZ 2 (- k) = / IZR (2 ^ k).
Proof.
  intros Hk. rewrite pow2_IZR by exact Hk.
  apply Rmult_eq_reg_r with (powerRZ 2 k); [| pose proof (pow2_pos k); lra].
  rewrite <- pow2_add, Rinv_l by (pose proof (pow2_pos k); lra).
  replace (- k + k)%Z with 0%Z by lia. reflexivity.
Qed.

Lemma B64_eqb_eq (a b : spec_float) : B64.eqb a b = true -> a = b.
Proof.
  destruct a as [s | s | | s m e], b as [t | t | | t n f]; cbn [B64.eqb];
    try discriminate; try reflexivity.
  - intros H. apply Bool.eqb_prop in H. congruence.
  - intros H. apply Bool.eqb_prop in H. congruence.
  - intros H. apply andb_prop in H. destruct H as [H He].
    apply andb_prop in H. destruct H as [Hs Hm].
    apply Bool.eqb_prop in Hs. apply Pos.eqb_eq in Hm. apply Z.eqb_eq in He.
    congruence.
Qed.

Lemma lit_95_100 : B64.lit 95 100 = S754_finite false 8556839292003942 (-53).
Proof. reflexivity. Qed.

Lemma ofZ_100 : B64.ofZ 100 = S754_finite false 7036874417766400 (-46).
Proof. reflexivity. Qed.

(** A representation with a non-negative mantissa and a small value is a
    zero or a finite number. *)
Lemma packed_small (m e : Z) :
  (0 <= m)%Z -> B64.F2R m e <= 256 ->
  B64.packed false m e = match m with Zpos p => S754_finite false p e | _ => S754_zero false end.
Proof.
  intros Hm Hv. destruct m as [| p | p]; [reflexivity | | lia].
  unfold B64.packed. destruct (Z.leb_spec e (B64.emax - B64.prec)) as [| Hgt]; [reflexivity |].
  exfalso. unfold B64.emax, B64.prec in Hgt.
  assert (powerRZ 2 9 <= powerRZ 2 e) by (apply pow2_le; lia).
  assert (1 <= IZR (Zpos p)) by (apply IZR_le; lia).
  unfold B64.F2R in Hv. simpl (powerRZ 2 9) in H.
  pose proof (pow2_pos e). nra.
Qed.

Lemma eps52 : powerRZ 2 (-52) = / 4503599627370496.
Proof. exact (pow2_neg_inv 52 ltac:(lia)). Qed.

Lemma eta_le : powerRZ 2 (-1074) <= / 1152921504606846976.
Proof.
  apply Rle_trans with (powerRZ 2 (-60)); [apply pow2_le; lia |].
  right. exact (pow2_neg_inv 60 ltac:(lia)).
Qed.

Lemma F2R_100 : B64.F2R 7036874417766400 (-46) = 100.
Proof.
  assert (E : powerRZ 2 (-46) = / 70368744177664)
    by exact (pow2_neg_inv 46 ltac:(lia)).
  unfold B64.F2R. rewrite E. lra.
Qed.

Lemma F2R_95_100 :
  95 / 100 - / 18014398509481984 <= B64.F2R 8556839292003942 (-53) <= 95 / 100.
Proof.
  assert (E : powerRZ 2 (-53) = / 9007199254740992)
    by exact (pow2_neg_inv 53 ltac:(lia)).
  unfold B64.F2R. rewrite E. lra.
Qed.

(** [minSafeZoom * 0.95 * 100] in binary64, for a positive [minSafeZoom] that
    is at most 1: the result is within 2^-44 of 95 times [minSafeZoom]. *)
Lemma scaled_value (mz : positive) (ez : Z) :
  B64.F2R (Zpos mz) ez <= 1 ->
  exists m e,
    B64.mul (B64.mul (S754_finite false mz ez) (B64.lit 95 100)) (B64.ofZ 100)
    = B64.packed false m e
    /\ (0 <= m)%Z
    /\ - / 17592186044416 <= B64.F2R m e - 95 * B64.F2R (Zpos mz) ez <= / 17592186044416.
Proof.
  intros Hz1. rewrite lit_95_100, ofZ_100. unfold B64.mul.
  set (zr := B64.F2R (Zpos mz) ez) in *.
  assert (Hz0 : 0 < zr).
  { unfold zr, B64.F2R. apply Rmult_lt_0_compat; [apply IZR_lt; lia | apply pow2_pos]. }
  destruct (mul_value mz 8556839292003942 ez (-53)) as (m1 & e1 & H1 & Hm1 & Herr1).
  fold zr in Herr1. rewrite H1.
  pose proof F2R_95_100 as [Hc0 Hc1].
  set (cr := B64.F2R 8556839292003942 (-53)) in *.
  set (x1 := zr * cr) in *. set (v1 := B64.F2R m1 e1) in *.
  rewrite eps52 in Herr1. pose proof eta_le as Heta.
  set (eta := powerRZ 2 (-1074)) in *.
  assert (Heta0 : 0 < eta) by apply pow2_pos.
  assert (Hx1 : 0 < x1 <= 95 / 100) by (unfold x1; nra).
  assert (Hx95 : - (100 / 18014398509481984) <= 100 * x1 - 95 * zr <= 0)
    by (unfold x1; nra).
  rewrite (packed_small m1 e1 Hm1) by (fold v1; lra).
  destruct m1 as [| p1 | p1]; [| | lia].
  - (* the first product underflowed to zero *)
    exists 0%Z, 0%Z. split; [reflexivity |]. split; [lia |].
    assert (Hv1 : v1 = 0) by (unfold v1, B64.F2R; lra).
    unfold B64.F2R. lra.
  - destruct (mul_value p1 7036874417766400 e1 (-46)) as (m2 & e2 & H2 & Hm2 & Herr2).
    fold v1 in Herr2. rewrite F2R_100, eps52 in Herr2. fold eta in Herr2.
    exists m2, e2. split; [exact H2 |]. split; [exact Hm2 |]. lra.
Qed.

Lemma clampTail_normalize (n : Z) :
  (0 <= n <= 95)%Z ->
  clampTail (binary_normalize B64.prec B64.emax n 0 false) = hundredth64 (clampZ n).
Proof.
  intros Hn. assert (T : tailTable = true) by (vm_compute; reflexivity).
  unfold tailTable in T. rewrite forallb_forall in T.
  specialize (T (Z.to_nat n)). rewrite Z2Nat.id in T by lia.
  apply B64_eqb_eq, T, in_seq. lia.
Qed.

Lemma clampTail_integer (p : positive) (e : Z) :
  (0 <= e)%Z -> (Zpos p * 2 ^ e <= 95)%Z ->
  clampTail (S754_finite false p e) = hundredth64 (clampZ (Zpos p * 2 ^ e)).
Proof.
  intros He Hle. assert (T : tailTableInt = true) by (vm_compute; reflexivity).
  unfold tailTableInt in T. rewrite forallb_forall in T.
  assert (Hp2 : (0 < 2 ^ e)%Z) by (apply Z.pow_pos_nonneg; lia).
  assert (Hp : (Zpos p <= 95)%Z) by nia.
  assert (He6 : (e <= 6)%Z).
  { destruct (Z_le_gt_dec e 6) as [| Hgt]; [assumption | exfalso].
    assert (2 ^ 7 <= 2 ^ e)%Z by (apply Z.pow_le_mono_r; lia).
    change (2 ^ 7)%Z with 128%Z in *. nia. }
  specialize (T (Pos.to_nat p)). rewrite forallb_forall in T.
  specialize (T ltac:(apply in_seq; lia) (Z.to_nat e) ltac:(apply in_seq; lia)).
  rewrite Pos2Nat.id, positive_nat_Z, Z2Nat.id in T by lia.
  apply B64_eqb_eq, T.
Qed.

(** [Math.floor], then the division by 100 and the clamp, on a non-negative
    value below 96. *)
Lemma floor_tail (m e : Z) :
  (0 <= m)%Z -> B64.F2R m e < 96 ->
  clampTail (B64.floor (B64.packed false m e)) = hundredth64 (clampZ (Zfloor (B64.F2R m e))).
Proof.
  intros Hm Hv. rewrite packed_small by (try assumption; lra).
  destruct m as [| p | p]; [| | lia].
  - unfold B64.F2R. rewrite Rmult_0_l, (Zfloor_eq 0) by lra. reflexivity.
  - cbn [B64.floor]. destruct (Z.leb_spec 0 e) as [He | He].
    + assert (Hval : B64.F2R (Zpos p) e = IZR (Zpos p * 2 ^ e)).
      { unfold B64.F2R. rewrite mult_IZR, pow2_IZR by exact He. reflexivity. }
      rewrite Hval in *. rewrite (Zfloor_eq (Zpos p * 2 ^ e)) by lra.
      apply clampTail_integer; [exact He |].
      apply lt_IZR in Hv. lia.
    + cbn [cond_Zopp]. rewrite Z.shiftr_div_pow2 by lia.
      set (k := (- e)%Z) in *.
      assert (Hp2 : (0 < 2 ^ k)%Z) by (apply Z.pow_pos_nonneg; unfold k; lia).
      set (n := (Zpos p / 2 ^ k)%Z).
      pose proof (Z.mul_div_le (Zpos p) (2 ^ k) Hp2) as Hlo.
      pose proof (Z.mul_succ_div_gt (Zpos p) (2 ^ k) Hp2) as Hhi.
      fold n in Hlo, Hhi.
      assert (Hval : B64.F2R (Zpos p) e = IZR (Zpos p) / IZR (2 ^ k)).
      { unfold B64.F2R. replace e with (- k)%Z by (unfold k; lia).
        rewrite pow2_neg_inv by (unfold k; lia). reflexivity. }
      assert (Hpos : 0 < IZR (2 ^ k)) by (apply IZR_lt; exact Hp2).
      assert (Hn : IZR n <= B64.F2R (Zpos p) e < IZR n + 1).
      { rewrite Hval. apply IZR_le in Hlo. apply IZR_lt in Hhi.
        rewrite mult_IZR in Hlo. rewrite mult_IZR, succ_IZR in Hhi.
        split.
        - apply Rmult_le_reg_r with (IZR (2 ^ k)); [exact Hpos |].
          unfold Rdiv. rewrite Rmult_assoc, Rinv_l by lra. lra.
        - apply Rmult_lt_reg_r with (IZR (2 ^ k)); [exact Hpos |].
          unfold Rdiv. rewrite Rmult_assoc, Rinv_l by lra. lra. }
      rewrite (Zfloor_eq n) by exact Hn.
      apply clampTail_normalize. split.
      * apply Z.div_pos; lia.
      * assert (IZR n < 96) by lra. apply lt_IZR in H. lia.
Qed.

(** ** The final zoom: binary64 against exact truncation *)

(** Margin, truncation and clamp on a real number, as whole hundredths. *)
Lemma spec_returnedZoom_hundredths (r : R) :
  spec_returnedZoom (Fin r)
  = Fin (IZR (clampZ (Zfloor (r * (95 / 100) * 100))) / 100).
Proof.
  unfold spec_returnedZoom, spec_clamp, spec_truncate2, spec_margin, clampZ.
  num_unfold. rewrite (Reqb_false 100 0) by lra.
  set (t := Zfloor (r * (95 / 100) * 100)).
  destruct (Z_lt_ge_dec t 10) as [Hlo | Hlo].
  - rewrite Rltb_true by (apply IZR_lt in Hlo; lra).
    rewrite Z.max_l by lia. f_equal. lra.
  - rewrite Rltb_false by (apply Z.ge_le, IZR_le in Hlo; lra).
    destruct (Z_gt_le_dec t 100) as [Hhi | Hhi].
    + rewrite Rltb_true by (apply Z.gt_lt, IZR_lt in Hhi; lra).
      rewrite Z.max_r, Z.min_l by lia. f_equal. lra.
    + rewrite Rltb_false by (apply IZR_le in Hhi; lra).
      rewrite Z.max_r, Z.min_r by lia. reflexivity.
Qed.

(** Two reals less than 1 apart have floors at most 1 apart. *)
Lemma Zfloor_near (a b : R) :
  -1 < a - b < 1 -> (Zfloor b - 1 <= Zfloor a <= Zfloor b + 1)%Z.
Proof.
  intros [Hlo Hhi].
  pose proof (Zfloor_bound a) as [Ha1 Ha2]. pose proof (Zfloor_bound b) as [Hb1 Hb2].
  split.
  - assert (H : IZR (Zfloor b) - 2 < IZR (Zfloor a)) by lra.
    rewrite <- minus_IZR in H. apply lt_IZR in H. lia.
  - assert (H : IZR (Zfloor a) < IZR (Zfloor b) + 2) by lra.
    rewrite <- plus_IZR in H. apply lt_IZR in H. lia.
Qed.

(** The stored zoom in binary64, for a [minSafeZoom] between 0 and 1: the
    hundredths are the clamped floor of a value within 2^-44 of 95 times
    [minSafeZoom]. *)
Lemma clampedZoom64_value (z : spec_float) (r : R) :
  B64.value z = Fin r -> 0 <= r <= 1 ->
  exists v,
    clampedZoom64 z = hundredth64 (clampZ (Zfloor v))
    /\ - / 17592186044416 <= v - 95 * r <= / 17592186044416.
Proof.
  intros Hv Hr. destruct z as [s | s | | s m e]; cbn [B64.value] in Hv.
  - injection Hv as <-. exists 0. split; [| lra].
    rewrite (Zfloor_eq 0) by lra. destruct s; reflexivity.
  - destruct s; discriminate.
  - discriminate.
  - injection Hv as <-. destruct s; cbn [cond_Zopp] in *.
    + exfalso. destruct Hr as [Hr0 _]. unfold B64.F2R in Hr0.
      pose proof (pow2_pos e) as Hp.
      assert (Hneg : IZR (- Z.pos m) <= IZR (-1)) by (apply IZR_le; lia).
      set (a := IZR (- Z.pos m)) in *. nra.
    + destruct (scaled_value m e (proj2 Hr)) as (m2 & e2 & H2 & Hm2 & Herr).
      exists (B64.F2R m2 e2). split; [| exact Herr].
      change (clampedZoom64 (S754_finite false m e))
        with (clampTail (B64.floor
                (B64.mul (B64.mul (S754_finite false m e) (B64.lit 95 100))
                         (B64.ofZ 100)))).
      rewrite H2. apply floor_tail; [exact Hm2 | lra].
Qed.

(** ** The range of the global safe zoom *)

(** The safe zoom of an item is [NaN], [+Infinity] or a non-negative real. *)
Lemma safeZoomFor_shape (cv : Canvas) (img : Image) (lm : Landmarks) :
  safeZoomFor cv img (faceGeometry lm) = NaN
  \/ safeZoomFor cv img (faceGeometry lm) = PInf
  \/ finNonneg (safeZoomFor cv img (faceGeometry lm)).
Proof.
  pose proof (IZR_of_N_nonneg (cwidth cv)) as Hcw.
  destruct (getCentroid_cases (getLeftEye lm)) as [(lx & ly & HL & _) | [HL _]];
  destruct (getCentroid_cases (getRightEye lm)) as [(rx & ry & HR & _) | [HR _]].
  - rewrite (faceGeometry_finite lm _ _ _ _ HL HR). unfold safeZoomFor, geometryOf.
    cbn [currentEyesDist].
    match goal with
    | |- context [Fin (sqrt ?q)] => pose proof (sqrt_pos q) as Hd; set (d := sqrt q) in *
    end.
    match goal with
    | |- context [maxScaleFor cv img (mkFaceGeometry (mkNPoint (Fin ?cx) (Fin ?cy)) (Fin ?a) ?dd)] =>
        destruct (maxScaleFor_shape cv img cx cy a dd) as [-> | (m & -> & Hm)]
    end.
    + unfold nmul, inf_signed, ofN, Rltb.
      destruct (Rlt_dec 0 d) as [Hpos | Hz].
      * right. left. unfold ndiv. rewrite Rltb_false by lra. reflexivity.
      * destruct (Rlt_dec d 0); [exfalso; lra |]. left. reflexivity.
    + assert (Hmd : 0 <= m * d) by (apply Rmult_le_pos; assumption).
      unfold nmul, ndiv, ofN, Reqb.
      destruct (Req_dec_T (IZR (Z.of_N (cwidth cv))) 0) as [E | E].
      * unfold inf_signed, Rltb. destruct (Rlt_dec 0 (m * d)).
        -- right. left. reflexivity.
        -- destruct (Rlt_dec (m * d) 0); [exfalso; lra |]. left. reflexivity.
      * right. right. eexists. split; [reflexivity |].
        unfold Rdiv. apply Rmult_le_pos; [exact Hmd |].
        left. apply Rinv_0_lt_compat. lra.
  - left. unfold safeZoomFor, faceGeometry. rewrite HL, HR. cbn [x y currentEyesDist].
    match goal with |- ndiv (nmul ?a _) _ = _ => destruct a; reflexivity end.
  - left. unfold safeZoomFor, faceGeometry. rewrite HL, HR. cbn [x y currentEyesDist].
    match goal with |- ndiv (nmul ?a _) _ = _ => destruct a; reflexivity end.
  - left. unfold safeZoomFor, faceGeometry. rewrite HL, HR. cbn [x y currentEyesDist].
    match goal with |- ndiv (nmul ?a _) _ = _ => destruct a; reflexivity end.
Qed.

(** The global safe zoom is [NaN] or a real number between 0 and 1. *)
Lemma minSafeZoomOf_range (s : State) :
  minSafeZoomOf s = NaN
  \/ exists r, minSafeZoomOf s = Fin r /\ 0 <= r <= 1.
Proof.
  unfold minSafeZoomOf.
  assert (H : forall items acc,
            (acc = NaN \/ exists r, acc = Fin r /\ 0 <= r <= 1) ->
            fold_left (itemStep (canvas s)) items acc = NaN
            \/ exists r, fold_left (itemStep (canvas s)) items acc = Fin r
                         /\ 0 <= r <= 1).
  { induction items as [| item items IH]; intros acc Hacc; [exact Hacc |].
    cbn [fold_left]. apply IH. unfold itemStep.
    destruct (detections item) as [det |]; [| exact Hacc].
    destruct Hacc as [-> | (r & -> & Hr)]; [left; reflexivity |].
    destruct (safeZoomFor_shape (canvas s) (original item) (landmarks det))
      as [-> | [-> | (v & -> & Hv)]].
    - left. reflexivity.
    - right. exists r. split; [reflexivity | exact Hr].
    - right. num_unfold. unfold Rltb. destruct (Rlt_dec v r).
      + exists v. split; [reflexivity | lra].
      + exists r. split; [reflexivity | exact Hr]. }
  apply H. right. exists 1. split; [reflexivity | lra].
Qed.

(** ** Sample frames for the final zoom *)

Lemma faceGeometry_lmLevel110 :
  faceGeometry lmLevel110
  = mkFaceGeometry (mkNPoint (Fin 475) (Fin 400)) (Fin 0) (Fin 110).
Proof.
  rewrite (faceGeometry_finite lmLevel110 _ _ _ _ (getCentroid_pair _ _ _ _)
                               (getCentroid_pair _ _ _ _)).
  rewrite geometryOf_level by lra.
  f_equal; [f_equal |]; f_equal; lra.
Qed.

Lemma maxScaleFor_level110 :
  maxScaleFor cv950 img950 (faceGeometry lmLevel110) = Fin 1.
Proof.
  rewrite faceGeometry_lmLevel110, maxScaleFor_finite.
  unfold spec_bounds, spec_corners, spec_rotated, spec_axisBound.
  cbn [flat_map fst snd cv950 img950 cwidth cheight width height Z.of_N app optList].
  rewrite Ropp_0, cos_0, sin_0. decide_R. cbn [app].
  numerals [1; 1; 1; 1; 1; 1; 1; 1].
  min_of_numerals.
Qed.

Lemma safeZoomFor_level110 :
  safeZoomFor cv950 img950 (faceGeometry lmLevel110) = Fin (110 / 950).
Proof.
  unfold safeZoomFor. rewrite maxScaleFor_level110, faceGeometry_lmLevel110.
  cbn [currentEyesDist cv950 cwidth]. num_eval. f_equal. lra.
Qed.

Lemma faceGeometry_lmLevel600 :
  faceGeometry lmLevel600
  = mkFaceGeometry (mkNPoint (Fin 500) (Fin 400)) (Fin 0) (Fin 600).
Proof.
  rewrite (faceGeometry_finite lmLevel600 _ _ _ _ (getCentroid_pair _ _ _ _)
                               (getCentroid_pair _ _ _ _)).
  rewrite geometryOf_level by lra.
  f_equal; [f_equal |]; f_equal; lra.
Qed.

Lemma maxScaleFor_level600 :
  maxScaleFor cv1000 img1000 (faceGeometry lmLevel600) = Fin 1.
Proof.
  rewrite faceGeometry_lmLevel600, maxScaleFor_finite.
  unfold spec_bounds, spec_corners, spec_rotated, spec_axisBound.
  cbn [flat_map fst snd cv1000 img1000 cwidth cheight width height Z.of_N app optList].
  rewrite Ropp_0, cos_0, sin_0. decide_R. cbn [app].
  numerals [1; 1; 1; 1; 1; 1; 1; 1].
  min_of_numerals.
Qed.

Lemma safeZoomFor_level600 :
  safeZoomFor cv1000 img1000 (faceGeometry lmLevel600) = Fin (6 / 10).
Proof.
  unfold safeZoomFor. rewrite maxScaleFor_level600, faceGeometry_lmLevel600.
  cbn [currentEyesDist cv1000 cwidth]. num_eval. f_equal. lra.
Qed.

Lemma safeZoom64_level110_value :
  safeZoom64_level110 = S754_finite false 8343510888602182 (-56)
  /\ B64.min (B64.ofZ 1) safeZoom64_level110 = safeZoom64_level110
  /\ safeZoom64_level110 = B64.lit 110 950.
Proof. repeat split; reflexivity. Qed.

(** * Properties of the program *)

(** ** Frame transform *)

(** C2.  For an item with detections whose eye distance is positive, drawn
    in align mode with a zoom in (0, 1], the image is painted under the
    transform translate(target) . scale(canvasWidth * zoom / eyeDistance) .
    rotate(-angle) . translate(-eyesCenter), and that transform sends the
    eyes-center exactly to (canvasWidth * 0.5, canvasHeight * 0.4). *)
Theorem eyesCenter_maps_to_target (s : State) (index : nat) (item : Item)
    (det : Detections) (z d : R) :
  nth_error (images s) index = Some item ->
  alignEyes s = true ->
  detections item = Some det ->
  ctm (ctx s) = identityM ->
  zoom s = Fin z -> 0 < z <= 1 ->
  currentEyesDist (faceGeometry (landmarks det)) = Fin d -> 0 < d ->
  exists a cx cy,
    eyesCenter (faceGeometry (landmarks det)) = mkNPoint (Fin cx) (Fin cy)
    /\ angle (faceGeometry (landmarks det)) = Fin a
    /\ builtTransform (ctx (renderFrame index s))
       = Some (alignMatrix (IZR (Z.of_N (cwidth (canvas s))) * (5 / 10))
                           (IZR (Z.of_N (cheight (canvas s))) * (4 / 10))
                           (IZR (Z.of_N (cwidth (canvas s))) * z / d) a cx cy)
    /\ applyM (alignMatrix (IZR (Z.of_N (cwidth (canvas s))) * (5 / 10))
                           (IZR (Z.of_N (cheight (canvas s))) * (4 / 10))
                           (IZR (Z.of_N (cwidth (canvas s))) * z / d) a cx cy)
              (cx, cy)
       = (IZR (Z.of_N (cwidth (canvas s))) * (5 / 10),
          IZR (Z.of_N (cheight (canvas s))) * (4 / 10)).
Proof.
  intros Hnth Hal Hdet Hctm Hz Hzr Hd Hdpos.
  destruct (finite_dist_centroids _ _ Hd) as (lx & ly & rx & ry & HL & HR & _ & _).
  pose proof (faceGeometry_finite _ _ _ _ _ HL HR) as Hg.
  rewrite Hg in Hd. cbn [geometryOf currentEyesDist] in Hd. injection Hd as Hd.
  exists (Ratan2 (ry + - ly) (rx + - lx)), ((lx + rx) / 2), ((ly + ry) / 2).
  rewrite Hg. cbn [geometryOf eyesCenter angle].
  split; [reflexivity |]. split; [reflexivity |]. split.
  - rewrite (renderFrame_aligned s index item det z lx ly rx ry Hnth Hal Hdet Hz HL HR)
      by (rewrite Hd; lra).
    rewrite Hctm, mmul_identity_l, Hd. reflexivity.
  - apply alignMatrix_center.
Qed.

Lemma eyesCenter_maps_to_target_witness :
  exists a cx cy,
    eyesCenter (faceGeometry lmWide) = mkNPoint (Fin cx) (Fin cy)
    /\ angle (faceGeometry lmWide) = Fin a
    /\ builtTransform (ctx (renderFrame 0 (stateOf [itemWide])))
       = Some (alignMatrix (1000 * (5 / 10)) (1000 * (4 / 10))
                           (1000 * (25 / 100) / 200) a cx cy)
    /\ applyM (alignMatrix (1000 * (5 / 10)) (1000 * (4 / 10))
                           (1000 * (25 / 100) / 200) a cx cy) (cx, cy)
       = (1000 * (5 / 10), 1000 * (4 / 10)).
Proof.
  apply (eyesCenter_maps_to_target (stateOf [itemWide]) 0 itemWide
           (mkDetections lmWide) (25 / 100) 200).
  - reflexivity.
  - reflexivity.
  - reflexivity.
  - reflexivity.
  - reflexivity.
  - lra.
  - cbn [landmarks]. rewrite faceGeometry_lmWide. reflexivity.
  - lra.
Defined.

(** C3.  For an item with detections whose eye distance is positive, drawn
    in align mode with a non-negative zoom, the images of the two eye
    centres under the built transform are canvasWidth * zoom apart: exactly
    so in real arithmetic, hence within a relative tolerance of 1e-6. *)
Theorem eye_distance_scaled_to_zoom (s : State) (index : nat) (item : Item)
    (det : Detections) (z d : R) :
  nth_error (images s) index = Some item ->
  alignEyes s = true ->
  detections item = Some det ->
  ctm (ctx s) = identityM ->
  zoom s = Fin z -> 0 <= z ->
  currentEyesDist (faceGeometry (landmarks det)) = Fin d -> 0 < d ->
  exists m lx ly rx ry,
    getCentroid (getLeftEye (landmarks det)) = mkNPoint (Fin lx) (Fin ly)
    /\ getCentroid (getRightEye (landmarks det)) = mkNPoint (Fin rx) (Fin ry)
    /\ builtTransform (ctx (renderFrame index s)) = Some m
    /\ distance (applyM m (lx, ly)) (applyM m (rx, ry))
       = IZR (Z.of_N (cwidth (canvas s))) * z
    /\ Rabs (distance (applyM m (lx, ly)) (applyM m (rx, ry))
             - IZR (Z.of_N (cwidth (canvas s))) * z)
       <= 1 / 1000000 * (IZR (Z.of_N (cwidth (canvas s))) * z).
Proof.
  intros Hnth Hal Hdet Hctm Hz Hzr Hd Hdpos.
  destruct (finite_dist_centroids _ _ Hd) as (lx & ly & rx & ry & HL & HR & _ & _).
  pose proof (faceGeometry_finite _ _ _ _ _ HL HR) as Hg.
  rewrite Hg in Hd. cbn [geometryOf currentEyesDist] in Hd. injection Hd as Hd.
  pose proof (IZR_of_N_nonneg (cwidth (canvas s))) as Hcw.
  assert (Hs : 0 <= IZR (Z.of_N (cwidth (canvas s))) * z / d).
  { unfold Rdiv. apply Rmult_le_pos; [apply Rmult_le_pos; assumption |].
    left. apply Rinv_0_lt_compat. assumption. }
  exists (alignMatrix (IZR (Z.of_N (cwidth (canvas s))) * (5 / 10))
                      (IZR (Z.of_N (cheight (canvas s))) * (4 / 10))
                      (IZR (Z.of_N (cwidth (canvas s))) * z / d)
                      (Ratan2 (ry + - ly) (rx + - lx))
                      ((lx + rx) / 2) ((ly + ry) / 2)).
  exists lx, ly, rx, ry.
  split; [exact HL |]. split; [exact HR |]. split.
  - rewrite (renderFrame_aligned s index item det z lx ly rx ry Hnth Hal Hdet Hz HL HR)
      by (rewrite Hd; lra).
    rewrite Hctm, mmul_identity_l, Hd. reflexivity.
  - unfold distance.
    rewrite (alignMatrix_distance _ _ _ _ _ _ (lx, ly) (rx, ry) Hs).
    cbn [fst snd]. change (rx - lx) with (rx + - lx).
    change (ry - ly) with (ry + - ly). rewrite Hd.
    replace (IZR (Z.of_N (cwidth (canvas s))) * z / d * d)
      with (IZR (Z.of_N (cwidth (canvas s))) * z) by (field; lra).
    split; [reflexivity |].
    match goal with
    | |- Rabs (?e - ?e) <= _ => replace (e - e) with 0 by ring
    end.
    rewrite Rabs_R0.
    apply Rmult_le_pos; [lra | apply Rmult_le_pos; assumption].
Qed.

Lemma eye_distance_scaled_to_zoom_witness :
  exists m lx ly rx ry,
    getCentroid (getLeftEye lmWide) = mkNPoint (Fin lx) (Fin ly)
    /\ getCentroid (getRightEye lmWide) = mkNPoint (Fin rx) (Fin ry)
    /\ builtTransform (ctx (renderFrame 0 (stateOf [itemWide]))) = Some m
    /\ distance (applyM m (lx, ly)) (applyM m (rx, ry)) = 1000 * (25 / 100)
    /\ Rabs (distance (applyM m (lx, ly)) (applyM m (rx, ry)) - 1000 * (25 / 100))
       <= 1 / 1000000 * (1000 * (25 / 100)).
Proof.
  apply (eye_distance_scaled_to_zoom (stateOf [itemWide]) 0 itemWide
           (mkDetections lmWide) (25 / 100) 200).
  - reflexivity.
  - reflexivity.
  - reflexivity.
  - reflexivity.
  - reflexivity.
  - lra.
  - cbn [landmarks]. rewrite faceGeometry_lmWide. reflexivity.
  - lra.
Defined.

Lemma fold_itemStep_none (cv : Canvas) (items : list Item) (acc : num) :
  (forall item, In item items -> detections item = None) ->
  fold_left (itemStep cv) items acc = acc.
Proof.
  revert acc. induction items as [| item items IH]; intros acc Hnone.
  - reflexivity.
  - cbn [fold_left]. unfold itemStep at 2.
    rewrite (Hnone item (or_introl eq_refl)).
    apply IH. intros it Hit. apply Hnone. right. exact Hit.
Qed.

(** ** Auto-fit: from the global safe zoom to the stored zoom *)

(** C10.  With no image in the sequence, [autoFitZoom] returns at once:
    the zoom and every other part of the session are left as they were. *)
Theorem autoFitZoom_empty (w : World) :
  images (state w) = [] -> autoFitZoom w = w.
Proof. intros H. unfold autoFitZoom. rewrite H. reflexivity. Qed.

Lemma autoFitZoom_empty_witness : autoFitZoom (worldOf []) = worldOf [].
Proof. apply (autoFitZoom_empty (worldOf [])). reflexivity. Defined.

(** C5, as the program has it.  [autoFitZoom] computes the stored zoom in
    binary64, each product rounded before [Math.floor].  For a global safe
    zoom between 0 and 1 the result is the binary64 number nearest to
    [k / 100] for a whole number [k] of hundredths in [10, 100]; exact
    multiplication by 0.95, truncation to two decimal places and clamping
    into [0.1, 1.0] give [k' / 100], as does the embedding over the reals
    [clampedZoomOf], and [k] is within one of [k'].  The two are equal
    whenever 95 times the global safe zoom is at least 2^-44 away from every
    whole number.  A [NaN] stays a [NaN]. *)
Theorem clampedZoom64_near_truncation (z : spec_float) (r : R) :
  B64.value z = Fin r -> 0 <= r <= 1 ->
  clampedZoom64 S754_nan = S754_nan
  /\ exists k k' : Z,
       clampedZoom64 z = hundredth64 k
       /\ spec_returnedZoom (Fin r) = Fin (IZR k' / 100)
       /\ clampedZoomOf (Fin r) = Fin (IZR k' / 100)
       /\ (10 <= k <= 100)%Z /\ (10 <= k' <= 100)%Z
       /\ (k' - 1 <= k <= k' + 1)%Z
       /\ (forall t : Z,
             IZR t + / 17592186044416 <= 95 * r < IZR t + 1 - / 17592186044416 ->
             k = k').
Proof.
  intros Hv Hr. split; [reflexivity |].
  destruct (clampedZoom64_value z r Hv Hr) as (v & Hz & Herr).
  exists (clampZ (Zfloor v)), (clampZ (Zfloor (r * (95 / 100) * 100))).
  split; [exact Hz |]. split; [apply spec_returnedZoom_hundredths |].
  split; [rewrite clampedZoomOf_spec; apply spec_returnedZoom_hundredths |].
  replace (r * (95 / 100) * 100) with (95 * r) by lra.
  pose proof (Zfloor_near v (95 * r) ltac:(lra)) as Hnear.
  unfold clampZ. split; [lia |]. split; [lia |]. split; [lia |].
  intros t Ht. f_equal. f_equal.
  rewrite (Zfloor_eq t v) by lra. rewrite (Zfloor_eq t (95 * r)) by lra.
  reflexivity.
Qed.

Lemma clampedZoom64_near_truncation_witness :
  clampedZoom64 (B64.lit 1 2) = hundredth64 47
  /\ spec_returnedZoom (B64.value (B64.lit 1 2)) = Fin (47 / 100).
Proof.
  assert (Hr : B64.F2R 4503599627370496 (-53) = 1 / 2).
  { unfold B64.F2R.
    replace (powerRZ 2 (-53)) with (/ 9007199254740992)
      by (symmetry; exact (pow2_neg_inv 53 ltac:(lia))).
    lra. }
  destruct (clampedZoom64_near_truncation (B64.lit 1 2)
              (B64.F2R 4503599627370496 (-53)) eq_refl
              ltac:(rewrite Hr; lra))
    as (_ & k & k' & Hk & Hk' & _ & _ & _ & _ & Heq).
  assert (Hkk : k = k') by (apply (Heq 47%Z); rewrite Hr; lra).
  subst k'.
  change (B64.value (B64.lit 1 2)) with (Fin (B64.F2R 4503599627370496 (-53))).
  assert (H47 : spec_returnedZoom (Fin (B64.F2R 4503599627370496 (-53)))
                = Fin (47 / 100)).
  { rewrite spec_returnedZoom_hundredths, Hr.
    rewrite (Zfloor_eq 47) by lra. unfold clampZ. f_equal. }
  split; [| exact H47].
  rewrite H47 in Hk'. injection Hk' as Hk'.
  assert (E : k = 47%Z) by (apply eq_IZR; lra).
  rewrite Hk, E. reflexivity.
Defined.

(** C5, as stated, fails.  The frame with level eyes 110 apart on a canvas
    950 wide has the safe zoom 110 / 950, in binary64 0.11578947368421053,
    just below 11 / 95.  Multiplied by 0.95 and truncated to two decimal
    places that is 0.10, yet the program returns 0.11.  The frame with level
    eyes 600 apart on a canvas 1000 wide has the safe zoom 6 / 10, whose
    margin 0.57 needs no truncation, yet the program returns 0.56: the
    binary64 number 0.6 lies below 6 / 10. *)
Lemma clampedZoom64_not_truncation :
  (safeZoomFor cv950 img950 (faceGeometry lmLevel110) = Fin (110 / 950)
   /\ safeZoom64_level110 = B64.lit 110 950
   /\ (exists r, B64.value safeZoom64_level110 = Fin r /\ 0 <= r <= 1
                 /\ spec_returnedZoom (Fin r) = Fin (10 / 100))
   /\ clampedZoom64 safeZoom64_level110 = hundredth64 11
   /\ (exists a, B64.value (clampedZoom64 safeZoom64_level110) = Fin a
                 /\ 10 / 100 + 9 / 1000 < a))
  /\ (safeZoomFor cv1000 img1000 (faceGeometry lmLevel600) = Fin (6 / 10)
      /\ safeZoom64_level600 = B64.lit 6 10
      /\ spec_returnedZoom (Fin (6 / 10)) = Fin (57 / 100)
      /\ clampedZoom64 safeZoom64_level600 = hundredth64 56
      /\ (exists a, B64.value (clampedZoom64 safeZoom64_level600) = Fin a
                    /\ a < 57 / 100 - 9 / 1000)).
Proof.
  split.
  - split; [apply safeZoomFor_level110 |]. split; [reflexivity |].
    assert (E56 : powerRZ 2 (-56) = / 72057594037927936)
      by exact (pow2_neg_inv 56 ltac:(lia)).
    split; [| split].
    + exists (B64.F2R 8343510888602182 (-56)). split; [reflexivity |].
      unfold B64.F2R. rewrite E56. split; [lra |].
      rewrite spec_returnedZoom_hundredths.
      rewrite (Zfloor_eq 10) by lra. unfold clampZ. f_equal.
    + reflexivity.
    + exists (B64.F2R 7926335344172073 (-56)). split; [reflexivity |].
      unfold B64.F2R. rewrite E56. lra.
  - split; [apply safeZoomFor_level600 |]. split; [reflexivity |].
    assert (E53 : powerRZ 2 (-53) = / 9007199254740992)
      by exact (pow2_neg_inv 53 ltac:(lia)).
    split; [| split].
    + rewrite spec_returnedZoom_hundredths.
      rewrite (Zfloor_eq 57) by lra. unfold clampZ. f_equal.
    + reflexivity.
    + exists (B64.F2R 5044031582654956 (-53)). split; [reflexivity |].
      unfold B64.F2R. rewrite E53. lra.
Qed.

(** C6, as the program has it.  When the sequence is not empty and no item
    has detections, the margin still applies to the initial 1.0:
    [autoFitZoom] stores floor(1.0 * 0.95 * 100) / 100 = 0.95. *)
Theorem autoFitZoom_no_detections (w : World) :
  images (state w) <> [] ->
  (forall item, In item (images (state w)) -> detections item = None) ->
  minSafeZoomOf (state w) = Fin 1
  /\ zoom (state (autoFitZoom w)) = Fin (95 / 100).
Proof.
  intros Hne Hnone.
  assert (Hmin : minSafeZoomOf (state w) = Fin 1).
  { unfold minSafeZoomOf. apply fold_itemStep_none. exact Hnone. }
  split; [exact Hmin |].
  rewrite (autoFitZoom_zoom w Hne), Hmin. apply clampedZoomOf_one.
Qed.

Lemma autoFitZoom_no_detections_witness :
  minSafeZoomOf (state (worldOf [itemNoFace])) = Fin 1
  /\ zoom (state (autoFitZoom (worldOf [itemNoFace]))) = Fin (95 / 100).
Proof.
  apply (autoFitZoom_no_detections (worldOf [itemNoFace])).
  - discriminate.
  - intros item [<- | []]. reflexivity.
Defined.

(** C6, as stated, fails: one image without detections, and the stored zoom
    is not 1.0. *)
Lemma autoFitZoom_no_detections_not_one :
  images (state (worldOf [itemNoFace])) <> []
  /\ (forall item, In item (images (state (worldOf [itemNoFace]))) ->
                   detections item = None)
  /\ zoom (state (autoFitZoom (worldOf [itemNoFace]))) <> Fin 1.
Proof.
  split; [discriminate |]. split.
  - intros item [<- | []]. reflexivity.
  - rewrite autoFitZoom_zoom by discriminate.
    change (minSafeZoomOf (state (worldOf [itemNoFace]))) with (Fin 1).
    rewrite clampedZoomOf_one. intros E. injection E as E. lra.
Qed.

(** C7, as the program has it.  The minimum bound of a frame, its
    [maxScaleForThisImage], is never negative, and it is zero only on a
    canvas of zero width or zero height.  [autoFitZoom] then raises no error
    and does not keep the previous zoom: when the eye clusters of the frames
    are not empty and their images not of zero width, it stores [NaN] on a
    canvas of zero width, and otherwise the lower limit 0.1 of the slider. *)
Theorem autoFitZoom_nonpositive_bound
    (w : World) (item : Item) (det : Detections) (b : R) :
  In item (images (state w)) ->
  detections item = Some det ->
  maxScaleFor (canvas (state w)) (original item) (faceGeometry (landmarks det))
  = Fin b ->
  b <= 0 ->
  (forall it d,
     In it (images (state w)) -> detections it = Some d ->
     getLeftEye (landmarks d) <> [] /\ getRightEye (landmarks d) <> []
     /\ (0 < width (original it))%N) ->
  b = 0
  /\ (cwidth (canvas (state w)) = 0%N \/ cheight (canvas (state w)) = 0%N)
  /\ zoom (state (autoFitZoom w))
     = if N.eqb (cwidth (canvas (state w))) 0 then NaN else Fin (1 / 10).
Proof.
  intros Hin Hdet Hb Hle Hwf.
  destruct (maxScaleFor_nonpositive _ _ _ _ Hb Hle) as [-> Hcv].
  destruct (zero_bound_stored_zoom w item det Hin Hdet Hb) as (_ & Hthin & Hfin).
  split; [reflexivity |]. split; [exact Hcv |].
  destruct (N.eqb_spec (cwidth (canvas (state w))) 0) as [Hcw | Hcw].
  - apply Hthin. exact Hcw.
  - apply Hfin. rewrite minSafeZoomOf_minimum.
    match goal with
    | |- spec_minimumN ?l <> NaN =>
        destruct (spec_minimumN_shape l) as (m & -> & _); [| discriminate | discriminate]
    end.
    intros v [<- | Hv].
    + exists 1. split; [reflexivity | lra].
    + apply in_safeZooms in Hv. destruct Hv as (it & d & Hit & Hd & ->).
      destruct (Hwf it d Hit Hd) as (HL & HR & Hw).
      apply safeZoomFor_bounded; try assumption. lia.
Qed.

Lemma autoFitZoom_nonpositive_bound_witness :
  0 = 0
  /\ (cwidth (canvas (state (worldOn cvFlat [itemFlat; itemWide]))) = 0%N
      \/ cheight (canvas (state (worldOn cvFlat [itemFlat; itemWide]))) = 0%N)
  /\ zoom (state (autoFitZoom (worldOn cvFlat [itemFlat; itemWide]))) = Fin (1 / 10).
Proof.
  apply (autoFitZoom_nonpositive_bound (worldOn cvFlat [itemFlat; itemWide]) itemWide
           (mkDetections lmWide) 0).
  - right. left. reflexivity.
  - reflexivity.
  - apply maxScaleFor_flat.
  - lra.
  - intros it d [<- | [<- | []]] E; [discriminate |]. injection E as <-.
    split; [discriminate |]. split; [discriminate | reflexivity].
Defined.

(** C7, as stated, fails.  After a first image of height 0 the canvas has
    height 0: the minimum bound of the second frame is 0, and so is the
    global safe zoom, and the zoom changes from 0.25 to 0.1.  After a first
    image of width 0 the minimum bound is 0 again and the zoom changes from
    0.25 to [NaN]. *)
Lemma autoFitZoom_zero_bound_changes_zoom :
  maxScaleFor cvFlat img1000 (faceGeometry lmWide) = Fin 0
  /\ minSafeZoomOf (state (worldOn cvFlat [itemFlat; itemWide])) = Fin 0
  /\ zoom (state (worldOn cvFlat [itemFlat; itemWide])) = Fin (25 / 100)
  /\ zoom (state (autoFitZoom (worldOn cvFlat [itemFlat; itemWide]))) = Fin (1 / 10)
  /\ maxScaleFor cvThin img1000 (faceGeometry lmWide) = Fin 0
  /\ zoom (state (worldOn cvThin [itemThin; itemWide])) = Fin (25 / 100)
  /\ zoom (state (autoFitZoom (worldOn cvThin [itemThin; itemWide]))) = NaN.
Proof.
  assert (Hmin : minSafeZoomOf (state (worldOn cvFlat [itemFlat; itemWide])) = Fin 0).
  { unfold minSafeZoomOf, itemStep.
    cbn [worldOn state images canvas fold_left itemFlat itemWide detections original
         landmarks].
    rewrite (safeZoomFor_zero_bound _ _ _ maxScaleFor_flat).
    cbn [cvFlat cwidth N.eqb]. num_eval. reflexivity. }
  split; [apply maxScaleFor_flat |]. split; [exact Hmin |]. split; [reflexivity |].
  pose proof (zero_bound_stored_zoom (worldOn cvFlat [itemFlat; itemWide]) itemWide
                (mkDetections lmWide) (or_intror (or_introl eq_refl)) eq_refl maxScaleFor_flat)
    as (_ & _ & Hflat).
  pose proof (zero_bound_stored_zoom (worldOn cvThin [itemThin; itemWide]) itemWide
                (mkDetections lmWide) (or_intror (or_introl eq_refl)) eq_refl maxScaleFor_thin)
    as (_ & Hthin & _).
  split.
  - apply Hflat. rewrite Hmin. discriminate.
  - split; [apply maxScaleFor_thin |]. split; [reflexivity |].
    apply Hthin. reflexivity.
Qed.

(** ** Auto-fit: the safe scale of an image and the global safe zoom *)

(** C1, as the program has it.  For every item with detections whose eye
    distance is positive, [maxScaleForThisImage] is the minimum of the
    bounds of the 4 corners on the 2 axes, each corner rotated by [-angle]
    about the eyes-center: [(extent - target) / rot] when [rot > 0],
    [-target / rot] when [rot < 0], none when [rot = 0] ([+Infinity] when no
    corner gives a bound); its safe zoom is that scale times the eye distance
    over the canvas width.  The global safe zoom is the minimum of 1.0 and of
    the safe zooms of all the items that have detections, those with eye
    distance 0 included. *)
Theorem autoFit_bounds_and_minimum (s : State) :
  (forall item det d,
     In item (images s) ->
     detections item = Some det ->
     currentEyesDist (faceGeometry (landmarks det)) = Fin d -> 0 < d ->
     exists cx cy a,
       eyesCenter (faceGeometry (landmarks det)) = mkNPoint (Fin cx) (Fin cy)
       /\ angle (faceGeometry (landmarks det)) = Fin a
       /\ maxScaleFor (canvas s) (original item) (faceGeometry (landmarks det))
          = spec_minimum
              (spec_bounds (IZR (Z.of_N (cwidth (canvas s))))
                           (IZR (Z.of_N (cheight (canvas s))))
                           (IZR (Z.of_N (width (original item))))
                           (IZR (Z.of_N (height (original item))))
                           cx cy a)
       /\ safeZoomFor (canvas s) (original item) (faceGeometry (landmarks det))
          = ndiv (nmul (spec_minimum
                          (spec_bounds (IZR (Z.of_N (cwidth (canvas s))))
                                       (IZR (Z.of_N (cheight (canvas s))))
                                       (IZR (Z.of_N (width (original item))))
                                       (IZR (Z.of_N (height (original item))))
                                       cx cy a))
                       (Fin d))
                 (Fin (IZR (Z.of_N (cwidth (canvas s))))))
  /\ minSafeZoomOf s = spec_minimumN (Fin 1 :: safeZooms (canvas s) (images s)).
Proof.
  split; [| apply minSafeZoomOf_minimum].
  intros item det d _ Hdet Hd Hdpos.
  destruct (finite_dist_centroids _ _ Hd) as (lx & ly & rx & ry & HL & HR & _ & _).
  pose proof (faceGeometry_finite _ _ _ _ _ HL HR) as Hg.
  unfold safeZoomFor. rewrite Hd. rewrite Hg. unfold geometryOf.
  cbn [eyesCenter angle].
  exists ((lx + rx) / 2), ((ly + ry) / 2), (Ratan2 (ry + - ly) (rx + - lx)).
  split; [reflexivity |]. split; [reflexivity |].
  rewrite maxScaleFor_finite. split; reflexivity.
Qed.

Lemma autoFit_bounds_and_minimum_witness :
  (exists cx cy a,
     eyesCenter (faceGeometry lmWide) = mkNPoint (Fin cx) (Fin cy)
     /\ angle (faceGeometry lmWide) = Fin a
     /\ maxScaleFor cv1000 img1000 (faceGeometry lmWide)
        = spec_minimum (spec_bounds 1000 1000 1000 1000 cx cy a)
     /\ safeZoomFor cv1000 img1000 (faceGeometry lmWide)
        = ndiv (nmul (spec_minimum (spec_bounds 1000 1000 1000 1000 cx cy a))
                     (Fin 200))
               (Fin 1000))
  /\ minSafeZoomOf (stateOf [itemWide; itemCoincident])
     = spec_minimumN (Fin 1 :: safeZooms cv1000 [itemWide; itemCoincident]).
Proof.
  destruct (autoFit_bounds_and_minimum (stateOf [itemWide; itemCoincident]))
    as [Hframe Hglobal].
  split; [| exact Hglobal].
  apply (Hframe itemWide (mkDetections lmWide) 200).
  - left. reflexivity.
  - reflexivity.
  - cbn [landmarks]. rewrite faceGeometry_lmWide. reflexivity.
  - lra.
Defined.

(** C1, as stated, fails.  Of the two images, the second has both eyes on
    one point: it is not a frame with geometry, and the minimum safe zoom
    over the frames with geometry is 0.16; the program takes the second
    image in and ends with 0. *)
Lemma minSafeZoom_counts_coincident_eyes :
  hasGeometry itemWide = true
  /\ hasGeometry itemCoincident = false
  /\ spec_globalSafeZoom cv1000 [itemWide; itemCoincident] = Fin (4 / 25)
  /\ minSafeZoomOf (stateOf [itemWide; itemCoincident]) = Fin 0
  /\ minSafeZoomOf (stateOf [itemWide; itemCoincident])
     <> spec_globalSafeZoom cv1000 [itemWide; itemCoincident].
Proof.
  assert (HW : hasGeometry itemWide = true).
  { unfold hasGeometry, itemWide. cbn [detections landmarks].
    rewrite faceGeometry_lmWide. cbn [currentEyesDist]. num_eval. reflexivity. }
  assert (HC : hasGeometry itemCoincident = false).
  { unfold hasGeometry, itemCoincident. cbn [detections landmarks].
    rewrite faceGeometry_lmCoincident. cbn [currentEyesDist]. num_eval.
    reflexivity. }
  assert (HS : spec_globalSafeZoom cv1000 [itemWide; itemCoincident] = Fin (4 / 25)).
  { unfold spec_globalSafeZoom. cbn [filter]. rewrite HW, HC.
    unfold safeZooms, itemWide at 1.
    cbn [flat_map detections original landmarks app spec_minimumN fold_right].
    rewrite safeZoomFor_wide. reflexivity. }
  split; [exact HW |]. split; [exact HC |]. split; [exact HS |].
  split; [apply minSafeZoomOf_wide_coincident |].
  rewrite HS, minSafeZoomOf_wide_coincident. intros E. injection E as E. lra.
Qed.

(** The initial 1.0 is part of the minimum: with the eye centres at
    (-50, 40) and (150, 40), a 100 x 100 image on a 100 x 100 canvas has a
    safe zoom of 2, and the global safe zoom is 1. *)
Lemma minSafeZoom_capped_at_one :
  safeZoomFor (mkCanvas 100 100) (mkImage 100 100) (faceGeometry lmOutside) = Fin 2
  /\ fold_left (itemStep (mkCanvas 100 100))
               [mkItem (mkImage 100 100) (Some (mkDetections lmOutside))] (Fin 1)
     = Fin 1.
Proof.
  assert (Hg : faceGeometry lmOutside
               = mkFaceGeometry (mkNPoint (Fin 50) (Fin 40)) (Fin 0) (Fin 200)).
  { rewrite (faceGeometry_finite lmOutside _ _ _ _ (getCentroid_pair _ _ _ _)
                                 (getCentroid_pair _ _ _ _)).
    rewrite geometryOf_level by lra.
    f_equal; [f_equal |]; f_equal; lra. }
  assert (Hz : safeZoomFor (mkCanvas 100 100) (mkImage 100 100)
                           (faceGeometry lmOutside) = Fin 2).
  { rewrite Hg. unfold safeZoomFor. rewrite maxScaleFor_finite.
    unfold spec_bounds, spec_corners, spec_rotated, spec_axisBound.
    cbn [flat_map fst snd cwidth cheight width height Z.of_N app optList].
    rewrite Ropp_0, cos_0, sin_0. decide_R. cbn [app].
    numerals [1; 1; 1; 1; 1; 1; 1; 1].
    replace (spec_minimum [1; 1; 1; 1; 1; 1; 1; 1]) with (Fin 1)
      by (symmetry; min_of_numerals).
    cbn [currentEyesDist]. num_eval. f_equal. lra. }
  split; [exact Hz |].
  cbn [fold_left]. unfold itemStep. cbn [detections original landmarks].
  rewrite Hz. num_eval. reflexivity.
Qed.

(** C8, as the program has it.  With the image, the canvas, the eyes-center
    and the angle held fixed, the safe zoom of an item grows with its eye
    distance: a smaller (positive) eye distance never gives a larger safe
    zoom. *)
Theorem safeZoom_monotone_in_eye_distance (cv : Canvas) (img : Image)
    (lm1 lm2 : Landmarks) (d1 d2 : R) :
  eyesCenter (faceGeometry lm2) = eyesCenter (faceGeometry lm1) ->
  angle (faceGeometry lm2) = angle (faceGeometry lm1) ->
  currentEyesDist (faceGeometry lm1) = Fin d1 ->
  currentEyesDist (faceGeometry lm2) = Fin d2 ->
  0 < d2 -> d2 <= d1 ->
  (0 < cwidth cv)%N ->
  nle (safeZoomFor cv img (faceGeometry lm2)) (safeZoomFor cv img (faceGeometry lm1))
  = true.
Proof.
  intros Hc Ha Hd1 Hd2 Hpos Hle Hcw.
  unfold safeZoomFor. rewrite (maxScaleFor_ext cv img _ _ Hc Ha), Hd1, Hd2.
  destruct (finite_dist_centroids _ _ Hd1) as (lx & ly & rx & ry & HL & HR & _ & _).
  rewrite (faceGeometry_finite _ _ _ _ _ HL HR). unfold geometryOf.
  pose proof (IZR_of_N_pos _ Hcw) as Hcwpos.
  match goal with
  | |- context [maxScaleFor cv img (mkFaceGeometry (mkNPoint (Fin ?cx) (Fin ?cy)) (Fin ?a) ?d)] =>
      destruct (maxScaleFor_shape cv img cx cy a d) as [-> | (m & -> & Hm)]
  end.
  - unfold ofN, nmul, ndiv, inf_signed.
    rewrite (Rltb_true 0 d1) by lra. rewrite (Rltb_true 0 d2) by lra.
    rewrite Rltb_false by lra. reflexivity.
  - unfold ofN, nmul, ndiv. rewrite Reqb_false by lra.
    unfold nle, nlt. rewrite Rltb_false; [reflexivity |].
    unfold Rdiv. apply Rmult_le_compat_r.
    + left. apply Rinv_0_lt_compat. assumption.
    + apply Rmult_le_compat_l; assumption.
Qed.

Lemma safeZoom_monotone_in_eye_distance_witness :
  nle (safeZoomFor cv1000 img1000 (faceGeometry lmNarrow))
      (safeZoomFor cv1000 img1000 (faceGeometry lmWide)) = true.
Proof.
  apply (safeZoom_monotone_in_eye_distance cv1000 img1000 lmWide lmNarrow 200 100).
  - rewrite faceGeometry_lmNarrow, faceGeometry_lmWide. reflexivity.
  - rewrite faceGeometry_lmNarrow, faceGeometry_lmWide. reflexivity.
  - rewrite faceGeometry_lmWide. reflexivity.
  - rewrite faceGeometry_lmNarrow. reflexivity.
  - lra.
  - lra.
  - reflexivity.
Defined.

(** C8, as stated, fails: same image, same canvas, same eyes-center and
    angle; the eye distance goes down from 200 to 100 and the safe zoom goes
    down from 0.16 to 0.08. *)
Lemma smaller_eye_distance_smaller_safeZoom :
  eyesCenter (faceGeometry lmNarrow) = eyesCenter (faceGeometry lmWide)
  /\ angle (faceGeometry lmNarrow) = angle (faceGeometry lmWide)
  /\ currentEyesDist (faceGeometry lmWide) = Fin 200
  /\ currentEyesDist (faceGeometry lmNarrow) = Fin 100
  /\ safeZoomFor cv1000 img1000 (faceGeometry lmWide) = Fin (4 / 25)
  /\ safeZoomFor cv1000 img1000 (faceGeometry lmNarrow) = Fin (2 / 25)
  /\ nlt (safeZoomFor cv1000 img1000 (faceGeometry lmNarrow))
         (safeZoomFor cv1000 img1000 (faceGeometry lmWide)) = true.
Proof.
  rewrite safeZoomFor_wide, safeZoomFor_narrow.
  rewrite faceGeometry_lmNarrow, faceGeometry_lmWide.
  cbn [eyesCenter angle currentEyesDist]. repeat split; try reflexivity.
  num_eval. reflexivity.
Qed.

(** ** Items without a usable eye distance *)

(** C4, as the program has it.  The program has no threshold on the eye
    distance and no [DegenerateGeometry] failure.  For an item with
    detections whose two eye centres coincide (eye distance 0), in align
    mode with a positive zoom on a canvas of positive width: [renderFrame]
    takes the aligned branch, not the centred placement; the scale it
    computes is [+Infinity], which the canvas ignores, so the image is
    painted under a finite transform, unscaled and unrotated, with the
    eyes-center on the target.  [autoFitZoom] does not skip the item: when
    every item with detections has non-empty eye clusters and an image of
    positive width, the global safe zoom is 0 and the stored zoom is the
    lower limit 0.1. *)
Theorem coincident_eyes_not_guarded (w : World) (index : nat) (item : Item)
    (det : Detections) (z ex ey : R) :
  nth_error (images (state w)) index = Some item ->
  detections item = Some det ->
  alignEyes (state w) = true ->
  zoom (state w) = Fin z -> 0 < z ->
  (0 < cwidth (canvas (state w)))%N ->
  getCentroid (getLeftEye (landmarks det)) = mkNPoint (Fin ex) (Fin ey) ->
  getCentroid (getRightEye (landmarks det)) = mkNPoint (Fin ex) (Fin ey) ->
  (forall it d,
     In it (images (state w)) -> detections it = Some d ->
     getLeftEye (landmarks d) <> [] /\ getRightEye (landmarks d) <> []
     /\ (0 < width (original it))%N) ->
  currentEyesDist (faceGeometry (landmarks det)) = Fin 0
  /\ ndiv (nmul (ofN (cwidth (canvas (state w)))) (zoom (state w)))
          (currentEyesDist (faceGeometry (landmarks det))) = PInf
  /\ builtTransform (ctx (renderFrame index (state w)))
     = Some (mmul (ctm (ctx (state w)))
               (alignMatrix (IZR (Z.of_N (cwidth (canvas (state w)))) * (5 / 10))
                            (IZR (Z.of_N (cheight (canvas (state w)))) * (4 / 10))
                            1 0 ex ey))
  /\ safeZoomFor (canvas (state w)) (original item) (faceGeometry (landmarks det))
     = Fin 0
  /\ minSafeZoomOf (state w) = Fin 0
  /\ zoom (state (autoFitZoom w)) = Fin (1 / 10).
Proof.
  intros Hnth Hdet Hal Hz Hzpos Hcw HL HR Hwf.
  pose proof (IZR_of_N_pos _ Hcw) as Hcwpos.
  assert (Hin : In item (images (state w))) by (eapply nth_error_In; exact Hnth).
  assert (Hne : images (state w) <> []).
  { intros E. rewrite E in Hin. destruct Hin. }
  assert (Hg : faceGeometry (landmarks det)
               = mkFaceGeometry (mkNPoint (Fin ((ex + ex) / 2)) (Fin ey)) (Fin 0)
                                (Fin (ex - ex))).
  { rewrite (faceGeometry_finite _ _ _ _ _ HL HR). apply geometryOf_level. lra. }
  assert (Hd : currentEyesDist (faceGeometry (landmarks det)) = Fin 0).
  { rewrite Hg. cbn [currentEyesDist]. f_equal. lra. }
  assert (Hsafe : safeZoomFor (canvas (state w)) (original item)
                              (faceGeometry (landmarks det)) = Fin 0).
  { destruct (Hwf item det Hin Hdet) as (_ & _ & Hw).
    unfold safeZoomFor. rewrite Hd, Hg.
    destruct (maxScaleFor_bounded (canvas (state w)) (original item)
                ((ex + ex) / 2) ey 0 (Fin (ex - ex)) Hw) as (m & -> & _).
    unfold ofN, nmul, ndiv. rewrite Reqb_false by lra. f_equal.
    unfold Rdiv. ring. }
  assert (Hmin : minSafeZoomOf (state w) = Fin 0).
  { rewrite minSafeZoomOf_minimum.
    destruct (spec_minimumN_shape
                (Fin 1 :: safeZooms (canvas (state w)) (images (state w))))
      as (m & Hm & Hm0 & Hlow).
    - intros v [<- | Hv].
      + exists 1. split; [reflexivity | lra].
      + apply in_safeZooms in Hv. destruct Hv as (it & d & Hit & Hd' & ->).
        destruct (Hwf it d Hit Hd') as (HLne & HRne & Hw).
        apply safeZoomFor_bounded; assumption.
    - discriminate.
    - rewrite Hm. f_equal.
      assert (m <= 0); [| lra].
      apply Hlow. right. apply in_safeZooms. exists item, det.
      split; [exact Hin |]. split; [exact Hdet |]. symmetry. exact Hsafe. }
  split; [exact Hd |]. split.
  - rewrite Hd, Hz. unfold ofN, nmul, ndiv, inf_signed.
    rewrite Reqb_true by reflexivity.
    rewrite Rltb_true; [reflexivity |]. apply Rmult_lt_0_compat; assumption.
  - split.
    + unfold renderFrame. rewrite Hnth, Hal, Hdet, Hz. cbn [ctx setCtx].
      rewrite (drawAligned_coincident _ z item _ _ ex ey HL HR)
        by (apply Rmult_lt_0_compat; assumption).
      rewrite ctm_fillRect. reflexivity.
    + split; [exact Hsafe |]. split; [exact Hmin |].
      rewrite (autoFitZoom_zoom w Hne), Hmin.
      apply clampedZoomOf_nonpositive. lra.
Qed.

Lemma coincident_eyes_not_guarded_witness :
  builtTransform (ctx (renderFrame 1 (state (worldOf [itemWide; itemCoincident]))))
  = Some (mmul identityM
            (alignMatrix (1000 * (5 / 10)) (1000 * (4 / 10)) 1 0
                         ((490 + 510) / 2) ((495 + 505) / 2)))
  /\ minSafeZoomOf (state (worldOf [itemWide; itemCoincident])) = Fin 0
  /\ zoom (state (autoFitZoom (worldOf [itemWide; itemCoincident]))) = Fin (1 / 10).
Proof.
  destruct (coincident_eyes_not_guarded
              (worldOf [itemWide; itemCoincident]) 1 itemCoincident
              (mkDetections lmCoincident) (25 / 100)
              ((490 + 510) / 2) ((495 + 505) / 2))
    as (_ & _ & Hdraw & _ & Hmin & Hzoom).
  - reflexivity.
  - reflexivity.
  - reflexivity.
  - reflexivity.
  - lra.
  - reflexivity.
  - apply getCentroid_pair.
  - apply getCentroid_pair.
  - intros it d [<- | [<- | []]] E; injection E as <-;
      (split; [discriminate | split; [discriminate | reflexivity]]).
  - split; [exact Hdraw |]. split; [exact Hmin | exact Hzoom].
Defined.

(** What [renderFrame] paints for an image without detections on the sample
    canvas: the centred placement, under the identity. *)
Lemma renderFrame_noFace_transform :
  builtTransform (ctx (renderFrame 0 (stateOf [itemNoFace]))) = Some identityM.
Proof.
  unfold renderFrame, stateOf.
  cbn [images nth_error alignEyes detections itemNoFace canvas ctx zoom setCtx].
  unfold builtTransform.
  change (mkItem img1000 None) with itemNoFace.
  rewrite drawCentered_1000. rewrite ctm_fillRect. reflexivity.
Qed.

(** C4, as stated, fails.  An image with both eyes on one point is painted
    by the aligned branch, not by the centred placement used for an image
    without detections; and adding it to a sequence changes the zoom that
    [autoFitZoom] stores, from 0.15 to 0.1. *)
Lemma coincident_eyes_aligned_and_counted :
  currentEyesDist (faceGeometry lmCoincident) = Fin 0
  /\ builtTransform (ctx (renderFrame 0 (stateOf [itemCoincident])))
     <> builtTransform (ctx (renderFrame 0 (stateOf [itemNoFace])))
  /\ zoom (state (autoFitZoom (worldOf [itemWide]))) = Fin (15 / 100)
  /\ zoom (state (autoFitZoom (worldOf [itemWide; itemCoincident]))) = Fin (1 / 10)
  /\ zoom (state (autoFitZoom (worldOf [itemWide; itemCoincident])))
     <> zoom (state (autoFitZoom (worldOf [itemWide]))).
Proof.
  assert (H1 : zoom (state (autoFitZoom (worldOf [itemWide]))) = Fin (15 / 100)).
  { rewrite autoFitZoom_zoom by discriminate.
    change (state (worldOf [itemWide])) with (stateOf [itemWide]).
    rewrite minSafeZoomOf_wide. apply clampedZoomOf_wide. }
  assert (H2 : zoom (state (autoFitZoom (worldOf [itemWide; itemCoincident])))
               = Fin (1 / 10)).
  { rewrite autoFitZoom_zoom by discriminate.
    change (state (worldOf [itemWide; itemCoincident]))
      with (stateOf [itemWide; itemCoincident]).
    rewrite minSafeZoomOf_wide_coincident. apply clampedZoomOf_nonpositive. lra. }
  split; [rewrite faceGeometry_lmCoincident; reflexivity |]. split.
  - rewrite renderFrame_noFace_transform.
    unfold renderFrame, stateOf.
    cbn [images nth_error alignEyes detections itemCoincident canvas ctx zoom
         setCtx landmarks].
    rewrite (drawAligned_coincident cv1000 (25 / 100) _ lmCoincident _
               ((490 + 510) / 2) ((495 + 505) / 2)
               (getCentroid_pair _ _ _ _) (getCentroid_pair _ _ _ _))
      by (cbn [cv1000 cwidth Z.of_N]; lra).
    rewrite ctm_fillRect. cbn [setFillStyle ctm ctx0].
    rewrite mmul_identity_l. unfold alignMatrix, mmul, identityM.
    cbn [ma mb mc md me mf cv1000 cwidth cheight Z.of_N].
    rewrite Ropp_0, cos_0, sin_0. intros E. injection E. intros. lra.
  - split; [exact H1 |]. split; [exact H2 |].
    rewrite H1, H2. intros E. injection E as E. lra.
Qed.

Lemma renderFrame_emptyCluster (s : State) (index : nat) (item : Item)
    (det : Detections) :
  nth_error (images s) index = Some item ->
  alignEyes s = true ->
  detections item = Some det ->
  getLeftEye (landmarks det) = [] \/ getRightEye (landmarks det) = [] ->
  builtTransform (ctx (renderFrame index s))
  = Some (mmul (ctm (ctx s))
            (mkMatrix 1 0 0 1
               (IZR (Z.of_N (cwidth (canvas s))) * (5 / 10))
               (IZR (Z.of_N (cheight (canvas s))) * (4 / 10)))).
Proof.
  intros Hnth Hal Hdet Hempty.
  unfold renderFrame. rewrite Hnth, Hal, Hdet. cbn [ctx setCtx].
  destruct (drawAligned_emptyCluster (canvas s) (zoom s) item (landmarks det)
              (fillRect (Fin 0) (Fin 0) (ofN (cwidth (canvas s)))
                        (ofN (cheight (canvas s))) (setFillStyle "#000" (ctx s)))
              Hempty) as [_ Hdraw].
  rewrite Hdraw, ctm_fillRect. reflexivity.
Qed.

(** C9, as the program has it.  The representative point of an eye is the
    arithmetic mean of its landmark points when there is at least one.  On
    an empty cluster [getCentroid] does not fail: it returns [NaN]
    coordinates (0 / 0).  There is no [InvalidLandmarks] failure and the
    item is not treated as one without detections: in align mode
    [renderFrame] still takes the aligned branch, where every argument
    derived from the landmarks is [NaN], so that only the translation to the
    target takes effect. *)
Theorem getCentroid_mean_or_NaN :
  (forall pts : list Point,
     pts <> [] ->
     getCentroid pts
     = mkNPoint (Fin (spec_mean (map px pts))) (Fin (spec_mean (map py pts))))
  /\ getCentroid [] = mkNPoint NaN NaN
  /\ (forall (s : State) (index : nat) (item : Item) (det : Detections),
        nth_error (images s) index = Some item ->
        alignEyes s = true ->
        detections item = Some det ->
        getLeftEye (landmarks det) = [] \/ getRightEye (landmarks det) = [] ->
        faceGeometry (landmarks det) = mkFaceGeometry (mkNPoint NaN NaN) NaN NaN
        /\ builtTransform (ctx (renderFrame index s))
           = Some (mmul (ctm (ctx s))
                     (mkMatrix 1 0 0 1
                        (IZR (Z.of_N (cwidth (canvas s))) * (5 / 10))
                        (IZR (Z.of_N (cheight (canvas s))) * (4 / 10))))).
Proof.
  split; [exact getCentroid_nonempty |]. split; [exact getCentroid_empty |].
  intros s index item det Hnth Hal Hdet Hempty. split.
  - exact (proj1 (drawAligned_emptyCluster (canvas s) (zoom s) item
                    (landmarks det) (ctx s) Hempty)).
  - apply (renderFrame_emptyCluster s index item det); assumption.
Qed.

Lemma getCentroid_mean_or_NaN_witness :
  getCentroid [mkPoint 390 495; mkPoint 410 505]
  = mkNPoint (Fin (spec_mean (map px [mkPoint 390 495; mkPoint 410 505])))
             (Fin (spec_mean (map py [mkPoint 390 495; mkPoint 410 505])))
  /\ builtTransform (ctx (renderFrame 0 (stateOf [itemEmptyLeft])))
     = Some (mmul identityM (mkMatrix 1 0 0 1 (1000 * (5 / 10)) (1000 * (4 / 10)))).
Proof.
  destruct getCentroid_mean_or_NaN as (Hmean & _ & Hrender).
  split.
  - apply Hmean. discriminate.
  - destruct (Hrender (stateOf [itemEmptyLeft]) 0%nat itemEmptyLeft
                (mkDetections lmEmptyLeft)) as [_ Hdraw].
    + reflexivity.
    + reflexivity.
    + reflexivity.
    + left. reflexivity.
    + exact Hdraw.
Defined.

(** C9, as stated, fails: with an empty left-eye cluster the centroid is
    [NaN], nothing fails, and the image is not painted as an image without
    detections is. *)
Lemma empty_eye_cluster_not_letterboxed :
  getLeftEye lmEmptyLeft = []
  /\ getCentroid (getLeftEye lmEmptyLeft) = mkNPoint NaN NaN
  /\ builtTransform (ctx (renderFrame 0 (stateOf [itemEmptyLeft])))
     <> builtTransform (ctx (renderFrame 0 (stateOf [itemNoFace]))).
Proof.
  split; [reflexivity |]. split; [apply getCentroid_empty |].
  rewrite renderFrame_noFace_transform.
  rewrite (renderFrame_emptyCluster (stateOf [itemEmptyLeft]) 0 itemEmptyLeft
             (mkDetections lmEmptyLeft) eq_refl eq_refl eq_refl
             (or_introl eq_refl)).
  cbn [stateOf ctx ctx0 ctm canvas].
  rewrite mmul_identity_l. unfold identityM.
  cbn [cv1000 cwidth cheight Z.of_N]. intros E. injection E. intros. lra.
Qed.

(** * Further properties of the program *)

(** ** The angle of the eye line *)

Lemma sqrt_one_plus_sqr (t q : R) :
  0 <= q -> q * q = 1 + t * t -> sqrt (1 + t²) = q.
Proof.
  intros Hq Hqq. apply sqrt_lem_1.
  - unfold Rsqr. pose proof (Rle_0_sqr t) as H. unfold Rsqr in H. lra.
  - exact Hq.
  - unfold Rsqr. exact Hqq.
Qed.

(** [Math.atan2(dy, dx)] is the polar angle of [(dx, dy)]. *)
Lemma Ratan2_polar (dy dx : R) :
  0 < sqrt (dx * dx + dy * dy) ->
  sqrt (dx * dx + dy * dy) * cos (Ratan2 dy dx) = dx
  /\ sqrt (dx * dx + dy * dy) * sin (Ratan2 dy dx) = dy.
Proof.
  intros Hd. set (d := sqrt (dx * dx + dy * dy)) in *.
  assert (Hdd : d * d = dx * dx + dy * dy)
    by (unfold d; apply sqrt_sqrt, sumsq_nonneg).
  unfold Ratan2, Rltb.
  destruct (Rlt_dec 0 dx) as [Hx | Hx].
  - assert (Hq : sqrt (1 + (dy / dx)²) = d / dx).
    { apply sqrt_one_plus_sqr.
      - unfold Rdiv. apply Rmult_le_pos; [lra |]. left.
        apply Rinv_0_lt_compat. exact Hx.
      - transitivity ((d * d) / (dx * dx)); [field; lra |].
        rewrite Hdd. field. lra. }
    rewrite cos_atan, sin_atan, Hq. split; field; lra.
  - destruct (Rlt_dec dx 0) as [Hn | Hn].
    + assert (Hq : sqrt (1 + (dy / dx)²) = d / - dx).
      { apply sqrt_one_plus_sqr.
        - unfold Rdiv. apply Rmult_le_pos; [lra |]. left.
          apply Rinv_0_lt_compat. lra.
        - transitivity ((d * d) / (dx * dx)); [field; lra |].
          rewrite Hdd. field. lra. }
      destruct (Rlt_dec dy 0).
      * rewrite cos_minus, sin_minus, cos_PI, sin_PI, cos_atan, sin_atan, Hq.
        split; field; lra.
      * rewrite neg_cos, neg_sin, cos_atan, sin_atan, Hq.
        split; field; lra.
    + assert (dx = 0) by lra. subst dx.
      assert (Hyy : d * d = dy * dy) by lra.
      destruct (Rlt_dec 0 dy).
      * rewrite cos_PI2, sin_PI2. split; [ring |]. nra.
      * destruct (Rlt_dec dy 0).
        -- rewrite cos_neg, sin_neg, cos_PI2, sin_PI2. split; [ring |]. nra.
        -- exfalso. assert (dy = 0) by lra. subst dy.
           assert (d * d = 0) by lra. nra.
Qed.

(** The aligning matrix, applied to a point: rotate about the eyes-center,
    scale, move to the target. *)
Lemma alignMatrix_apply (tx ty s ang cx cy : R) (p : R * R) :
  applyM (alignMatrix tx ty s ang cx cy) p
  = (s * ((fst p - cx) * cos (- ang) - (snd p - cy) * sin (- ang)) + tx,
     s * ((fst p - cx) * sin (- ang) + (snd p - cy) * cos (- ang)) + ty).
Proof.
  unfold applyM, alignMatrix, mmul. cbn [ma mb mc md me mf]. f_equal; ring.
Qed.

(** The aligning matrix built on the eye line sends the two eye centres to
    the same height, half the scaled eye distance on either side of the
    target. *)
Lemma alignMatrix_eyes (tx ty s lx ly rx ry : R) :
  let d := sqrt ((rx + - lx) * (rx + - lx) + (ry + - ly) * (ry + - ly)) in
  let m := alignMatrix tx ty s (Ratan2 (ry + - ly) (rx + - lx))
                       ((lx + rx) / 2) ((ly + ry) / 2) in
  0 < d ->
  applyM m (lx, ly) = (tx - s * d / 2, ty)
  /\ applyM m (rx, ry) = (tx + s * d / 2, ty).
Proof.
  intros d m Hd. unfold m. rewrite !alignMatrix_apply. cbn [fst snd].
  rewrite cos_neg, sin_neg.
  destruct (Ratan2_polar (ry + - ly) (rx + - lx) Hd) as [HC HS].
  fold d in HC, HS.
  pose proof (sin2_cos2 (Ratan2 (ry + - ly) (rx + - lx))) as Hsc.
  unfold Rsqr in Hsc.
  set (C := cos (Ratan2 (ry + - ly) (rx + - lx))) in *.
  set (S := sin (Ratan2 (ry + - ly) (rx + - lx))) in *.
  replace (lx - (lx + rx) / 2) with (- (d * C) / 2) by lra.
  replace (ly - (ly + ry) / 2) with (- (d * S) / 2) by lra.
  replace (rx - (lx + rx) / 2) with (d * C / 2) by lra.
  replace (ry - (ly + ry) / 2) with (d * S / 2) by lra.
  split; f_equal.
  - transitivity (tx - s * d / 2 * (S * S + C * C)); [field | rewrite Hsc; ring].
  - field.
  - transitivity (tx + s * d / 2 * (S * S + C * C)); [field | rewrite Hsc; ring].
  - field.
Qed.

(** ** Aligned frames: where the eyes land *)

(** X1.  In align mode, for an item whose eye distance is positive, the
    transform built by [renderFrame] puts the two eye centres on one
    horizontal line through the target: the left one at
    (targetX - canvasWidth * zoom / 2, targetY), the right one at
    (targetX + canvasWidth * zoom / 2, targetY). *)
Theorem eyes_levelled_about_target (s : State) (index : nat) (item : Item)
    (det : Detections) (z d : R) :
  nth_error (images s) index = Some item ->
  alignEyes s = true ->
  detections item = Some det ->
  ctm (ctx s) = identityM ->
  zoom s = Fin z ->
  currentEyesDist (faceGeometry (landmarks det)) = Fin d -> 0 < d ->
  exists m lx ly rx ry,
    getCentroid (getLeftEye (landmarks det)) = mkNPoint (Fin lx) (Fin ly)
    /\ getCentroid (getRightEye (landmarks det)) = mkNPoint (Fin rx) (Fin ry)
    /\ builtTransform (ctx (renderFrame index s)) = Some m
    /\ applyM m (lx, ly)
       = (IZR (Z.of_N (cwidth (canvas s))) * (5 / 10)
          - IZR (Z.of_N (cwidth (canvas s))) * z / 2,
          IZR (Z.of_N (cheight (canvas s))) * (4 / 10))
    /\ applyM m (rx, ry)
       = (IZR (Z.of_N (cwidth (canvas s))) * (5 / 10)
          + IZR (Z.of_N (cwidth (canvas s))) * z / 2,
          IZR (Z.of_N (cheight (canvas s))) * (4 / 10)).
Proof.
  intros Hnth Hal Hdet Hctm Hz Hd Hdpos.
  destruct (finite_dist_centroids _ _ Hd) as (lx & ly & rx & ry & HL & HR & _ & _).
  pose proof (faceGeometry_finite _ _ _ _ _ HL HR) as Hg.
  rewrite Hg in Hd. cbn [geometryOf currentEyesDist] in Hd. injection Hd as Hd.
  exists (alignMatrix (IZR (Z.of_N (cwidth (canvas s))) * (5 / 10))
                      (IZR (Z.of_N (cheight (canvas s))) * (4 / 10))
                      (IZR (Z.of_N (cwidth (canvas s))) * z / d)
                      (Ratan2 (ry + - ly) (rx + - lx))
                      ((lx + rx) / 2) ((ly + ry) / 2)).
  exists lx, ly, rx, ry.
  split; [exact HL |]. split; [exact HR |]. split.
  - rewrite (renderFrame_aligned s index item det z lx ly rx ry Hnth Hal Hdet Hz HL HR)
      by (rewrite Hd; lra).
    rewrite Hctm, mmul_identity_l, Hd. reflexivity.
  - destruct (alignMatrix_eyes (IZR (Z.of_N (cwidth (canvas s))) * (5 / 10))
                (IZR (Z.of_N (cheight (canvas s))) * (4 / 10))
                (IZR (Z.of_N (cwidth (canvas s))) * z / d) lx ly rx ry)
      as [HLm HRm].
    + rewrite Hd. exact Hdpos.
    + rewrite HLm, HRm, Hd. split; f_equal; field; lra.
Qed.

Lemma eyes_levelled_about_target_witness :
  exists m lx ly rx ry,
    getCentroid (getLeftEye lmWide) = mkNPoint (Fin lx) (Fin ly)
    /\ getCentroid (getRightEye lmWide) = mkNPoint (Fin rx) (Fin ry)
    /\ builtTransform (ctx (renderFrame 0 (stateOf [itemWide]))) = Some m
    /\ applyM m (lx, ly) = (1000 * (5 / 10) - 1000 * (25 / 100) / 2, 1000 * (4 / 10))
    /\ applyM m (rx, ry) = (1000 * (5 / 10) + 1000 * (25 / 100) / 2, 1000 * (4 / 10)).
Proof.
  apply (eyes_levelled_about_target (stateOf [itemWide]) 0 itemWide
           (mkDetections lmWide) (25 / 100) 200).
  - reflexivity.
  - reflexivity.
  - reflexivity.
  - reflexivity.
  - reflexivity.
  - cbn [landmarks]. rewrite faceGeometry_lmWide. reflexivity.
  - lra.
Defined.

(** ** What [maxScaleForThisImage] guarantees *)

Lemma axis_inside (extent target rot s : R) :
  0 <= target <= extent -> 0 <= s ->
  (forall b, spec_axisBound extent target rot = Some b -> s <= b) ->
  0 <= s * rot + target <= extent.
Proof.
  intros [Ht He] Hs Hb. unfold spec_axisBound, Rltb in Hb.
  destruct (Rlt_dec 0 rot) as [Hp | Hp].
  - specialize (Hb _ eq_refl).
    assert (s * rot <= (extent - target) / rot * rot)
      by (apply Rmult_le_compat_r; lra).
    replace ((extent - target) / rot * rot) with (extent - target) in H
      by (field; lra).
    split; [| lra]. pose proof (Rmult_le_pos s rot Hs ltac:(lra)). lra.
  - destruct (Rlt_dec rot 0) as [Hn | Hn].
    + specialize (Hb _ eq_refl).
      assert (s * - rot <= - target / rot * - rot)
        by (apply Rmult_le_compat_r; lra).
      replace (- target / rot * - rot) with target in H by (field; lra).
      split; [lra |]. pose proof (Rmult_le_pos s (- rot) Hs ltac:(lra)). lra.
    + assert (rot = 0) by lra. subst rot. lra.
Qed.

Lemma axis_outside (extent target rot s b : R) :
  spec_axisBound extent target rot = Some b -> b < s ->
  ~ 0 <= s * rot + target <= extent.
Proof.
  unfold spec_axisBound, Rltb. intros Hb Hlt [Hlo Hhi].
  destruct (Rlt_dec 0 rot) as [Hp | Hp].
  - injection Hb as <-.
    assert ((extent - target) / rot * rot < s * rot)
      by (apply Rmult_lt_compat_r; lra).
    replace ((extent - target) / rot * rot) with (extent - target) in H
      by (field; lra).
    lra.
  - destruct (Rlt_dec rot 0) as [Hn | Hn]; [| discriminate].
    injection Hb as <-.
    assert (- target / rot * - rot < s * - rot)
      by (apply Rmult_lt_compat_r; lra).
    replace (- target / rot * - rot) with target in H by (field; lra).
    lra.
Qed.

Lemma spec_minimum_lower (l : list R) (s : R) :
  nle (Fin s) (spec_minimum l) = true -> forall b, In b l -> s <= b.
Proof.
  intros Hle b Hb.
  destruct (spec_minimum_shape l) as [[-> _] | (m & Hm & _ & Hmin)].
  - destruct Hb.
  - rewrite Hm in Hle. unfold nle, nlt, Rltb in Hle.
    destruct (Rlt_dec m s); [discriminate |].
    specialize (Hmin b Hb). lra.
Qed.

Lemma in_spec_bounds_x (cw ch w h cx cy a b : R) (corner : R * R) :
  In corner (spec_corners w h) ->
  spec_axisBound cw (cw * (5 / 10)) (fst (spec_rotated cx cy a corner)) = Some b ->
  In b (spec_bounds cw ch w h cx cy a).
Proof.
  intros Hc Hb. unfold spec_bounds. apply in_flat_map. exists corner.
  split; [exact Hc |]. cbv zeta. rewrite Hb. left. reflexivity.
Qed.

Lemma in_spec_bounds_y (cw ch w h cx cy a b : R) (corner : R * R) :
  In corner (spec_corners w h) ->
  spec_axisBound ch (ch * (4 / 10)) (snd (spec_rotated cx cy a corner)) = Some b ->
  In b (spec_bounds cw ch w h cx cy a).
Proof.
  intros Hc Hb. unfold spec_bounds. apply in_flat_map. exists corner.
  split; [exact Hc |]. cbv zeta. rewrite Hb. apply in_or_app. right.
  left. reflexivity.
Qed.

(** A scale within the minimum of the bounds keeps every corner on the
    canvas. *)
Lemma corners_inside (cw ch w h cx cy a s : R) (corner : R * R) :
  0 <= cw -> 0 <= ch -> 0 <= s ->
  nle (Fin s) (spec_minimum (spec_bounds cw ch w h cx cy a)) = true ->
  In corner (spec_corners w h) ->
  let q := applyM (alignMatrix (cw * (5 / 10)) (ch * (4 / 10)) s a cx cy) corner in
  0 <= fst q <= cw /\ 0 <= snd q <= ch.
Proof.
  intros Hcw Hch Hs Hle Hc q. unfold q. rewrite alignMatrix_apply. cbn [fst snd].
  pose proof (spec_minimum_lower _ _ Hle) as Hlow. split.
  - apply axis_inside; [lra | exact Hs |].
    intros b Hb. apply Hlow. apply (in_spec_bounds_x _ _ _ _ _ _ _ _ corner Hc Hb).
  - apply axis_inside; [lra | exact Hs |].
    intros b Hb. apply Hlow. apply (in_spec_bounds_y _ _ _ _ _ _ _ _ corner Hc Hb).
Qed.

(** A scale above the minimum of the bounds sends a corner off the canvas. *)
Lemma corner_outside (cw ch w h cx cy a s m : R) :
  spec_minimum (spec_bounds cw ch w h cx cy a) = Fin m -> m < s ->
  exists corner,
    In corner (spec_corners w h)
    /\ let q := applyM (alignMatrix (cw * (5 / 10)) (ch * (4 / 10)) s a cx cy) corner in
       ~ (0 <= fst q <= cw /\ 0 <= snd q <= ch).
Proof.
  intros Hm Hlt.
  destruct (spec_minimum_shape (spec_bounds cw ch w h cx cy a))
    as [[_ HInf] | (m' & Hm' & Hin & _)].
  - rewrite HInf in Hm. discriminate.
  - rewrite Hm' in Hm. injection Hm as ->.
    unfold spec_bounds in Hin. apply in_flat_map in Hin.
    destruct Hin as (corner & Hc & Hin). exists corner. split; [exact Hc |].
    cbv zeta. rewrite alignMatrix_apply. cbn [fst snd].
    apply in_app_or in Hin. destruct Hin as [Hin | Hin]; apply optList_in in Hin.
    + intros [Hx _]. exact (axis_outside _ _ _ _ _ Hin Hlt Hx).
    + intros [_ Hy]. exact (axis_outside _ _ _ _ _ Hin Hlt Hy).
Qed.

(** The scale [renderFrame] computes for an item, as a real, when the zoom
    and the eye distance are finite and the distance is not zero. *)
Lemma render_scale_finite (cv : Canvas) (z d : R) :
  d <> 0 ->
  ndiv (nmul (ofN (cwidth cv)) (Fin z)) (Fin d)
  = Fin (IZR (Z.of_N (cwidth cv)) * z / d).
Proof. intros Hd. unfold ofN, nmul, ndiv. rewrite (Reqb_false _ _ Hd). reflexivity. Qed.

(** The corners of an aligned image, when the scale is within the bound. *)
Lemma aligned_corners_on_canvas (s : State) (index : nat) (item : Item)
    (det : Detections) (z d : R) :
  nth_error (images s) index = Some item ->
  alignEyes s = true ->
  detections item = Some det ->
  ctm (ctx s) = identityM ->
  zoom s = Fin z -> 0 <= z ->
  currentEyesDist (faceGeometry (landmarks det)) = Fin d -> 0 < d ->
  nle (ndiv (nmul (ofN (cwidth (canvas s))) (zoom s))
            (currentEyesDist (faceGeometry (landmarks det))))
      (maxScaleFor (canvas s) (original item) (faceGeometry (landmarks det)))
  = true ->
  exists m,
    builtTransform (ctx (renderFrame index s)) = Some m
    /\ forall corner, In corner (imageCorners (original item)) ->
                      onCanvas (canvas s) (applyM m corner).
Proof.
  intros Hnth Hal Hdet Hctm Hz Hzpos Hd Hdpos Hle.
  rewrite Hz, Hd, render_scale_finite in Hle by lra.
  destruct (finite_dist_centroids _ _ Hd) as (lx & ly & rx & ry & HL & HR & _ & _).
  pose proof (faceGeometry_finite _ _ _ _ _ HL HR) as Hg.
  rewrite Hg in Hd, Hle. cbn [geometryOf currentEyesDist] in Hd. injection Hd as Hd.
  unfold geometryOf in Hle. rewrite maxScaleFor_finite in Hle.
  eexists. split.
  - rewrite (renderFrame_aligned s index item det z lx ly rx ry Hnth Hal Hdet Hz HL HR)
      by (rewrite Hd; lra).
    rewrite Hctm, mmul_identity_l, Hd. reflexivity.
  - intros corner Hc. unfold onCanvas.
    apply (corners_inside _ _ (IZR (Z.of_N (width (original item))))
             (IZR (Z.of_N (height (original item)))) _ _ _ _ corner
             (IZR_of_N_nonneg _) (IZR_of_N_nonneg _)); [| exact Hle | exact Hc].
    unfold Rdiv. apply Rmult_le_pos.
    + apply Rmult_le_pos; [apply IZR_of_N_nonneg | exact Hzpos].
    + left. apply Rinv_0_lt_compat. exact Hdpos.
Qed.

(** X2.  In align mode, for an item whose eye distance is positive and a
    zoom that is not negative: when the scale [renderFrame] computes
    (canvasWidth * zoom / eyeDistance) does not exceed the
    [maxScaleForThisImage] of [autoFitZoom], the built transform sends all
    four corners of the image onto the canvas. *)
Theorem scale_within_bound_keeps_corners (s : State) (index : nat) (item : Item)
    (det : Detections) (z d : R) :
  nth_error (images s) index = Some item ->
  alignEyes s = true ->
  detections item = Some det ->
  ctm (ctx s) = identityM ->
  zoom s = Fin z -> 0 <= z ->
  currentEyesDist (faceGeometry (landmarks det)) = Fin d -> 0 < d ->
  nle (ndiv (nmul (ofN (cwidth (canvas s))) (zoom s))
            (currentEyesDist (faceGeometry (landmarks det))))
      (maxScaleFor (canvas s) (original item) (faceGeometry (landmarks det)))
  = true ->
  exists m,
    builtTransform (ctx (renderFrame index s)) = Some m
    /\ forall corner, In corner (imageCorners (original item)) ->
                      onCanvas (canvas s) (applyM m corner).
Proof.
  intros Hnth Hal Hdet Hctm Hz Hzpos Hd Hdpos Hle.
  exact (aligned_corners_on_canvas s index item det z d
           Hnth Hal Hdet Hctm Hz Hzpos Hd Hdpos Hle).
Qed.

Lemma scale_within_bound_keeps_corners_witness :
  exists m,
    builtTransform
      (ctx (renderFrame 0 (setZoom (Fin (5 / 100)) (stateOf [itemNarrow])))) = Some m
    /\ forall corner, In corner (imageCorners img1000) ->
                      onCanvas cv1000 (applyM m corner).
Proof.
  apply (scale_within_bound_keeps_corners
           (setZoom (Fin (5 / 100)) (stateOf [itemNarrow])) 0 itemNarrow
           (mkDetections lmNarrow) (5 / 100) 100).
  - reflexivity.
  - reflexivity.
  - reflexivity.
  - reflexivity.
  - reflexivity.
  - lra.
  - cbn [landmarks]. rewrite faceGeometry_lmNarrow. reflexivity.
  - lra.
  - cbn [setZoom stateOf canvas zoom itemNarrow original detections landmarks].
    rewrite faceGeometry_lmNarrow, maxScaleFor_centre_1000.
    cbn [currentEyesDist cv1000 cwidth]. num_eval. reflexivity.
Defined.

(** X3.  The bound is tight: in align mode, for an item whose eye distance
    is positive, when the scale [renderFrame] computes exceeds the
    [maxScaleForThisImage] of [autoFitZoom], the built transform sends at
    least one corner of the image off the canvas. *)
Theorem scale_above_bound_clips_a_corner (s : State) (index : nat) (item : Item)
    (det : Detections) (z d : R) :
  nth_error (images s) index = Some item ->
  alignEyes s = true ->
  detections item = Some det ->
  ctm (ctx s) = identityM ->
  zoom s = Fin z ->
  currentEyesDist (faceGeometry (landmarks det)) = Fin d -> 0 < d ->
  nlt (maxScaleFor (canvas s) (original item) (faceGeometry (landmarks det)))
      (ndiv (nmul (ofN (cwidth (canvas s))) (zoom s))
            (currentEyesDist (faceGeometry (landmarks det))))
  = true ->
  exists m corner,
    builtTransform (ctx (renderFrame index s)) = Some m
    /\ In corner (imageCorners (original item))
    /\ ~ onCanvas (canvas s) (applyM m corner).
Proof.
  intros Hnth Hal Hdet Hctm Hz Hd Hdpos Hlt.
  rewrite Hz, Hd, render_scale_finite in Hlt by lra.
  destruct (finite_dist_centroids _ _ Hd) as (lx & ly & rx & ry & HL & HR & _ & _).
  pose proof (faceGeometry_finite _ _ _ _ _ HL HR) as Hg.
  rewrite Hg in Hd, Hlt. cbn [geometryOf currentEyesDist] in Hd. injection Hd as Hd.
  unfold geometryOf in Hlt. rewrite maxScaleFor_finite in Hlt.
  match type of Hlt with
  | nlt (spec_minimum ?l) _ = true =>
      destruct (spec_minimum_shape l) as [[_ HInf] | (m & Hm & _)]
  end.
  - rewrite HInf in Hlt. discriminate.
  - rewrite Hm in Hlt. unfold nlt in Hlt. apply Rltb_spec in Hlt.
    destruct (corner_outside _ _ _ _ _ _ _ _ _ Hm Hlt) as (corner & Hc & Hout).
    eexists. exists corner. split; [| split; [exact Hc | exact Hout]].
    rewrite (renderFrame_aligned s index item det z lx ly rx ry Hnth Hal Hdet Hz HL HR)
      by (rewrite Hd; lra).
    rewrite Hctm, mmul_identity_l, Hd. reflexivity.
Qed.

Lemma scale_above_bound_clips_a_corner_witness :
  exists m corner,
    builtTransform (ctx (renderFrame 0 (stateOf [itemWide]))) = Some m
    /\ In corner (imageCorners img1000)
    /\ ~ onCanvas cv1000 (applyM m corner).
Proof.
  apply (scale_above_bound_clips_a_corner (stateOf [itemWide]) 0 itemWide
           (mkDetections lmWide) (25 / 100) 200).
  - reflexivity.
  - reflexivity.
  - reflexivity.
  - reflexivity.
  - reflexivity.
  - cbn [landmarks]. rewrite faceGeometry_lmWide. reflexivity.
  - lra.
  - cbn [stateOf canvas zoom itemWide original detections landmarks].
    rewrite faceGeometry_lmWide, maxScaleFor_centre_1000.
    cbn [currentEyesDist cv1000 cwidth]. num_eval. reflexivity.
Defined.

(** ** What [renderFrame] and [autoFitZoom] leave alone *)

Lemma renderFrame_only_ctx (i : nat) (s : State) :
  renderFrame i s = setCtx (ctx (renderFrame i s)) s.
Proof.
  unfold renderFrame. destruct (nth_error (images s) i) as [item |].
  - destruct (alignEyes s), (detections item); reflexivity.
  - destruct s. reflexivity.
Qed.

Lemma saved_drawImage5 (img : Image) (a b w h : num) (c : Ctx) :
  saved (drawImage5 img a b w h c) = saved c.
Proof. destruct a, b, w, h; reflexivity. Qed.

Lemma saved_fillRect (a b w h : num) (c : Ctx) : saved (fillRect a b w h c) = saved c.
Proof. destruct a, b, w, h; reflexivity. Qed.

Lemma painted_translate (a b : num) (c : Ctx) : painted (translate a b c) = painted c.
Proof. destruct a, b; reflexivity. Qed.

Lemma painted_scale (a b : num) (c : Ctx) : painted (scale a b c) = painted c.
Proof. destruct a, b; reflexivity. Qed.

Lemma painted_rotate (a : num) (c : Ctx) : painted (rotate a c) = painted c.
Proof. destruct a; reflexivity. Qed.

Lemma fillStyle_translate (a b : num) (c : Ctx) : fillStyle (translate a b c) = fillStyle c.
Proof. destruct a, b; reflexivity. Qed.

Lemma fillStyle_drawImage5 (img : Image) (a b w h : num) (c : Ctx) :
  fillStyle (drawImage5 img a b w h c) = fillStyle c.
Proof. destruct a, b, w, h; reflexivity. Qed.

(** The aligned branch, seen from outside: the drawing state is put back as
    it was, and exactly one image has been painted. *)
Lemma drawAligned_outcome (cv : Canvas) (zm : num) (item : Item) (lm : Landmarks)
    (c : Ctx) :
  exists m,
    drawAligned cv zm item lm c
    = mkCtx (fillStyle c) (ctm c) (saved c)
        (PImage (original item) m 0 0 (IZR (Z.of_N (width (original item))))
                (IZR (Z.of_N (height (original item)))) :: painted c).
Proof.
  unfold drawAligned. cbv zeta.
  set (c4 := translate _ _ (rotate _ (scale _ _ (translate _ _ (save c))))).
  assert (Hsaved : saved c4 = (ctm c, fillStyle c) :: saved c).
  { unfold c4. rewrite saved_translate, saved_rotate, saved_scale, saved_translate.
    reflexivity. }
  assert (Hpainted : painted c4 = painted c).
  { unfold c4. rewrite painted_translate, painted_rotate, painted_scale,
      painted_translate. reflexivity. }
  exists (ctm c4). unfold drawImage3, paint, restore. cbn [saved painted].
  rewrite Hsaved, Hpainted. reflexivity.
Qed.

(** The centred branch, seen from outside: at most one image painted under
    the matrix in force, nothing else touched. *)
Lemma drawCentered_outcome (cv : Canvas) (item : Item) (c : Ctx) :
  drawCentered cv item c = c
  \/ exists a b w h,
       drawCentered cv item c
       = mkCtx (fillStyle c) (ctm c) (saved c)
           (PImage (original item) (ctm c) a b w h :: painted c).
Proof.
  unfold drawCentered. cbv zeta. unfold drawImage5.
  repeat match goal with
  | |- context [match ?v with Fin _ => _ | PInf => _ | NInf => _ | NaN => _ end] =>
      destruct v
  end; try (left; reflexivity).
  right. do 4 eexists. reflexivity.
Qed.

Lemma autoFitZoom_state (w : World) :
  images (state w) <> [] ->
  state (autoFitZoom w)
  = (if isPlaying (state w)
     then setZoom (clampedZoomOf (minSafeZoomOf (state w))) (state w)
     else renderFrame (currentFrame (state w))
            (setZoom (clampedZoomOf (minSafeZoomOf (state w))) (state w))).
Proof.
  intros Hne. unfold autoFitZoom.
  destruct (images (state w)) as [| it rest] eqn:E; [contradiction |].
  cbn [isPlaying setZoom]. destruct (isPlaying (state w)); reflexivity.
Qed.

Lemma autoFitZoom_only_zoom_ctx (w : World) :
  state (autoFitZoom w)
  = setCtx (ctx (state (autoFitZoom w)))
           (setZoom (zoom (state (autoFitZoom w))) (state w)).
Proof.
  destruct (images (state w)) as [| it rest] eqn:E.
  - unfold autoFitZoom. rewrite E. destruct (state w). reflexivity.
  - rewrite autoFitZoom_state by (rewrite E; discriminate).
    destruct (isPlaying (state w)).
    + destruct (state w). reflexivity.
    + rewrite renderFrame_only_ctx at 1. rewrite renderFrame_zoom.
      destruct (state w). reflexivity.
Qed.

(** ** Auto-fit keeps every aligned image on the canvas *)

(** A stored zoom above the lower limit of the slider is at most the global
    safe zoom it was computed from. *)
Lemma clampedZoomOf_below (z : num) (zf : R) :
  clampedZoomOf z = Fin zf -> 1 / 10 < zf ->
  z = PInf \/ exists zr, z = Fin zr /\ zf <= zr.
Proof.
  destruct z as [zr | | |].
  - intros Hc Hzf. right. exists zr. split; [reflexivity |].
    unfold clampedZoomOf, finalZoomOf in Hc. revert Hc. num_unfold.
    pose proof (Zfloor_bound (zr * (95 / 100) * 100)) as [Hfl _].
    set (k := IZR (Zfloor (zr * (95 / 100) * 100))) in *.
    rewrite (Reqb_false 100 0) by lra. unfold Rltb.
    destruct (Rlt_dec (k / 100) 1); num_unfold; unfold Rltb;
      repeat match goal with
      | |- context [Rlt_dec ?p ?q] => destruct (Rlt_dec p q)
      end; intros E; injection E as <-; lra.
  - intros _ _. left. reflexivity.
  - intros Hc Hzf. exfalso. unfold clampedZoomOf, finalZoomOf in Hc.
    revert Hc. num_eval. intros E. injection E as <-. lra.
  - discriminate.
Qed.

(** The scale of an item at the stored zoom is within its bound. *)
Lemma stored_zoom_within_bound (w : World) (zf d : R) (item : Item)
    (det : Detections) :
  (0 < cwidth (canvas (state w)))%N ->
  zoom (state (autoFitZoom w)) = Fin zf -> 1 / 10 < zf ->
  In item (images (state w)) ->
  detections item = Some det ->
  currentEyesDist (faceGeometry (landmarks det)) = Fin d -> 0 < d ->
  nle (ndiv (nmul (ofN (cwidth (canvas (state w)))) (Fin zf)) (Fin d))
      (maxScaleFor (canvas (state w)) (original item) (faceGeometry (landmarks det)))
  = true.
Proof.
  intros Hcw Hzoom Hzf Hin Hdet Hd Hdpos.
  assert (Hne : images (state w) <> []).
  { intros E. rewrite E in Hin. destruct Hin. }
  rewrite (autoFitZoom_zoom w Hne) in Hzoom.
  pose proof (IZR_of_N_pos _ Hcw) as Hcwpos.
  rewrite render_scale_finite by lra.
  assert (Hmin : exists zr, minSafeZoomOf (state w) = Fin zr /\ zf <= zr).
  { destruct (clampedZoomOf_below _ _ Hzoom Hzf) as [HInf | Hfin]; [| exact Hfin].
    exfalso. rewrite minSafeZoomOf_minimum in HInf.
    change (spec_minimumN (Fin 1 :: safeZooms (canvas (state w)) (images (state w))))
      with (nmin (Fin 1) (spec_minimumN (safeZooms (canvas (state w)) (images (state w)))))
      in HInf.
    destruct (spec_minimumN (safeZooms (canvas (state w)) (images (state w))));
      revert HInf; num_cases. }
  destruct Hmin as (zr & Hzr & Hle).
  assert (Hlow : nle (Fin zr)
                     (safeZoomFor (canvas (state w)) (original item)
                                  (faceGeometry (landmarks det))) = true).
  { rewrite <- Hzr, minSafeZoomOf_minimum.
    apply spec_minimumN_lower.
    - rewrite <- minSafeZoomOf_minimum, Hzr. discriminate.
    - right. apply in_safeZooms. exists item, det. auto. }
  unfold safeZoomFor in Hlow. rewrite Hd in Hlow.
  destruct (finite_dist_centroids _ _ Hd) as (lx & ly & rx & ry & HL & HR & _ & _).
  rewrite (faceGeometry_finite _ _ _ _ _ HL HR) in *. unfold geometryOf in *.
  match goal with
  | |- context [maxScaleFor ?cv ?img (mkFaceGeometry (mkNPoint (Fin ?cx) (Fin ?cy)) (Fin ?a) ?dd)] =>
      destruct (maxScaleFor_shape cv img cx cy a dd) as [HM | (m & HM & Hm)];
        rewrite HM in *
  end.
  - reflexivity.
  - revert Hlow. unfold ofN, nmul, ndiv. rewrite Reqb_false by lra.
    unfold nle, nlt, Rltb.
    destruct (Rlt_dec (m * d / IZR (Z.of_N (cwidth (canvas (state w))))) zr);
      [discriminate |]. intros _.
    destruct (Rlt_dec m (IZR (Z.of_N (cwidth (canvas (state w)))) * zf / d))
      as [Hlt | Hge]; [| reflexivity].
    exfalso.
    assert (H1 : m * d < IZR (Z.of_N (cwidth (canvas (state w)))) * zf).
    { apply (Rmult_lt_compat_r d) in Hlt; [| exact Hdpos].
      replace (IZR (Z.of_N (cwidth (canvas (state w)))) * zf / d * d)
        with (IZR (Z.of_N (cwidth (canvas (state w)))) * zf) in Hlt by (field; lra).
      exact Hlt. }
    assert (H2 : zr * IZR (Z.of_N (cwidth (canvas (state w)))) <= m * d).
    { apply Rnot_lt_le in n.
      apply (Rmult_le_compat_r (IZR (Z.of_N (cwidth (canvas (state w)))))) in n;
        [| lra].
      replace (m * d / IZR (Z.of_N (cwidth (canvas (state w))))
               * IZR (Z.of_N (cwidth (canvas (state w)))))
        with (m * d) in n by (field; lra).
      exact n. }
    assert (H3 : zf * IZR (Z.of_N (cwidth (canvas (state w))))
                 <= zr * IZR (Z.of_N (cwidth (canvas (state w)))))
      by (apply Rmult_le_compat_r; lra).
    lra.
Qed.

(** X4.  Auto-fit does what it is for.  On a canvas of positive width, when
    [autoFitZoom] stores a zoom above the lower limit 0.1 of the slider,
    every item with detections and a positive eye distance is then drawn, in
    align mode, with all four corners of its image on the canvas. *)
Theorem autoFitZoom_keeps_corners_on_canvas (w : World) (zf d : R) (index : nat)
    (item : Item) (det : Detections) :
  ctm (ctx (state w)) = identityM ->
  alignEyes (state w) = true ->
  (0 < cwidth (canvas (state w)))%N ->
  zoom (state (autoFitZoom w)) = Fin zf -> 1 / 10 < zf ->
  nth_error (images (state w)) index = Some item ->
  detections item = Some det ->
  currentEyesDist (faceGeometry (landmarks det)) = Fin d -> 0 < d ->
  exists m,
    builtTransform (ctx (renderFrame index (state (autoFitZoom w)))) = Some m
    /\ forall corner, In corner (imageCorners (original item)) ->
                      onCanvas (canvas (state w)) (applyM m corner).
Proof.
  intros Hctm Hal Hcw Hzoom Hzf Hnth Hdet Hd Hdpos.
  pose proof (stored_zoom_within_bound w zf d item det Hcw Hzoom Hzf
                (nth_error_In _ _ Hnth) Hdet Hd Hdpos) as Hle.
  pose proof (autoFitZoom_only_zoom_ctx w) as Hst.
  set (s' := state (autoFitZoom w)) in *.
  assert (Himg : images s' = images (state w)) by (rewrite Hst; reflexivity).
  assert (Hal' : alignEyes s' = alignEyes (state w)) by (rewrite Hst; reflexivity).
  assert (Hcv : canvas s' = canvas (state w)) by (rewrite Hst; reflexivity).
  rewrite <- Hcv. apply (aligned_corners_on_canvas s' index item det zf d).
  - rewrite Himg. exact Hnth.
  - rewrite Hal'. exact Hal.
  - exact Hdet.
  - unfold s'. rewrite autoFitZoom_ctm. exact Hctm.
  - exact Hzoom.
  - lra.
  - exact Hd.
  - exact Hdpos.
  - rewrite Hzoom, Hd, Hcv. exact Hle.
Qed.

Lemma autoFitZoom_keeps_corners_on_canvas_witness :
  exists m,
    builtTransform (ctx (renderFrame 0 (state (autoFitZoom (worldOf [itemWide])))))
    = Some m
    /\ forall corner, In corner (imageCorners img1000) ->
                      onCanvas cv1000 (applyM m corner).
Proof.
  apply (autoFitZoom_keeps_corners_on_canvas (worldOf [itemWide]) (15 / 100) 200
           0 itemWide (mkDetections lmWide)).
  - reflexivity.
  - reflexivity.
  - reflexivity.
  - rewrite autoFitZoom_zoom by discriminate.
    change (state (worldOf [itemWide])) with (stateOf [itemWide]).
    rewrite minSafeZoomOf_wide. apply clampedZoomOf_wide.
  - lra.
  - reflexivity.
  - reflexivity.
  - cbn [landmarks]. rewrite faceGeometry_lmWide. reflexivity.
  - lra.
Defined.

(** ** One call of [renderFrame] *)

(** X5.  An index past the end of the sequence draws nothing: [renderFrame]
    returns with the whole state, canvas included, as it was. *)
Theorem renderFrame_out_of_range (i : nat) (s : State) :
  (List.length (images s) <= i)%nat -> renderFrame i s = s.
Proof.
  intros Hi. unfold renderFrame.
  rewrite (proj2 (nth_error_None (images s) i) Hi). reflexivity.
Qed.

Lemma renderFrame_out_of_range_witness :
  renderFrame 2 (stateOf [itemWide; itemNoFace]) = stateOf [itemWide; itemNoFace].
Proof.
  apply (renderFrame_out_of_range 2 (stateOf [itemWide; itemNoFace])).
  cbn [stateOf images List.length]. lia.
Defined.

(** X6.  For an index within the sequence, [renderFrame] changes the
    rendering context only; there, the transformation matrix and the stack
    of saved states are as before, the fill style is black, and what was
    painted is one black rectangle over the whole canvas followed by at most
    one image, that of the item (exactly one in the aligned branch). *)
Theorem renderFrame_clears_then_draws_once (i : nat) (s : State) (item : Item) :
  nth_error (images s) i = Some item ->
  renderFrame i s = setCtx (ctx (renderFrame i s)) s
  /\ ctm (ctx (renderFrame i s)) = ctm (ctx s)
  /\ saved (ctx (renderFrame i s)) = saved (ctx s)
  /\ fillStyle (ctx (renderFrame i s)) = "#000"%string
  /\ exists drawn,
       painted (ctx (renderFrame i s))
       = (drawn ++ PFill "#000" (ctm (ctx s)) 0 0
                     (IZR (Z.of_N (cwidth (canvas s))))
                     (IZR (Z.of_N (cheight (canvas s))))
                :: painted (ctx s))%list
       /\ (drawn = []
           \/ exists m a b w h, drawn = [PImage (original item) m a b w h])
       /\ (alignEyes s = true -> detections item <> None -> drawn <> []).
Proof.
  intros Hnth. split; [apply renderFrame_only_ctx |].
  split; [apply renderFrame_ctm |].
  unfold renderFrame. rewrite Hnth.
  set (c := fillRect (Fin 0) (Fin 0) (ofN (cwidth (canvas s)))
                     (ofN (cheight (canvas s))) (setFillStyle "#000" (ctx s))).
  assert (Hc : c = mkCtx "#000" (ctm (ctx s)) (saved (ctx s))
                     (PFill "#000" (ctm (ctx s)) 0 0
                            (IZR (Z.of_N (cwidth (canvas s))))
                            (IZR (Z.of_N (cheight (canvas s))))
                      :: painted (ctx s))) by reflexivity.
  assert (Hcentered :
    saved (drawCentered (canvas s) item c) = saved (ctx s)
    /\ fillStyle (drawCentered (canvas s) item c) = "#000"%string
    /\ exists drawn,
         painted (drawCentered (canvas s) item c)
         = (drawn ++ PFill "#000" (ctm (ctx s)) 0 0
                       (IZR (Z.of_N (cwidth (canvas s))))
                       (IZR (Z.of_N (cheight (canvas s))))
                  :: painted (ctx s))%list
         /\ (drawn = []
             \/ exists m a b w h, drawn = [PImage (original item) m a b w h])).
  { destruct (drawCentered_outcome (canvas s) item c) as [-> | (a & b & w & h & ->)];
      rewrite Hc; cbn [saved fillStyle painted ctm].
    - split; [reflexivity |]. split; [reflexivity |].
      exists []. split; [reflexivity | left; reflexivity].
    - split; [reflexivity |]. split; [reflexivity |].
      eexists [_]. split; [reflexivity |]. right. do 5 eexists. reflexivity. }
  destruct (alignEyes s) eqn:Hal, (detections item) as [det |] eqn:Hdet;
    cbn [ctx setCtx].
  - destruct (drawAligned_outcome (canvas s) (zoom s) item (landmarks det) c)
      as (m & ->).
    rewrite Hc. cbn [saved fillStyle painted ctm].
    split; [reflexivity |]. split; [reflexivity |].
    eexists [_]. split; [reflexivity |]. split.
    + right. do 5 eexists. reflexivity.
    + intros _ _. discriminate.
  - destruct Hcentered as (H1 & H2 & drawn & H3 & H4).
    split; [exact H1 |]. split; [exact H2 |]. exists drawn.
    split; [exact H3 |]. split; [exact H4 |]. intros _ H. contradiction.
  - destruct Hcentered as (H1 & H2 & drawn & H3 & H4).
    split; [exact H1 |]. split; [exact H2 |]. exists drawn.
    split; [exact H3 |]. split; [exact H4 |]. intros H. discriminate.
  - destruct Hcentered as (H1 & H2 & drawn & H3 & H4).
    split; [exact H1 |]. split; [exact H2 |]. exists drawn.
    split; [exact H3 |]. split; [exact H4 |]. intros H. discriminate.
Qed.

Lemma renderFrame_clears_then_draws_once_witness :
  ctm (ctx (renderFrame 0 (stateOf [itemWide]))) = ctm (ctx (stateOf [itemWide]))
  /\ saved (ctx (renderFrame 0 (stateOf [itemWide]))) = saved (ctx (stateOf [itemWide])).
Proof.
  destruct (renderFrame_clears_then_draws_once 0 (stateOf [itemWide]) itemWide eq_refl)
    as (_ & Hctm & Hsaved & _).
  split; [exact Hctm | exact Hsaved].
Defined.

(** ** The centred placement *)

Lemma ndiv_finite (a b : R) : b <> 0 -> ndiv (Fin a) (Fin b) = Fin (a / b).
Proof. intros Hb. unfold ndiv. rewrite (Reqb_false _ _ Hb). reflexivity. Qed.

(** The rectangle of the centred placement, for an image and a canvas given
    by their real dimensions. *)
Lemma drawCentered_rect (cv : Canvas) (item : Item) (c : Ctx) :
  (0 < width (original item))%N -> (0 < height (original item))%N ->
  let cw := IZR (Z.of_N (cwidth cv)) in
  let ch := IZR (Z.of_N (cheight cv)) in
  let w := IZR (Z.of_N (width (original item))) in
  let h := IZR (Z.of_N (height (original item))) in
  exists k,
    (k = cw / w /\ cw / w <= ch / h \/ k = ch / h /\ ch / h <= cw / w)
    /\ drawCentered cv item c
       = mkCtx (fillStyle c) (ctm c) (saved c)
           (PImage (original item) (ctm c) ((cw - w * k) / 2) ((ch - h * k) / 2)
                   (w * k) (h * k) :: painted c).
Proof.
  intros Hw Hh cw ch w h.
  pose proof (IZR_of_N_pos _ Hw) as Hwpos. pose proof (IZR_of_N_pos _ Hh) as Hhpos.
  fold w in Hwpos. fold h in Hhpos.
  unfold drawCentered, ofN. fold cw ch w h.
  rewrite !(ndiv_finite cw w), !(ndiv_finite ch h) by lra.
  unfold nmin, nlt, Rltb.
  destruct (Rlt_dec (ch / h) (cw / w)) as [Hlt | Hge].
  - exists (ch / h). split; [right; split; [reflexivity | lra] |].
    unfold nmul, nsub, nadd, nneg, ndiv. rewrite (Reqb_false 2 0) by lra.
    unfold drawImage5, paint. reflexivity.
  - exists (cw / w). split; [left; split; [reflexivity | lra] |].
    unfold nmul, nsub, nadd, nneg, ndiv. rewrite (Reqb_false 2 0) by lra.
    unfold drawImage5, paint. reflexivity.
Qed.

(** X7.  The centred placement is a letterbox.  For an item drawn without
    alignment (align mode off, or no detections) whose image has positive
    width and height, the image is painted under the matrix in force, in a
    rectangle that lies on the canvas, is centred in it, keeps the aspect
    ratio of the image, and spans the canvas in width or in height. *)
Theorem centred_placement_is_letterbox (i : nat) (s : State) (item : Item) :
  nth_error (images s) i = Some item ->
  alignEyes s = false \/ detections item = None ->
  (0 < width (original item))%N -> (0 < height (original item))%N ->
  let cw := IZR (Z.of_N (cwidth (canvas s))) in
  let ch := IZR (Z.of_N (cheight (canvas s))) in
  let w := IZR (Z.of_N (width (original item))) in
  let h := IZR (Z.of_N (height (original item))) in
  exists a b dw dh,
    paintedRect (ctx (renderFrame i s)) = Some (a, b, dw, dh)
    /\ builtTransform (ctx (renderFrame i s)) = Some (ctm (ctx s))
    /\ 0 <= a /\ a + dw <= cw /\ 0 <= b /\ b + dh <= ch
    /\ 0 <= dw /\ 0 <= dh
    /\ a = cw - (a + dw) /\ b = ch - (b + dh)
    /\ dw * h = dh * w
    /\ (dw = cw \/ dh = ch).
Proof.
  intros Hnth Hmode Hw Hh cw ch w h. subst cw ch w h.
  pose proof (IZR_of_N_pos _ Hw) as Hwpos. pose proof (IZR_of_N_pos _ Hh) as Hhpos.
  pose proof (IZR_of_N_nonneg (cwidth (canvas s))) as Hcw.
  pose proof (IZR_of_N_nonneg (cheight (canvas s))) as Hch.
  assert (Hr : ctx (renderFrame i s)
               = drawCentered (canvas s) item
                   (fillRect (Fin 0) (Fin 0) (ofN (cwidth (canvas s)))
                             (ofN (cheight (canvas s)))
                             (setFillStyle "#000" (ctx s)))).
  { unfold renderFrame. rewrite Hnth.
    destruct Hmode as [-> | ->]; [reflexivity |].
    destruct (alignEyes s); reflexivity. }
  rewrite Hr.
  destruct (drawCentered_rect (canvas s) item
              (fillRect (Fin 0) (Fin 0) (ofN (cwidth (canvas s)))
                        (ofN (cheight (canvas s))) (setFillStyle "#000" (ctx s)))
              Hw Hh) as (k & Hk & ->).
  unfold paintedRect, builtTransform. cbn [painted]. rewrite ctm_fillRect.
  clear Hr Hnth Hmode Hw Hh.
  set (cw := IZR (Z.of_N (cwidth (canvas s)))) in *.
  set (ch := IZR (Z.of_N (cheight (canvas s)))) in *.
  set (w := IZR (Z.of_N (width (original item)))) in *.
  set (h := IZR (Z.of_N (height (original item)))) in *.
  clearbody cw ch w h.
  exists ((cw - w * k) / 2), ((ch - h * k) / 2), (w * k), (h * k).
  split; [reflexivity |]. split; [reflexivity |].
  assert (Hk0 : 0 <= k).
  { destruct Hk as [[-> _] | [-> _]]; unfold Rdiv; apply Rmult_le_pos;
      try assumption; left; apply Rinv_0_lt_compat; assumption. }
  assert (Hwk : w * k <= cw).
  { destruct Hk as [[-> _] | [-> Hle]].
    - apply Req_le. field. lra.
    - apply (Rmult_le_compat_l w) in Hle; [| lra].
      replace (w * (cw / w)) with cw in Hle by (field; lra). exact Hle. }
  assert (Hhk : h * k <= ch).
  { destruct Hk as [[-> Hle] | [-> _]].
    - apply (Rmult_le_compat_l h) in Hle; [| lra].
      replace (h * (ch / h)) with ch in Hle by (field; lra). exact Hle.
    - apply Req_le. field. lra. }
  pose proof (Rmult_le_pos w k ltac:(lra) Hk0).
  pose proof (Rmult_le_pos h k ltac:(lra) Hk0).
  repeat split; try lra; try ring.
  destruct Hk as [[-> _] | [-> _]].
  - left. field. lra.
  - right. field. lra.
Qed.

Lemma centred_placement_is_letterbox_witness :
  exists a b dw dh,
    paintedRect (ctx (renderFrame 0 (stateOf [itemNoFace]))) = Some (a, b, dw, dh)
    /\ builtTransform (ctx (renderFrame 0 (stateOf [itemNoFace])))
       = Some (ctm (ctx (stateOf [itemNoFace])))
    /\ 0 <= a /\ a + dw <= 1000 /\ 0 <= b /\ b + dh <= 1000
    /\ 0 <= dw /\ 0 <= dh
    /\ a = 1000 - (a + dw) /\ b = 1000 - (b + dh)
    /\ dw * 1000 = dh * 1000
    /\ (dw = 1000 \/ dh = 1000).
Proof.
  apply (centred_placement_is_letterbox 0 (stateOf [itemNoFace]) itemNoFace).
  - reflexivity.
  - right. reflexivity.
  - reflexivity.
  - reflexivity.
Defined.

(** ** What [autoFitZoom] touches *)

Lemma renderFrame_saved (i : nat) (s : State) :
  saved (ctx (renderFrame i s)) = saved (ctx s).
Proof.
  unfold renderFrame. destruct (nth_error (images s) i) as [item |]; [| reflexivity].
  destruct (alignEyes s), (detections item) as [det |]; cbn [ctx setCtx].
  - destruct (drawAligned_outcome (canvas s) (zoom s) item (landmarks det)
                (fillRect (Fin 0) (Fin 0) (ofN (cwidth (canvas s)))
                          (ofN (cheight (canvas s))) (setFillStyle "#000" (ctx s))))
      as (m & ->).
    reflexivity.
  - unfold drawCentered. rewrite saved_drawImage5. reflexivity.
  - unfold drawCentered. rewrite saved_drawImage5. reflexivity.
  - unfold drawCentered. rewrite saved_drawImage5. reflexivity.
Qed.

(** X8.  [autoFitZoom] changes the zoom, the slider, the loading overlay and
    what is painted on the canvas, and nothing else: the images, the
    playback flag, the current frame, the frame rate, the align mode, the
    canvas size, the pending animation handle, the transformation matrix
    and the stack of saved drawing states are as before.  While playing it
    paints nothing; with at least one image it ends with the overlay hidden. *)
Theorem autoFitZoom_frame (w : World) :
  images (state (autoFitZoom w)) = images (state w)
  /\ isModelLoaded (state (autoFitZoom w)) = isModelLoaded (state w)
  /\ isPlaying (state (autoFitZoom w)) = isPlaying (state w)
  /\ currentFrame (state (autoFitZoom w)) = currentFrame (state w)
  /\ fps (state (autoFitZoom w)) = fps (state w)
  /\ alignEyes (state (autoFitZoom w)) = alignEyes (state w)
  /\ canvas (state (autoFitZoom w)) = canvas (state w)
  /\ animationId (state (autoFitZoom w)) = animationId (state w)
  /\ ctm (ctx (state (autoFitZoom w))) = ctm (ctx (state w))
  /\ saved (ctx (state (autoFitZoom w))) = saved (ctx (state w))
  /\ progressBarWidth (elements (autoFitZoom w)) = progressBarWidth (elements w)
  /\ (isPlaying (state w) = true ->
      ctx (state (autoFitZoom w)) = ctx (state w))
  /\ (images (state w) <> [] ->
      loadingOverlayHidden (elements (autoFitZoom w)) = true).
Proof.
  pose proof (autoFitZoom_only_zoom_ctx w) as Hst.
  repeat (split; [rewrite Hst; reflexivity |]).
  split; [apply autoFitZoom_ctm |].
  destruct (images (state w)) as [| it rest] eqn:E.
  - unfold autoFitZoom. rewrite E.
    split; [reflexivity |]. split; [reflexivity |].
    split; [intros _; reflexivity |]. intros H. contradiction.
  - assert (Hne : images (state w) <> []) by (rewrite E; discriminate).
    split.
    + rewrite (autoFitZoom_state w Hne). destruct (isPlaying (state w)).
      * reflexivity.
      * rewrite renderFrame_saved. reflexivity.
    + unfold autoFitZoom. rewrite E. cbn [isPlaying setZoom].
      destruct (isPlaying (state w)); cbn [elements state].
      * split; [reflexivity |]. split; [intros _; reflexivity |].
        intros _. reflexivity.
      * split; [reflexivity |]. split; [discriminate |]. intros _. reflexivity.
Qed.

Lemma autoFitZoom_frame_witness :
  loadingOverlayHidden (elements (autoFitZoom (worldOf [itemWide]))) = true.
Proof.
  destruct (autoFitZoom_frame (worldOf [itemWide]))
    as (_ & _ & _ & _ & _ & _ & _ & _ & _ & _ & _ & _ & H).
  apply H. discriminate.
Defined.

(** ** The slider after auto-fit *)

(** A clamped zoom is a whole number of hundredths between 0.10 and 1.00. *)
Lemma clampedZoomOf_hundredths (z : num) (zf : R) :
  clampedZoomOf z = Fin zf ->
  exists k : Z, (10 <= k <= 100)%Z /\ zf = IZR k / 100.
Proof.
  assert (H10 : exists k : Z, (10 <= k <= 100)%Z /\ 1 / 10 = IZR k / 100).
  { exists 10%Z. split; [lia | lra]. }
  assert (H100 : exists k : Z, (10 <= k <= 100)%Z /\ 1 = IZR k / 100).
  { exists 100%Z. split; [lia | lra]. }
  unfold clampedZoomOf, finalZoomOf. destruct z as [zr | | |]; num_unfold.
  - set (k := Zfloor (zr * (95 / 100) * 100)).
    rewrite (Reqb_false 100 0) by lra. unfold Rltb.
    destruct (Rlt_dec (IZR k / 100) 1) as [Hlt | Hge]; num_unfold; unfold Rltb.
    + destruct (Rlt_dec (1 / 10) (IZR k / 100)) as [Hlo | Hlo];
        intros E; injection E as <-; [| exact H10].
      exists k. split; [| reflexivity].
      assert (IZR 10 < IZR k) by lra. assert (IZR k < IZR 100) by lra.
      apply lt_IZR in H. apply lt_IZR in H0. lia.
    + destruct (Rlt_dec (1 / 10) 1); intros E; injection E as <-;
        [exact H100 | exact H10].
  - decide_R. cbv beta iota. decide_R. intros E. injection E as <-. exact H100.
  - decide_R. cbv beta iota. intros E. injection E as <-. exact H10.
  - discriminate.
Qed.

(** X9.  After [autoFitZoom] on a sequence that is not empty, the stored
    zoom, unless it is [NaN], is a whole number of hundredths between 0.10
    and 1.00, and the slider is set to that number: slider = 100 * zoom. *)
Theorem slider_shows_stored_zoom (w : World) (zf : R) :
  images (state w) <> [] ->
  zoom (state (autoFitZoom w)) = Fin zf ->
  exists k : Z,
    (10 <= k <= 100)%Z
    /\ zf = IZR k / 100
    /\ zoomRangeValue (elements (autoFitZoom w)) = Fin (IZR k).
Proof.
  intros Hne Hz. rewrite (autoFitZoom_zoom w Hne) in Hz.
  destruct (clampedZoomOf_hundredths _ _ Hz) as (k & Hk & Hzf).
  exists k. split; [exact Hk |]. split; [exact Hzf |].
  unfold autoFitZoom. destruct (images (state w)) as [| it rest] eqn:E;
    [contradiction |].
  cbn [isPlaying setZoom].
  assert (Hv : nround (nmul (clampedZoomOf (minSafeZoomOf (state w))) (Fin 100))
               = Fin (IZR k)).
  { rewrite Hz. unfold nmul, nround. f_equal. f_equal.
    apply Zfloor_eq. rewrite Hzf. lra. }
  destruct (isPlaying (state w)); cbn [elements]; unfold hideLoading,
    setZoomRangeValue; cbn [zoomRangeValue]; exact Hv.
Qed.

Lemma slider_shows_stored_zoom_witness :
  exists k : Z,
    (10 <= k <= 100)%Z
    /\ 15 / 100 = IZR k / 100
    /\ zoomRangeValue (elements (autoFitZoom (worldOf [itemWide]))) = Fin (IZR k).
Proof.
  apply (slider_shows_stored_zoom (worldOf [itemWide]) (15 / 100)).
  - discriminate.
  - rewrite autoFitZoom_zoom by discriminate.
    change (state (worldOf [itemWide])) with (stateOf [itemWide]).
    rewrite minSafeZoomOf_wide. apply clampedZoomOf_wide.
Defined.

(** ** The auto-fit zoom as a function of the images *)

Lemma spec_minimumN_perm (l l' : list num) :
  Permutation l l' -> spec_minimumN l = spec_minimumN l'.
Proof.
  induction 1 as [| v l l' _ IH | u v l | l l' l'' _ IH1 _ IH2].
  - reflexivity.
  - cbn [spec_minimumN fold_right] in *. unfold spec_minimumN in IH.
    rewrite IH. reflexivity.
  - cbn [spec_minimumN fold_right].
    rewrite <- !nmin_assoc, (nmin_comm v u). reflexivity.
  - rewrite IH1. exact IH2.
Qed.

Lemma safeZooms_perm (cv : Canvas) (l l' : list Item) :
  Permutation l l' -> Permutation (safeZooms cv l) (safeZooms cv l').
Proof. intros H. unfold safeZooms. apply Permutation_flat_map. exact H. Qed.

(** X10.  The zoom stored by [autoFitZoom] depends on the set of images and
    on the canvas only: two sessions with the same canvas whose sequences
    are permutations of each other get the same zoom, whatever their zoom,
    frame, or play state was before. *)
Theorem autoFitZoom_order_independent (w1 w2 : World) :
  images (state w1) <> [] ->
  canvas (state w1) = canvas (state w2) ->
  Permutation (images (state w1)) (images (state w2)) ->
  zoom (state (autoFitZoom w1)) = zoom (state (autoFitZoom w2)).
Proof.
  intros Hne Hcv Hperm.
  assert (Hne2 : images (state w2) <> []).
  { intros E. rewrite E in Hperm. apply Permutation_sym, Permutation_nil in Hperm.
    contradiction. }
  rewrite (autoFitZoom_zoom w1 Hne), (autoFitZoom_zoom w2 Hne2).
  rewrite !minSafeZoomOf_minimum, Hcv. f_equal.
  apply spec_minimumN_perm. apply perm_skip. apply safeZooms_perm. exact Hperm.
Qed.

Lemma autoFitZoom_order_independent_witness :
  zoom (state (autoFitZoom (worldOf [itemWide; itemCoincident])))
  = zoom (state (autoFitZoom (worldOf [itemCoincident; itemWide]))).
Proof.
  apply (autoFitZoom_order_independent (worldOf [itemWide; itemCoincident])
           (worldOf [itemCoincident; itemWide])).
  - discriminate.
  - reflexivity.
  - apply perm_swap.
Defined.

(** X11.  Auto-fit is idempotent on the controls: pressing it a second time
    leaves the zoom and the slider where the first press put them. *)
Theorem autoFitZoom_twice (w : World) :
  zoom (state (autoFitZoom (autoFitZoom w))) = zoom (state (autoFitZoom w))
  /\ zoomRangeValue (elements (autoFitZoom (autoFitZoom w)))
     = zoomRangeValue (elements (autoFitZoom w)).
Proof.
  pose proof (autoFitZoom_only_zoom_ctx w) as Hst.
  assert (Himg : images (state (autoFitZoom w)) = images (state w))
    by (rewrite Hst; reflexivity).
  assert (Hcv : canvas (state (autoFitZoom w)) = canvas (state w))
    by (rewrite Hst; reflexivity).
  destruct (images (state w)) as [| it rest] eqn:E.
  - assert (Hid : autoFitZoom w = w) by (unfold autoFitZoom; rewrite E; reflexivity).
    rewrite !Hid. split; reflexivity.
  - assert (Hne : images (state w) <> []) by (rewrite E; discriminate).
    assert (Hne' : images (state (autoFitZoom w)) <> [])
      by (rewrite Himg; discriminate).
    assert (Hmin : minSafeZoomOf (state (autoFitZoom w)) = minSafeZoomOf (state w)).
    { unfold minSafeZoomOf. rewrite Himg, Hcv, E. reflexivity. }
    split.
    + rewrite (autoFitZoom_zoom _ Hne'), (autoFitZoom_zoom _ Hne), Hmin. reflexivity.
    + assert (Hslider : forall u, images (state u) <> [] ->
                zoomRangeValue (elements (autoFitZoom u))
                = nround (nmul (clampedZoomOf (minSafeZoomOf (state u))) (Fin 100))).
      { intros u Hu. unfold autoFitZoom.
        destruct (images (state u)); [contradiction |].
        cbn [isPlaying setZoom]. destruct (isPlaying (state u)); reflexivity. }
      rewrite (Hslider _ Hne'), (Hslider _ Hne), Hmin. reflexivity.
Qed.

(** ** Adding images *)

Lemma spec_minimumN_attained (l : list num) :
  (forall v, In v l -> finNonneg v) -> l <> [] -> In (spec_minimumN l) l.
Proof.
  induction l as [| v rest IH]; intros Hall Hne; [contradiction |].
  destruct (Hall v (or_introl eq_refl)) as (r & -> & Hr).
  destruct rest as [| v' rest'].
  - left. reflexivity.
  - assert (Hrest : forall u, In u (v' :: rest') -> finNonneg u)
      by (intros u Hu; apply Hall; right; exact Hu).
    specialize (IH Hrest ltac:(discriminate)).
    destruct (spec_minimumN_shape (v' :: rest') Hrest ltac:(discriminate))
      as (m & Hm & _ & _).
    change (spec_minimumN (Fin r :: v' :: rest'))
      with (nmin (Fin r) (spec_minimumN (v' :: rest'))).
    rewrite Hm in *. num_unfold. unfold Rltb. destruct (Rlt_dec m r).
    + right. exact IH.
    + left. reflexivity.
Qed.

(** The clamp of [autoFitZoom] is monotone on real numbers. *)
Lemma clampedZoomOf_monotone (z1 z2 : R) :
  z1 <= z2 ->
  exists r1 r2,
    clampedZoomOf (Fin z1) = Fin r1 /\ clampedZoomOf (Fin z2) = Fin r2 /\ r1 <= r2.
Proof.
  intros Hle. unfold clampedZoomOf, finalZoomOf. num_unfold.
  assert (Hk : IZR (Zfloor (z1 * (95 / 100) * 100))
               <= IZR (Zfloor (z2 * (95 / 100) * 100))).
  { apply IZR_le, Zfloor_le. lra. }
  set (k1 := IZR (Zfloor (z1 * (95 / 100) * 100))) in *.
  set (k2 := IZR (Zfloor (z2 * (95 / 100) * 100))) in *.
  rewrite (Reqb_false 100 0) by lra. unfold Rltb.
  destruct (Rlt_dec (k1 / 100) 1), (Rlt_dec (k2 / 100) 1); num_unfold; unfold Rltb;
    repeat match goal with
    | |- context [Rlt_dec ?p ?q] => destruct (Rlt_dec p q)
    end; do 2 eexists; (split; [reflexivity |]); (split; [reflexivity |]); lra.
Qed.

(** X12.  Adding images can only lower the auto-fit zoom.  On one canvas of
    positive width, when every item with detections has non-empty eye
    clusters and an image of positive width, a sequence that contains all
    the items of another gets a stored zoom that is at most the other's. *)
Theorem more_images_never_raise_zoom (w1 w2 : World) :
  images (state w1) <> [] ->
  canvas (state w1) = canvas (state w2) ->
  (0 < cwidth (canvas (state w2)))%N ->
  incl (images (state w1)) (images (state w2)) ->
  (forall it d,
     In it (images (state w2)) -> detections it = Some d ->
     getLeftEye (landmarks d) <> [] /\ getRightEye (landmarks d) <> []
     /\ (0 < width (original it))%N) ->
  exists z1 z2,
    zoom (state (autoFitZoom w1)) = Fin z1
    /\ zoom (state (autoFitZoom w2)) = Fin z2
    /\ z2 <= z1.
Proof.
  intros Hne Hcv Hcw Hincl Hwf.
  assert (Hne2 : images (state w2) <> []).
  { destruct (images (state w1)) as [| it rest] eqn:E; [contradiction |].
    intros E2. specialize (Hincl it (or_introl eq_refl)). rewrite E2 in Hincl.
    destruct Hincl. }
  rewrite (autoFitZoom_zoom w1 Hne), (autoFitZoom_zoom w2 Hne2).
  rewrite !minSafeZoomOf_minimum, Hcv.
  set (cv := canvas (state w2)) in *.
  assert (Hfin : forall items,
            incl items (images (state w2)) ->
            forall v, In v (Fin 1 :: safeZooms cv items) -> finNonneg v).
  { intros items Hsub v [<- | Hv].
    - exists 1. split; [reflexivity | lra].
    - apply in_safeZooms in Hv. destruct Hv as (it & d & Hit & Hd & ->).
      destruct (Hwf it d (Hsub it Hit) Hd) as (HL & HR & Hw).
      apply safeZoomFor_bounded; assumption. }
  pose proof (Hfin _ Hincl) as Hfin1.
  pose proof (Hfin _ (incl_refl _)) as Hfin2.
  destruct (spec_minimumN_shape _ Hfin1 ltac:(discriminate)) as (m1 & Hm1 & _ & _).
  destruct (spec_minimumN_shape _ Hfin2 ltac:(discriminate)) as (m2 & Hm2 & _ & Hlow2).
  pose proof (spec_minimumN_attained _ Hfin1 ltac:(discriminate)) as Hatt.
  rewrite Hm1 in Hatt.
  assert (Hin2 : In (Fin m1) (Fin 1 :: safeZooms cv (images (state w2)))).
  { destruct Hatt as [E | Hatt]; [left; exact E |]. right.
    apply in_safeZooms in Hatt. destruct Hatt as (it & d & Hit & Hd & Hv).
    apply in_safeZooms. exists it, d. split; [apply Hincl; exact Hit |].
    split; [exact Hd | exact Hv]. }
  specialize (Hlow2 m1 Hin2).
  rewrite Hm1, Hm2.
  destruct (clampedZoomOf_monotone m2 m1 Hlow2) as (r2 & r1 & H2 & H1 & Hr).
  exists r1, r2. auto.
Qed.

Lemma more_images_never_raise_zoom_witness :
  exists z1 z2,
    zoom (state (autoFitZoom (worldOf [itemWide]))) = Fin z1
    /\ zoom (state (autoFitZoom (worldOf [itemWide; itemNarrow]))) = Fin z2
    /\ z2 <= z1.
Proof.
  apply (more_images_never_raise_zoom (worldOf [itemWide])
           (worldOf [itemWide; itemNarrow])).
  - discriminate.
  - reflexivity.
  - reflexivity.
  - intros it [<- | []]. left. reflexivity.
  - intros it d [<- | [<- | []]] E; injection E as <-;
      (split; [discriminate | split; [discriminate | reflexivity]]).
Defined.

(** ** Where centroids lie *)

Lemma sum_between (xs : list R) (lo hi : R) :
  (forall v, In v xs -> lo <= v <= hi) ->
  INR (List.length xs) * lo <= fold_right Rplus 0 xs <= INR (List.length xs) * hi.
Proof.
  induction xs as [| v xs IH]; intros Hall.
  - cbn [List.length fold_right INR]. lra.
  - change (List.length (v :: xs)) with (Datatypes.S (List.length xs)).
    rewrite S_INR. cbn [fold_right].
    pose proof (Hall v (or_introl eq_refl)).
    assert (Hrest : forall u, In u xs -> lo <= u <= hi)
      by (intros u Hu; apply Hall; right; exact Hu).
    specialize (IH Hrest). lra.
Qed.

Lemma spec_mean_between (xs : list R) (lo hi : R) :
  xs <> [] ->
  (forall v, In v xs -> lo <= v <= hi) ->
  lo <= spec_mean xs <= hi.
Proof.
  intros Hne Hall. unfold spec_mean.
  assert (Hn : 0 < INR (List.length xs)).
  { apply lt_0_INR. destruct xs; [contradiction | cbn; lia]. }
  destruct (sum_between xs lo hi Hall) as [Hlo Hhi].
  split.
  - apply (Rmult_le_reg_r (INR (List.length xs))); [exact Hn |].
    replace (fold_right Rplus 0 xs / INR (List.length xs) * INR (List.length xs))
      with (fold_right Rplus 0 xs) by (field; lra).
    lra.
  - apply (Rmult_le_reg_r (INR (List.length xs))); [exact Hn |].
    replace (fold_right Rplus 0 xs / INR (List.length xs) * INR (List.length xs))
      with (fold_right Rplus 0 xs) by (field; lra).
    lra.
Qed.

(** X13.  The centroid of a non-empty cluster lies in every axis-parallel
    box that holds all the points of the cluster: eye landmarks inside the
    image give an eye centre inside the image. *)
Theorem centroid_within_bounding_box (pts : list Point) (x0 x1 y0 y1 : R) :
  pts <> [] ->
  (forall p, In p pts -> x0 <= px p <= x1 /\ y0 <= py p <= y1) ->
  exists cx cy,
    getCentroid pts = mkNPoint (Fin cx) (Fin cy)
    /\ x0 <= cx <= x1 /\ y0 <= cy <= y1.
Proof.
  intros Hne Hbox. rewrite (getCentroid_nonempty pts Hne).
  do 2 eexists. split; [reflexivity |].
  assert (Hmap : forall (f : Point -> R), map f pts <> [])
    by (intros f E; apply map_eq_nil in E; contradiction).
  split.
  - apply spec_mean_between; [apply Hmap |].
    intros v Hv. apply in_map_iff in Hv. destruct Hv as (p & <- & Hp).
    apply (Hbox p Hp).
  - apply spec_mean_between; [apply Hmap |].
    intros v Hv. apply in_map_iff in Hv. destruct Hv as (p & <- & Hp).
    apply (Hbox p Hp).
Qed.

Lemma centroid_within_bounding_box_witness :
  exists cx cy,
    getCentroid [mkPoint 390 495; mkPoint 410 505] = mkNPoint (Fin cx) (Fin cy)
    /\ 0 <= cx <= 1000 /\ 0 <= cy <= 1000.
Proof.
  apply (centroid_within_bounding_box [mkPoint 390 495; mkPoint 410 505] 0 1000 0 1000).
  - discriminate.
  - intros p [<- | [<- | []]]; cbn [px py]; lra.
Defined.

(** X14.  With two non-empty eye clusters the eye distance is a finite,
    non-negative number, and it is zero exactly when the two eye centres
    coincide. *)
Theorem eye_distance_zero_iff_coincident (lm : Landmarks) :
  getLeftEye lm <> [] -> getRightEye lm <> [] ->
  exists d,
    currentEyesDist (faceGeometry lm) = Fin d
    /\ 0 <= d
    /\ (d = 0 <-> getCentroid (getLeftEye lm) = getCentroid (getRightEye lm)).
Proof.
  intros HL HR.
  pose proof (getCentroid_nonempty _ HL) as HLc.
  pose proof (getCentroid_nonempty _ HR) as HRc.
  rewrite (faceGeometry_finite lm _ _ _ _ HLc HRc), HLc, HRc.
  set (lx := spec_mean (map px (getLeftEye lm))).
  set (ly := spec_mean (map py (getLeftEye lm))).
  set (rx := spec_mean (map px (getRightEye lm))).
  set (ry := spec_mean (map py (getRightEye lm))).
  unfold geometryOf. cbn [currentEyesDist]. eexists. split; [reflexivity |].
  split; [apply sqrt_pos |]. split.
  - intros H0. apply sqrt_eq_0 in H0; [| apply sumsq_nonneg].
    destruct (Rplus_sqr_eq_0 (rx + - lx) (ry + - ly) H0) as [Hx Hy].
    f_equal; f_equal; lra.
  - intros E. injection E as Ex Ey. rewrite Ex, Ey.
    replace ((rx + - rx) * (rx + - rx) + (ry + - ry) * (ry + - ry)) with 0 by ring.
    apply sqrt_0.
Qed.

Lemma eye_distance_zero_iff_coincident_witness :
  exists d,
    currentEyesDist (faceGeometry lmCoincident) = Fin d
    /\ 0 <= d
    /\ (d = 0 <-> getCentroid (getLeftEye lmCoincident)
                  = getCentroid (getRightEye lmCoincident)).
Proof.
  apply (eye_distance_zero_iff_coincident lmCoincident); discriminate.
Defined.

(** ** Eyes inside the image: the safe zoom is at most 1 *)

(** A bound that is at most [cw / d] caps the safe zoom at 1. *)
Lemma safeZoom_capped_by_bound (cv : Canvas) (img : Image) (cx cy a d b : R) :
  0 < d -> (0 < cwidth cv)%N ->
  In b (spec_bounds (IZR (Z.of_N (cwidth cv))) (IZR (Z.of_N (cheight cv)))
                    (IZR (Z.of_N (width img))) (IZR (Z.of_N (height img))) cx cy a) ->
  b <= IZR (Z.of_N (cwidth cv)) / d ->
  exists v,
    safeZoomFor cv img (mkFaceGeometry (mkNPoint (Fin cx) (Fin cy)) (Fin a) (Fin d))
    = Fin v /\ 0 <= v <= 1.
Proof.
  intros Hd Hcw Hin Hb. pose proof (IZR_of_N_pos _ Hcw) as Hcwpos.
  unfold safeZoomFor. rewrite maxScaleFor_finite. cbn [currentEyesDist].
  match goal with
  | |- context [spec_minimum ?l] =>
      destruct (spec_minimum_shape l) as [[Hnil _] | (m & -> & Hm & Hmin)]
  end.
  - rewrite Hnil in Hin. destruct Hin.
  - unfold ofN, nmul. rewrite ndiv_finite by lra.
    eexists. split; [reflexivity |].
    pose proof (spec_bounds_nonneg _ _ _ _ _ _ _ _
                  (IZR_of_N_nonneg _) (IZR_of_N_nonneg _) Hm) as Hm0.
    specialize (Hmin b Hin).
    set (cw := IZR (Z.of_N (cwidth cv))) in *. clearbody cw.
    assert (Hmd : m * d <= cw).
    { apply (Rmult_le_compat_r d) in Hb; [| lra].
      replace (cw / d * d) with cw in Hb by (field; lra).
      apply (Rmult_le_compat_r d) in Hmin; [| lra]. lra. }
    split.
    + unfold Rdiv. apply Rmult_le_pos; [apply Rmult_le_pos; lra |].
      left. apply Rinv_0_lt_compat. exact Hcwpos.
    + apply (Rmult_le_reg_r cw); [exact Hcwpos |].
      replace (m * d / cw * cw) with (m * d) by (field; lra). lra.
Qed.

(** X15.  When one of the two eye centres lies within the image (borders
    included) and the eye distance is positive, the safe zoom of the item,
    on a canvas of positive width, is at most 1: the initial value 1.0 of
    [minSafeZoom] does not bind for such an item. *)
Theorem safeZoom_at_most_one_when_eye_inside (cv : Canvas) (img : Image)
    (lm : Landmarks) (lx ly rx ry d : R) :
  getCentroid (getLeftEye lm) = mkNPoint (Fin lx) (Fin ly) ->
  getCentroid (getRightEye lm) = mkNPoint (Fin rx) (Fin ry) ->
  currentEyesDist (faceGeometry lm) = Fin d -> 0 < d ->
  (0 < cwidth cv)%N ->
  (0 <= lx <= IZR (Z.of_N (width img)) /\ 0 <= ly <= IZR (Z.of_N (height img)))
  \/ (0 <= rx <= IZR (Z.of_N (width img)) /\ 0 <= ry <= IZR (Z.of_N (height img))) ->
  exists v, safeZoomFor cv img (faceGeometry lm) = Fin v /\ 0 <= v <= 1.
Proof.
  intros HL HR Hd Hdpos Hcw Hinside.
  rewrite (faceGeometry_finite lm _ _ _ _ HL HR) in *.
  cbn [geometryOf currentEyesDist] in Hd. injection Hd as Hd.
  unfold geometryOf. rewrite Hd.
  pose proof (IZR_of_N_pos _ Hcw) as Hcwpos.
  assert (Hd' : 0 < sqrt ((rx + - lx) * (rx + - lx) + (ry + - ly) * (ry + - ly)))
    by (rewrite Hd; exact Hdpos).
  destruct (Ratan2_polar (ry + - ly) (rx + - lx) Hd') as [HC HS].
  rewrite Hd in HC, HS.
  pose proof (sin2_cos2 (Ratan2 (ry + - ly) (rx + - lx))) as Hsc.
  unfold Rsqr in Hsc.
  set (a := Ratan2 (ry + - ly) (rx + - lx)) in *.
  set (w := IZR (Z.of_N (width img))) in *.
  set (h := IZR (Z.of_N (height img))) in *.
  set (cw := IZR (Z.of_N (cwidth cv))) in *.
  assert (Hrot : forall q : R * R,
            fst (spec_rotated ((lx + rx) / 2) ((ly + ry) / 2) a q)
            = (fst q - rx) * cos a + (snd q - ry) * sin a + d / 2
            /\ fst (spec_rotated ((lx + rx) / 2) ((ly + ry) / 2) a q)
               = (fst q - lx) * cos a + (snd q - ly) * sin a - d / 2).
  { intros q. unfold spec_rotated. cbn [fst snd]. rewrite cos_neg, sin_neg.
    assert (Hdd : d = (rx - lx) * cos a + (ry - ly) * sin a).
    { replace (rx - lx) with (d * cos a) by lra.
      replace (ry - ly) with (d * sin a) by lra.
      transitivity (d * (sin a * sin a + cos a * cos a)); [rewrite Hsc; ring | ring]. }
    split; rewrite Hdd at 1; field. }
  assert (Hpick : forall (t c lo hi : R), lo <= t <= hi ->
            exists q, (q = lo \/ q = hi) /\ 0 <= (q - t) * c
                      /\ exists q', (q' = lo \/ q' = hi) /\ (q' - t) * c <= 0).
  { intros t c lo hi Ht. destruct (Rle_dec 0 c).
    - exists hi. split; [right; reflexivity |]. split; [apply Rmult_le_pos; lra |].
      exists lo. split; [left; reflexivity |].
      replace ((lo - t) * c) with (- ((t - lo) * c)) by ring.
      pose proof (Rmult_le_pos (t - lo) c ltac:(lra) ltac:(lra)). lra.
    - exists lo. split; [left; reflexivity |]. split.
      + replace ((lo - t) * c) with ((t - lo) * - c) by ring.
        apply Rmult_le_pos; lra.
      + exists hi. split; [right; reflexivity |].
        replace ((hi - t) * c) with (- ((hi - t) * - c)) by ring.
        pose proof (Rmult_le_pos (hi - t) (- c) ltac:(lra) ltac:(lra)). lra. }
  assert (Hcorner : forall qx qy, (qx = 0 \/ qx = w) -> (qy = 0 \/ qy = h) ->
            In (qx, qy) (spec_corners w h)).
  { intros qx qy [-> | ->] [-> | ->]; unfold spec_corners; cbn [In]; tauto. }
  destruct Hinside as [[Hx Hy] | [Hx Hy]].
  - destruct (Hpick lx (cos a) 0 w Hx) as (_ & _ & _ & qx & Hqx & Hcx).
    destruct (Hpick ly (sin a) 0 h Hy) as (_ & _ & _ & qy & Hqy & Hcy).
    destruct (Hrot (qx, qy)) as [_ Hr]. cbn [fst snd] in Hr.
    set (rho := fst (spec_rotated ((lx + rx) / 2) ((ly + ry) / 2) a (qx, qy))) in *.
    assert (Hneg : rho <= - (d / 2)) by lra.
    apply (safeZoom_capped_by_bound cv img _ _ a d (- (cw * (5 / 10)) / rho)
             Hdpos Hcw).
    + apply (in_spec_bounds_x _ _ _ _ _ _ _ _ (qx, qy) (Hcorner qx qy Hqx Hqy)).
      fold rho. unfold spec_axisBound.
      rewrite (Rltb_false 0 rho) by lra. rewrite (Rltb_true rho 0) by lra.
      reflexivity.
    + fold cw.
      apply (Rmult_le_reg_r (- rho)); [lra |].
      replace (- (cw * (5 / 10)) / rho * - rho) with (cw * (5 / 10)) by (field; lra).
      assert (cw / d * (d / 2) <= cw / d * - rho).
      { apply Rmult_le_compat_l; [| lra]. unfold Rdiv. apply Rmult_le_pos; [lra |].
        left. apply Rinv_0_lt_compat. exact Hdpos. }
      replace (cw / d * (d / 2)) with (cw * (5 / 10)) in H by (field; lra). exact H.
  - destruct (Hpick rx (cos a) 0 w Hx) as (qx & Hqx & Hcx & _).
    destruct (Hpick ry (sin a) 0 h Hy) as (qy & Hqy & Hcy & _).
    destruct (Hrot (qx, qy)) as [Hr _]. cbn [fst snd] in Hr.
    set (rho := fst (spec_rotated ((lx + rx) / 2) ((ly + ry) / 2) a (qx, qy))) in *.
    assert (Hpos : d / 2 <= rho) by lra.
    apply (safeZoom_capped_by_bound cv img _ _ a d ((cw - cw * (5 / 10)) / rho)
             Hdpos Hcw).
    + apply (in_spec_bounds_x _ _ _ _ _ _ _ _ (qx, qy) (Hcorner qx qy Hqx Hqy)).
      fold rho. unfold spec_axisBound. rewrite (Rltb_true 0 rho) by lra.
      reflexivity.
    + fold cw.
      apply (Rmult_le_reg_r rho); [lra |].
      replace ((cw - cw * (5 / 10)) / rho * rho) with (cw * (5 / 10)) by (field; lra).
      assert (cw / d * (d / 2) <= cw / d * rho).
      { apply Rmult_le_compat_l; [| lra]. unfold Rdiv. apply Rmult_le_pos; [lra |].
        left. apply Rinv_0_lt_compat. exact Hdpos. }
      replace (cw / d * (d / 2)) with (cw * (5 / 10)) in H by (field; lra). exact H.
Qed.

Lemma safeZoom_at_most_one_when_eye_inside_witness :
  exists v, safeZoomFor cv1000 img1000 (faceGeometry lmWide) = Fin v /\ 0 <= v <= 1.
Proof.
  apply (safeZoom_at_most_one_when_eye_inside cv1000 img1000 lmWide
           ((390 + 410) / 2) ((495 + 505) / 2) ((590 + 610) / 2) ((495 + 505) / 2) 200).
  - apply getCentroid_pair.
  - apply getCentroid_pair.
  - rewrite faceGeometry_lmWide. reflexivity.
  - lra.
  - reflexivity.
  - left. cbn [img1000 width height Z.of_N]. lra.
Defined.

(** ** Playback *)

Lemma setPending_same (p : Page) : setPending (pendingFrames p) p = p.
Proof. destruct p. reflexivity. Qed.

Lemma existsb_handle_false (h : nat) (l : list (nat * R)) :
  existsb (fun e => Nat.eqb (fst e) h) l = false ->
  forall e, In e l -> fst e <> h.
Proof.
  intros Hex e He Heq.
  assert (existsb (fun e => Nat.eqb (fst e) h) l = true).
  { apply existsb_exists. exists e. split; [exact He |]. apply Nat.eqb_eq. exact Heq. }
  congruence.
Qed.

(** Once [state.isPlaying] is false, the callbacks still pending die
    without effect when they are run. *)
Lemma runCallbacks_stopped (t : R) (callbacks : list (nat * R)) (p : Page) :
  isPlaying (state (world p)) = false ->
  (forall e, In e (pendingFrames p) -> In (fst e) (map fst callbacks)) ->
  runCallbacks t callbacks p = Some (setPending [] p).
Proof.
  revert p. induction callbacks as [| [h lt] rest IH]; intros p Hstop Hsub.
  - cbn [runCallbacks]. f_equal. rewrite <- (setPending_same p) at 1. f_equal.
    destruct (pendingFrames p) as [| e l]; [reflexivity |].
    destruct (Hsub e (or_introl eq_refl)).
  - cbn [runCallbacks].
    destruct (existsb (fun e => Nat.eqb (fst e) h) (pendingFrames p)) eqn:Hex.
    + assert (Hloop : loop t lt (cancelAnimationFrame h p)
                      = Some (cancelAnimationFrame h p)).
      { unfold loop. cbn [cancelAnimationFrame setPending world]. rewrite Hstop.
        reflexivity. }
      rewrite Hloop. rewrite IH.
      * reflexivity.
      * exact Hstop.
      * intros e He. cbn [cancelAnimationFrame setPending pendingFrames] in He.
        apply filter_In in He. destruct He as [He Hne].
        apply negb_true_iff, Nat.eqb_neq in Hne.
        destruct (Hsub e He) as [Heq | Hin]; [| exact Hin].
        cbn [fst] in Heq. congruence.
    + apply IH; [exact Hstop |].
      intros e He. destruct (Hsub e He) as [Heq | Hin]; [| exact Hin].
      cbn [fst] in Heq. exfalso.
      apply (existsb_handle_false h _ Hex e He). congruence.
Qed.

Lemma animationFrame_stopped (t : R) (p : Page) :
  isPlaying (state (world p)) = false ->
  animationFrame t p = Some (setPending [] p).
Proof.
  intros Hstop. unfold animationFrame. apply runCallbacks_stopped; [exact Hstop |].
  intros e He. apply in_map. exact He.
Qed.

(** X16.  Once playback is stopped ([state.isPlaying] false), animation
    frames draw nothing: whatever callbacks are still pending, a run of
    frames leaves the session (state, canvas, controls) as it was, and after
    the first frame no callback is pending any more. *)
Theorem stopped_playback_is_inert (ts : list R) (p : Page) :
  isPlaying (state (world p)) = false ->
  exists p',
    animationFrames ts p = Some p'
    /\ world p' = world p
    /\ (ts <> [] -> pendingFrames p' = []).
Proof.
  revert p. induction ts as [| t rest IH]; intros p Hstop.
  - exists p. split; [reflexivity |]. split; [reflexivity |]. intros H. contradiction.
  - cbn [animationFrames]. rewrite (animationFrame_stopped t p Hstop).
    destruct (IH (setPending [] p) Hstop) as (p' & Hrun & Hw & Hp).
    exists p'. split; [exact Hrun |]. split; [exact Hw |]. intros _.
    destruct rest as [| t' rest'].
    + cbn [animationFrames] in Hrun. injection Hrun as <-. reflexivity.
    + apply Hp. discriminate.
Qed.

Lemma stopped_playback_is_inert_witness :
  exists p',
    animationFrames [16; 33]
      (setPending [(1%nat, 0)] (pageOf (worldOf [itemWide]))) = Some p'
    /\ world p' = worldOf [itemWide]
    /\ ([16; 33] <> [] -> pendingFrames p' = []).
Proof.
  apply (stopped_playback_is_inert [16; 33]
           (setPending [(1%nat, 0)] (pageOf (worldOf [itemWide])))).
  reflexivity.
Defined.

(** X17.  After [resetApp] there is no image and playback is stopped; the
    zoom, the frame rate, the align mode, the canvas and what is painted on
    it are kept.  From there [autoFitZoom] does nothing, [renderFrame] does
    nothing at any index, and animation frames leave the session as it is. *)
Theorem resetApp_leaves_nothing_to_draw (p : Page) (i : nat) (ts : list R) :
  images (state (world (resetApp p))) = []
  /\ isPlaying (state (world (resetApp p))) = false
  /\ zoom (state (world (resetApp p))) = zoom (state (world p))
  /\ fps (state (world (resetApp p))) = fps (state (world p))
  /\ alignEyes (state (world (resetApp p))) = alignEyes (state (world p))
  /\ canvas (state (world (resetApp p))) = canvas (state (world p))
  /\ ctx (state (world (resetApp p))) = ctx (state (world p))
  /\ elements (world (resetApp p)) = elements (world p)
  /\ autoFitZoom (world (resetApp p)) = world (resetApp p)
  /\ renderFrame i (state (world (resetApp p))) = state (world (resetApp p))
  /\ exists p',
       animationFrames ts (resetApp p) = Some p'
       /\ world p' = world (resetApp p).
Proof.
  assert (Hw : world (resetApp p)
               = mkWorld (setImages [] (setIsPlaying false (state (world p))))
                         (elements (world p))).
  { unfold resetApp, cancelStored. cbn [setState world state setIsPlaying animationId].
    destruct (animationId (state (world p))); reflexivity. }
  rewrite Hw. cbn [state elements setImages setIsPlaying images isPlaying zoom fps
                   alignEyes canvas ctx].
  do 8 (split; [reflexivity |]).
  split; [reflexivity |]. split; [destruct i; reflexivity |].
  rewrite <- Hw.
  assert (Hstop : isPlaying (state (world (resetApp p))) = false)
    by (rewrite Hw; reflexivity).
  revert Hstop. generalize (resetApp p) as q. clear Hw.
  induction ts as [| t rest IH]; intros q Hstop.
  - exists q. split; reflexivity.
  - cbn [animationFrames]. rewrite (animationFrame_stopped t q Hstop).
    destruct (IH (setPending [] q) Hstop) as (p' & Hrun & Hw').
    exists p'. split; [exact Hrun | exact Hw'].
Qed.

(** One animation frame of a running loop: the only pending callback runs,
    draws and advances if it is due, and is pending again. *)
Lemma animationFrame_running (t lastTime : R) (h : nat) (p : Page) (it : Item)
    (rest : list Item) :
  isPlaying (state (world p)) = true ->
  images (state (world p)) = it :: rest ->
  pendingFrames p = [(h, lastTime)] ->
  let s := state (world p) in
  let interval := ndiv (Fin 1000) (Fin (IZR (fps s))) in
  let h' := Datatypes.S (frameCounter p) in
  animationFrame t p
  = Some (if ngt (nsub (Fin t) (Fin lastTime)) interval
          then mkPage (mkWorld
                         (setAnimationId (Some h')
                            (setCurrentFrame
                               ((currentFrame s + 1) mod List.length (it :: rest))
                               (renderFrame (currentFrame s) s)))
                         (elements (world p)))
                      (editorSectionHidden p) (uploadSectionHidden p)
                      (fileInputValue p) (alignEyesBtnActive p)
                      (noAlignBtnActive p) [(h', t)] h'
          else mkPage (mkWorld (setAnimationId (Some h') s) (elements (world p)))
                      (editorSectionHidden p) (uploadSectionHidden p)
                      (fileInputValue p) (alignEyesBtnActive p)
                      (noAlignBtnActive p) [(h', lastTime)] h').
Proof.
  intros Hplay Himg Hpend s interval h'. subst s interval h'.
  unfold animationFrame. rewrite Hpend. cbn [runCallbacks existsb fst].
  rewrite Hpend. cbn [existsb fst]. rewrite Nat.eqb_refl. cbn [orb].
  unfold loop, cancelAnimationFrame. cbn [setPending world pendingFrames].
  rewrite Hpend. cbn [filter fst]. rewrite Nat.eqb_refl. cbn [negb].
  rewrite Hplay, Himg. cbn [negb].
  destruct (ngt (nsub (Fin t) (Fin lastTime))
                (ndiv (Fin 1000) (Fin (IZR (fps (state (world p)))))));
    reflexivity.
Qed.

(** X18.  A running loop steps through the frames in a cycle.  With playback
    on, at least one image, the current frame within the sequence and one
    pending callback, a run of animation frames at times [ts] ends with
    playback still on, the same images, again exactly one pending callback,
    and the current frame moved on, modulo the number of images, by the
    number of frames that came more than 1000 / fps after the last frame
    drawn. *)
Theorem playback_advances_cyclically (ts : list R) (p : Page) (h : nat)
    (lastTime : R) :
  isPlaying (state (world p)) = true ->
  images (state (world p)) <> [] ->
  (currentFrame (state (world p)) < List.length (images (state (world p))))%nat ->
  pendingFrames p = [(h, lastTime)] ->
  exists p' h' lastTime',
    animationFrames ts p = Some p'
    /\ isPlaying (state (world p')) = true
    /\ images (state (world p')) = images (state (world p))
    /\ fps (state (world p')) = fps (state (world p))
    /\ pendingFrames p' = [(h', lastTime')]
    /\ (ts <> [] -> animationId (state (world p')) = Some h')
    /\ currentFrame (state (world p'))
       = ((currentFrame (state (world p))
           + renderCount (ndiv (Fin 1000) (Fin (IZR (fps (state (world p))))))
                         ts lastTime)
          mod List.length (images (state (world p))))%nat.
Proof.
  revert p h lastTime. induction ts as [| t rest IH]; intros p h lastTime
    Hplay Hne Hcf Hpend.
  - exists p, h, lastTime. cbn [animationFrames renderCount].
    repeat (split; [reflexivity || assumption |]).
    split; [intros H; contradiction |].
    rewrite Nat.add_0_r, Nat.mod_small by exact Hcf. reflexivity.
  - destruct (images (state (world p))) as [| it items] eqn:Himg; [contradiction |].
    cbn [animationFrames].
    rewrite (animationFrame_running t lastTime h p it items Hplay Himg Hpend).
    cbn [renderCount].
    set (interval := ndiv (Fin 1000) (Fin (IZR (fps (state (world p)))))) in *.
    set (n := List.length (it :: items)) in *.
    assert (Hn : n <> 0%nat) by (unfold n; cbn; lia).
    destruct (ngt (nsub (Fin t) (Fin lastTime)) interval).
    + match goal with
      | |- context [animationFrames rest ?q] =>
          destruct (IH q (Datatypes.S (frameCounter p)) t)
            as (p' & h' & lt' & Hrun & Hp & Hi & Hf & Hpd & Hid & Hc)
      end.
      * cbn [world state isPlaying setAnimationId setCurrentFrame].
        rewrite renderFrame_only_ctx. exact Hplay.
      * cbn [world state images setAnimationId setCurrentFrame].
        rewrite renderFrame_images, Himg. discriminate.
      * cbn [world state images currentFrame setAnimationId setCurrentFrame].
        rewrite renderFrame_images, Himg. apply Nat.mod_upper_bound. exact Hn.
      * reflexivity.
      * cbn [world state images fps currentFrame setAnimationId setCurrentFrame] in *.
        rewrite renderFrame_images, Himg in *.
        assert (Hfps : fps (renderFrame (currentFrame (state (world p)))
                                        (state (world p)))
                       = fps (state (world p)))
          by (rewrite renderFrame_only_ctx; reflexivity).
        rewrite Hfps in *. fold interval in Hc. fold n in Hc.
        exists p', h', lt'. split; [exact Hrun |]. split; [exact Hp |].
        split; [exact Hi |]. split; [exact Hf |]. split; [exact Hpd |].
        split.
        -- intros _. destruct rest as [| t' rest'].
           ++ cbn [animationFrames] in Hrun. injection Hrun as <-.
              cbn [pendingFrames] in Hpd. injection Hpd as <- _. reflexivity.
           ++ apply Hid. discriminate.
        -- rewrite Hc. rewrite Nat.Div0.add_mod_idemp_l.
           f_equal. lia.
    + match goal with
      | |- context [animationFrames rest ?q] =>
          destruct (IH q (Datatypes.S (frameCounter p)) lastTime)
            as (p' & h' & lt' & Hrun & Hp & Hi & Hf & Hpd & Hid & Hc)
      end.
      * exact Hplay.
      * cbn [world state images setAnimationId]. rewrite Himg. discriminate.
      * cbn [world state images currentFrame setAnimationId]. rewrite Himg.
        exact Hcf.
      * reflexivity.
      * cbn [world state images fps currentFrame setAnimationId] in *.
        rewrite Himg in *. fold interval in Hc. fold n in Hc.
        exists p', h', lt'. split; [exact Hrun |]. split; [exact Hp |].
        split; [exact Hi |]. split; [exact Hf |]. split; [exact Hpd |].
        split; [| exact Hc].
        intros _. destruct rest as [| t' rest'].
        -- cbn [animationFrames] in Hrun. injection Hrun as <-.
           cbn [pendingFrames] in Hpd. injection Hpd as <- _. reflexivity.
        -- apply Hid. discriminate.
Qed.

Lemma playback_advances_cyclically_witness :
  exists p' h' lastTime',
    animationFrames [16; 120; 150; 230]
      (startPlayback (pageOf (worldOf [itemWide; itemNoFace]))) = Some p'
    /\ isPlaying (state (world p')) = true
    /\ images (state (world p')) = [itemWide; itemNoFace]
    /\ fps (state (world p')) = 10%Z
    /\ pendingFrames p' = [(h', lastTime')]
    /\ ([16; 120; 150; 230] <> [] -> animationId (state (world p')) = Some h')
    /\ currentFrame (state (world p'))
       = Nat.modulo
           (Nat.add 0 (renderCount (ndiv (Fin 1000) (Fin 10)) [16; 120; 150; 230] 0))
           2.
Proof.
  apply (playback_advances_cyclically [16; 120; 150; 230]
           (startPlayback (pageOf (worldOf [itemWide; itemNoFace]))) 1%nat 0).
  - reflexivity.
  - discriminate.
  - cbn. lia.
  - reflexivity.
Defined.

(** X19.  [startPlayback] turns playback on at frame 0 without drawing, and
    keeps a single loop when it is called on a page with no pending callback
    or with one pending callback whose handle is the one stored in
    [state.animationId] (as it is after any frame of a running loop): that
    callback is cancelled and one new callback, with [lastTime] 0, is
    pending. *)
Theorem startPlayback_single_loop (p : Page) :
  pendingFrames p = []
  \/ (exists h lt, pendingFrames p = [(h, lt)]
                   /\ animationId (state (world p)) = Some h) ->
  isPlaying (state (world (startPlayback p))) = true
  /\ currentFrame (state (world (startPlayback p))) = 0%nat
  /\ pendingFrames (startPlayback p) = [(Datatypes.S (frameCounter p), 0)]
  /\ images (state (world (startPlayback p))) = images (state (world p))
  /\ ctx (state (world (startPlayback p))) = ctx (state (world p))
  /\ zoom (state (world (startPlayback p))) = zoom (state (world p)).
Proof.
  intros Hpend.
  assert (Hcancel : pendingFrames (cancelStored p) = []
                    /\ world (cancelStored p) = world p
                    /\ frameCounter (cancelStored p) = frameCounter p).
  { unfold cancelStored. destruct Hpend as [Hnil | (h & lt & Hone & Hid)].
    - destruct (animationId (state (world p))).
      + unfold cancelAnimationFrame. cbn [setPending pendingFrames world frameCounter].
        rewrite Hnil. repeat split.
      + repeat split. exact Hnil.
    - rewrite Hid. unfold cancelAnimationFrame.
      cbn [setPending pendingFrames world frameCounter]. rewrite Hone.
      cbn [filter fst]. rewrite Nat.eqb_refl. repeat split. }
  destruct Hcancel as (Hc1 & Hc2 & Hc3).
  unfold startPlayback, requestAnimationFrame, setState.
  cbn [snd world state pendingFrames frameCounter].
  rewrite Hc1, Hc2, Hc3. repeat split.
Qed.

Lemma startPlayback_single_loop_witness :
  pendingFrames (startPlayback (pageOf (worldOf [itemWide]))) = [(1%nat, 0)].
Proof.
  destruct (startPlayback_single_loop (pageOf (worldOf [itemWide])))
    as (_ & _ & H & _).
  - left. reflexivity.
  - exact H.
Defined.

(** ** The zoom slider *)

(** What [autoFitZoom] writes to the slider. *)
Lemma autoFitZoom_slider (w : World) :
  images (state w) <> [] ->
  zoomRangeValue (elements (autoFitZoom w))
  = nround (nmul (zoom (state (autoFitZoom w))) (Fin 100)).
Proof.
  intros Hne. rewrite (autoFitZoom_zoom w Hne). unfold autoFitZoom.
  destruct (images (state w)); [contradiction |].
  cbn [isPlaying setZoom]. destruct (isPlaying (state w)); reflexivity.
Qed.

Lemma onZoomRangeInput_zoom (value : Z) (p : Page) :
  zoom (state (world (onZoomRangeInput value p)))
  = ndiv (Fin (IZR value)) (Fin 100).
Proof.
  unfold onZoomRangeInput. cbn [isPlaying images setZoom].
  destruct (isPlaying (state (world p))), (images (state (world p)));
    cbn [setState world state]; rewrite ?renderFrame_zoom; reflexivity.
Qed.

(** X20.  The slider and the zoom agree after auto-fit: an [input] event of
    the zoom slider that carries the value [autoFitZoom] has just written
    there stores the same zoom again. *)
Theorem slider_round_trip (w : World) (p : Page) (zf : R) (k : Z) :
  images (state w) <> [] ->
  world p = autoFitZoom w ->
  zoom (state (world p)) = Fin zf ->
  zoomRangeValue (elements (world p)) = Fin (IZR k) ->
  zoom (state (world (onZoomRangeInput k p))) = Fin zf.
Proof.
  intros Hne Hw Hz Hv. rewrite onZoomRangeInput_zoom.
  rewrite Hw in Hz, Hv. rewrite (autoFitZoom_slider w Hne), Hz in Hv.
  rewrite (autoFitZoom_zoom w Hne) in Hz.
  destruct (clampedZoomOf_hundredths _ _ Hz) as (k' & _ & Hzf).
  unfold nmul, nround in Hv. injection Hv as Hv.
  rewrite (Zfloor_eq k') in Hv by (rewrite Hzf; lra).
  rewrite ndiv_finite by lra. f_equal. rewrite Hzf, Hv. reflexivity.
Qed.

Lemma slider_round_trip_witness :
  zoom (state (world (onZoomRangeInput 15 (pageOf (autoFitZoom (worldOf [itemWide]))))))
  = Fin (15 / 100).
Proof.
  assert (Hz : zoom (state (autoFitZoom (worldOf [itemWide]))) = Fin (15 / 100)).
  { rewrite autoFitZoom_zoom by discriminate.
    change (state (worldOf [itemWide])) with (stateOf [itemWide]).
    rewrite minSafeZoomOf_wide. apply clampedZoomOf_wide. }
  apply (slider_round_trip (worldOf [itemWide])
           (pageOf (autoFitZoom (worldOf [itemWide]))) (15 / 100) 15).
  - discriminate.
  - reflexivity.
  - exact Hz.
  - cbn [pageOf world]. rewrite autoFitZoom_slider by discriminate.
    rewrite Hz. unfold nmul, nround. f_equal. f_equal.
    apply Zfloor_eq. lra.
Defined.

(** ** GIF export *)

Lemma addGifFrame_state (acc : Page * list GifFrame) (i : nat) :
  state (world (fst (addGifFrame acc i))) = renderFrame i (state (world (fst acc)))
  /\ snd (addGifFrame acc i)
     = (snd acc
        ++ [mkGifFrame (painted (ctx (renderFrame i (state (world (fst acc))))))
                       (ndiv (Fin 1000)
                             (Fin (IZR (fps (state (world (fst acc)))))))])%list
  /\ pendingFrames (fst (addGifFrame acc i)) = pendingFrames (fst acc).
Proof.
  unfold addGifFrame. cbv zeta.
  assert (Hfps : fps (renderFrame i (state (world (fst acc))))
                 = fps (state (world (fst acc))))
    by (rewrite renderFrame_only_ctx; reflexivity).
  rewrite Hfps. cbn [fst snd].
  destruct (nround _); cbn [setElements setState world state pendingFrames];
    repeat split.
Qed.

(** The loop of [exportGif]: after the indices [seq start k], the state is
    that of the frames drawn in order, and the encoder has one more frame
    per index. *)
Lemma fold_addGifFrame (k start : nat) (p : Page) (gif : list GifFrame) :
  let result := fold_left addGifFrame (seq start k) (p, gif) in
  state (world (fst result)) = renderFrames (seq start k) (state (world p))
  /\ pendingFrames (fst result) = pendingFrames p
  /\ snd result
     = (gif ++ map (fun i =>
                      mkGifFrame
                        (painted (ctx (renderFrames (seq start (Datatypes.S (i - start)))
                                                    (state (world p)))))
                        (ndiv (Fin 1000) (Fin (IZR (fps (state (world p)))))))
                   (seq start k))%list.
Proof.
  revert start p gif. induction k as [| k IH]; intros start p gif.
  - cbn. rewrite app_nil_r. repeat split.
  - cbn [seq fold_left]. cbv zeta.
    destruct (addGifFrame_state (p, gif) start) as (Hs & Hg & Hp).
    cbn [fst snd] in Hs, Hg, Hp.
    destruct (addGifFrame (p, gif) start) as [p1 gif1] eqn:E.
    cbn [fst snd] in Hs, Hg, Hp.
    specialize (IH (Datatypes.S start) p1 gif1). cbv zeta in IH.
    destruct IH as (IHs & IHp & IHg).
    split; [| split].
    + rewrite IHs, Hs. reflexivity.
    + rewrite IHp, Hp. reflexivity.
    + rewrite IHg, Hg, <- app_assoc. f_equal. cbn [map app].
      rewrite Nat.sub_diag. cbn [seq renderFrames fold_left].
      f_equal.
      assert (Hfps : fps (state (world p1)) = fps (state (world p))).
      { rewrite Hs, renderFrame_only_ctx. reflexivity. }
      rewrite Hfps. apply map_ext_in. intros i Hi. apply in_seq in Hi.
      f_equal. f_equal. f_equal.
      replace (i - start)%nat with (Datatypes.S (i - Datatypes.S start)) by lia.
      rewrite Hs. reflexivity.
Qed.

Lemma renderFrames_only_ctx (l : list nat) (s : State) :
  renderFrames l s = setCtx (ctx (renderFrames l s)) s.
Proof.
  revert s. induction l as [| i l IH]; intros s.
  - destruct s. reflexivity.
  - cbn [renderFrames fold_left]. fold (renderFrames l (renderFrame i s)).
    rewrite IH at 1. rewrite (renderFrame_only_ctx i s) at 2. reflexivity.
Qed.

Lemma world_cancelStored (p : Page) : world (cancelStored p) = world p.
Proof. unfold cancelStored. destruct (animationId (state (world p))); reflexivity. Qed.

(** What [exportGif] does on a sequence that is not empty. *)
Lemma exportGif_nonempty (p : Page) :
  images (state (world p)) <> [] ->
  let s0 := setIsPlaying false (state (world p)) in
  let n := List.length (images (state (world p))) in
  exists p',
    exportGif p
    = (p', Some (map (fun i =>
                        mkGifFrame (painted (ctx (renderFrames (seq 0 (Datatypes.S i)) s0)))
                                   (ndiv (Fin 1000) (Fin (IZR (fps (state (world p)))))))
                     (seq 0 n),
                 isPlaying (state (world p))))
    /\ state (world p') = renderFrames (seq 0 n) s0.
Proof.
  intros Hne s0 n. unfold exportGif.
  destruct (images (state (world p))) as [| it rest] eqn:Himg; [contradiction |].
  cbv zeta. cbn [setElements world state].
  set (q := cancelStored (setState (setIsPlaying false (state (world p)))
                            (setElements (showLoading "Generating GIF..." 0
                                            (elements (world p))) p))).
  assert (Hq : state (world q) = s0).
  { unfold q, cancelStored. cbn [setState setElements world state].
    destruct (animationId (setIsPlaying false (state (world p)))); reflexivity. }
  fold (setElements (showLoading "Generating GIF..." 0 (elements (world p))) p).
  cbn [setState setElements world state] in *. fold q.
  assert (Hlen : List.length (images (state (world q))) = n).
  { rewrite Hq. unfold s0, n. cbn [setIsPlaying images]. rewrite Himg. reflexivity. }
  rewrite Hlen.
  destruct (fold_addGifFrame n 0 q []) as (Hs & _ & Hg). cbv zeta in Hs, Hg.
  eexists. split; [| rewrite Hs, Hq; reflexivity].
  f_equal. f_equal. f_equal. rewrite Hg, Hq. cbn [app].
  apply map_ext. intros i. rewrite Nat.sub_0_r. reflexivity.
Qed.

(** X21.  [exportGif] returns at once on an empty sequence.  Otherwise it
    stops playback and hands the encoder exactly one frame per image, in
    the order of the sequence: frame [i] is the canvas as it is once the
    images 0 to [i] have been drawn in turn, with the delay 1000 / fps; the
    images, the current frame and the zoom are left as they were. *)
Theorem exportGif_one_frame_per_image (p : Page) :
  (images (state (world p)) = [] -> exportGif p = (p, None))
  /\ (images (state (world p)) <> [] ->
      let s0 := setIsPlaying false (state (world p)) in
      let n := List.length (images (state (world p))) in
      exists p',
        exportGif p
        = (p', Some (map (fun i =>
                            mkGifFrame
                              (painted (ctx (renderFrames (seq 0 (Datatypes.S i)) s0)))
                              (ndiv (Fin 1000) (Fin (IZR (fps (state (world p)))))))
                         (seq 0 n),
                     isPlaying (state (world p))))
        /\ state (world p') = renderFrames (seq 0 n) s0
        /\ isPlaying (state (world p')) = false
        /\ images (state (world p')) = images (state (world p))
        /\ currentFrame (state (world p')) = currentFrame (state (world p))
        /\ zoom (state (world p')) = zoom (state (world p))).
Proof.
  split.
  - intros E. unfold exportGif. rewrite E. reflexivity.
  - intros Hne s0 n.
    destruct (exportGif_nonempty p Hne) as (p' & Hexp & Hs). cbv zeta in Hexp, Hs.
    exists p'. split; [exact Hexp |]. split; [exact Hs |].
    fold s0 n in Hs. rewrite Hs, renderFrames_only_ctx. repeat split.
Qed.

Lemma exportGif_one_frame_per_image_witness :
  exists p',
    exportGif (pageOf (worldOf [itemWide; itemNoFace]))
    = (p', Some (map (fun i =>
                        mkGifFrame
                          (painted (ctx (renderFrames
                                           (seq 0 (Datatypes.S i))
                                           (setIsPlaying false
                                              (stateOf [itemWide; itemNoFace])))))
                          (ndiv (Fin 1000) (Fin 10)))
                     (seq 0 2),
                 false))
    /\ isPlaying (state (world p')) = false.
Proof.
  destruct (exportGif_one_frame_per_image (pageOf (worldOf [itemWide; itemNoFace])))
    as [_ H].
  destruct (H ltac:(discriminate)) as (p' & Hexp & _ & Hplay & _).
  exists p'. split; [exact Hexp | exact Hplay].
Defined.

(** X22.  An export gives playback back as it took it.  On a sequence that
    is not empty, once the [finished] listener has run on the page
    [exportGif] left, playback is on exactly when it was on before the
    export (from frame 0 in that case, from the current frame otherwise),
    the overlay is hidden, and the images and the zoom are as before. *)
Theorem exportGif_restores_playback (p : Page) :
  images (state (world p)) <> [] ->
  exists p' gif,
    exportGif p = (p', Some (gif, isPlaying (state (world p))))
    /\ let q := onGifFinished (isPlaying (state (world p))) p' in
       isPlaying (state (world q)) = isPlaying (state (world p))
       /\ loadingOverlayHidden (elements (world q)) = true
       /\ images (state (world q)) = images (state (world p))
       /\ zoom (state (world q)) = zoom (state (world p))
       /\ currentFrame (state (world q))
          = (if isPlaying (state (world p)) then 0%nat
             else currentFrame (state (world p))).
Proof.
  intros Hne.
  destruct (exportGif_nonempty p Hne) as (p' & Hexp & Hs). cbv zeta in Hexp, Hs.
  exists p'. eexists. split; [exact Hexp |]. cbv zeta.
  assert (Hst : state (world p')
                = setCtx (ctx (state (world p')))
                         (setIsPlaying false (state (world p)))).
  { rewrite Hs at 1. rewrite renderFrames_only_ctx. rewrite <- Hs. reflexivity. }
  unfold onGifFinished. cbv zeta.
  destruct (isPlaying (state (world p))) eqn:Hplay.
  - unfold startPlayback, requestAnimationFrame, setState.
    cbn [snd world state elements]. rewrite world_cancelStored.
    cbn [setElements world state elements]. rewrite Hst. repeat split.
  - cbn [setElements world state elements]. rewrite Hst.
    cbn [setCtx setIsPlaying isPlaying images zoom currentFrame].
    repeat split.
Qed.

Lemma exportGif_restores_playback_witness :
  exists p' gif,
    exportGif (startPlayback (pageOf (worldOf [itemWide])))
    = (p', Some (gif, true))
    /\ isPlaying (state (world (onGifFinished true p'))) = true.
Proof.
  destruct (exportGif_restores_playback (startPlayback (pageOf (worldOf [itemWide]))))
    as (p' & gif & Hexp & Hplay & _).
  - discriminate.
  - exists p', gif. split; [exact Hexp | exact Hplay].
Defined.

(** ** Level eyes *)

(** X23.  When the two eye centres are at the same height, the left one to
    the left of the right one, the angle is 0 and the transform built by
    [renderFrame] in align mode has no rotation in it: it is the uniform
    scale by canvasWidth * zoom / eyeDistance that sends the eyes-center to
    the target. *)
Theorem level_eyes_pure_scale (s : State) (index : nat) (item : Item)
    (det : Detections) (z lx rx v : R) :
  nth_error (images s) index = Some item ->
  alignEyes s = true ->
  detections item = Some det ->
  ctm (ctx s) = identityM ->
  zoom s = Fin z ->
  getCentroid (getLeftEye (landmarks det)) = mkNPoint (Fin lx) (Fin v) ->
  getCentroid (getRightEye (landmarks det)) = mkNPoint (Fin rx) (Fin v) ->
  lx < rx ->
  let k := IZR (Z.of_N (cwidth (canvas s))) * z / (rx - lx) in
  angle (faceGeometry (landmarks det)) = Fin 0
  /\ exists m,
       builtTransform (ctx (renderFrame index s)) = Some m
       /\ ma m = k /\ mb m = 0 /\ mc m = 0 /\ md m = k
       /\ forall px_ py_,
            applyM m (px_, py_)
            = (k * (px_ - (lx + rx) / 2) + IZR (Z.of_N (cwidth (canvas s))) * (5 / 10),
               k * (py_ - v) + IZR (Z.of_N (cheight (canvas s))) * (4 / 10)).
Proof.
  intros Hnth Hal Hdet Hctm Hz HL HR Hlt k.
  pose proof (faceGeometry_finite _ _ _ _ _ HL HR) as Hg.
  pose proof (geometryOf_level lx rx v ltac:(lra)) as Hlevel.
  assert (Ha : Ratan2 (v + - v) (rx + - lx) = 0).
  { unfold geometryOf in Hlevel. injection Hlevel as _ Ha _. exact Ha. }
  assert (Hd : sqrt ((rx + - lx) * (rx + - lx) + (v + - v) * (v + - v)) = rx - lx).
  { unfold geometryOf in Hlevel. injection Hlevel as _ _ Hd. exact Hd. }
  split; [rewrite Hg, Hlevel; reflexivity |].
  eexists. split.
  - rewrite (renderFrame_aligned s index item det z lx v rx v Hnth Hal Hdet Hz HL HR)
      by (rewrite Hd; lra).
    rewrite Hctm, mmul_identity_l, Hd, Ha. reflexivity.
  - unfold alignMatrix, mmul, applyM. cbn [ma mb mc md me mf fst snd].
    rewrite Ropp_0, cos_0, sin_0. fold k.
    split; [ring |]. split; [ring |]. split; [ring |]. split; [ring |].
    intros px_ py_. f_equal; field; lra.
Qed.

Lemma level_eyes_pure_scale_witness :
  angle (faceGeometry lmWide) = Fin 0
  /\ exists m,
       builtTransform (ctx (renderFrame 0 (stateOf [itemWide]))) = Some m
       /\ ma m = 1000 * (25 / 100) / ((590 + 610) / 2 - (390 + 410) / 2)
       /\ mb m = 0 /\ mc m = 0
       /\ md m = 1000 * (25 / 100) / ((590 + 610) / 2 - (390 + 410) / 2)
       /\ forall px_ py_,
            applyM m (px_, py_)
            = (1000 * (25 / 100) / ((590 + 610) / 2 - (390 + 410) / 2)
               * (px_ - ((390 + 410) / 2 + (590 + 610) / 2) / 2) + 1000 * (5 / 10),
               1000 * (25 / 100) / ((590 + 610) / 2 - (390 + 410) / 2)
               * (py_ - (495 + 505) / 2) + 1000 * (4 / 10)).
Proof.
  apply (level_eyes_pure_scale (stateOf [itemWide]) 0 itemWide (mkDetections lmWide)
           (25 / 100) ((390 + 410) / 2) ((590 + 610) / 2) ((495 + 505) / 2)).
  - reflexivity.
  - reflexivity.
  - reflexivity.
  - reflexivity.
  - reflexivity.
  - apply getCentroid_pair.
  - apply getCentroid_pair.
  - lra.
Defined.
